(** * Burrows-Delta authorship attribution: the notebook pipeline in Rocq

    A shallow embedding of the code cells of the Burrows-Delta notebook:
    [load_directory] (the segmenter), the [CountVectorizer] call with a
    fixed vocabulary, [preprocessing.normalize(..., norm='l1')], the
    [StandardScaler(with_mean=False)] used by [Delta.fit], and the
    [Delta] class itself.

    Conventions of the embedding.
    - A Python [str] is a [string]; the character tables ([str.lower],
      [str.isspace], the regex class [\w]) are the ASCII ones, so the
      model speaks about ASCII text (the corpus is lemmatised Latin).
    - A Python [int] is a [Z]; a [float] is a real number [R]: rounding,
      overflow and NaN payloads are outside the model.  Where the
      libraries guard against a zero divisor, the guard is taken at its
      exact meaning (norm = 0, variance = 0).
    - A call that can raise returns an [outcome]; the [while] loop of
      [load_directory] runs on fuel, one unit per iteration.
    - scikit-learn, SciPy and NumPy are not part of the repository: their
      functions are embedded by their documented behaviour, each one under
      the name the notebook calls it by. *)

From Stdlib Require Import List String Ascii ZArith Lia Reals Lra DecimalString.
From stdpp Require Import gmap strings list.

(* ===================================================================== *)
(** * Part I: the embedding *)
(* ===================================================================== *)

(** ** Python values, exceptions and built-ins *)

Module Py.

Inductive exn : Type :=
  | IndexError
  | ValueError
  | AttributeError
  | NotFittedError.

Inductive outcome (A : Type) : Type :=
  | Ok (a : A)
  | Raise (e : exn)
  | OutOfFuel.

Arguments Ok {A} a.
Arguments Raise {A} e.
Arguments OutOfFuel {A}.

Definition bind {A B : Type} (m : outcome A) (k : A -> outcome B) : outcome B :=
  match m with
  | Ok a => k a
  | Raise e => Raise e
  | OutOfFuel => OutOfFuel
  end.

Definition is_ok {A : Type} (m : outcome A) : bool :=
  match m with Ok _ => true | _ => false end.

(** [str.isspace] on ASCII: TAB, LF, VT, FF, CR, FS, GS, RS, US and space. *)
Definition isspace (c : ascii) : bool :=
  let n := nat_of_ascii c in
  ((9 <=? n) && (n <=? 13)) || ((28 <=? n) && (n <=? 32)).

(** One character of [str.lower] on ASCII. *)
Definition lower_char (c : ascii) : ascii :=
  let n := nat_of_ascii c in
  if (65 <=? n) && (n <=? 90) then ascii_of_nat (n + 32) else c.

Fixpoint lower (s : string) : string :=
  match s with
  | EmptyString => EmptyString
  | String c s' => String (lower_char c) (lower s')
  end.

Definition cons_nonempty (t : string) (ts : list string) : list string :=
  match t with
  | EmptyString => ts
  | _ => t :: ts
  end.

(** [split_aux s] is the token that starts at the head of [s] (empty when
    [s] starts with white space) and the tokens after it. *)
Fixpoint split_aux (s : string) : string * list string :=
  match s with
  | EmptyString => (EmptyString, [])
  | String c s' =>
      let (t, ts) := split_aux s' in
      if isspace c then (EmptyString, cons_nonempty t ts)
      else (String c t, ts)
  end.

(** [s.split()]: the maximal runs of characters that are not white space. *)
Definition split (s : string) : list string :=
  let (t, ts) := split_aux s in cons_nonempty t ts.

(** [s.split(sep)] for a one-character separator. *)
Fixpoint split_on (sep : ascii) (s : string) : list string :=
  match s with
  | EmptyString => [EmptyString]
  | String c s' =>
      if Ascii.eqb c sep then EmptyString :: split_on sep s'
      else match split_on sep s' with
           | t :: ts => String c t :: ts
           | [] => [String c EmptyString]
           end
  end.

(** [s.replace(old, new)] for a non-empty [old]: occurrences are replaced
    from the left and do not overlap; [skip] counts the characters of a
    matched occurrence that are still to be dropped. *)
Fixpoint replace_from (skip : nat) (old new s : string) : string :=
  match s with
  | EmptyString => EmptyString
  | String c s' =>
      match skip with
      | S k => replace_from k old new s'
      | O =>
          if String.prefix old s
          then (new ++ replace_from (String.length old - 1) old new s')%string
          else String c (replace_from 0 old new s')
      end
  end.

Definition replace (old new s : string) : string := replace_from 0 old new s.

(** [s.endswith(suffix)]. *)
Definition endswith (s suffix : string) : bool :=
  (String.length suffix <=? String.length s) &&
  String.eqb
    (String.substring (String.length s - String.length suffix)
                      (String.length suffix) s)
    suffix.

(** [s.rfind(c)] for a character: the index of its last occurrence. *)
Fixpoint rfind (c : ascii) (s : string) : option nat :=
  match s with
  | EmptyString => None
  | String d s' =>
      match rfind c s' with
      | Some i => Some (S i)
      | None => if Ascii.eqb d c then Some 0 else None
      end
  end.

Fixpoint all_chars (p : ascii -> bool) (s : string) : bool :=
  match s with
  | EmptyString => true
  | String c s' => p c && all_chars p s'
  end.

(** [c in s] for a character. *)
Definition contains_char (c : ascii) (s : string) : bool :=
  negb (all_chars (fun d => negb (Ascii.eqb d c)) s).

(** [os.path.splitext] on a name without directory separator: split at the
    last dot, unless only dots come before it. *)
Definition splitext (p : string) : string * string :=
  match rfind "."%char p with
  | None => (p, EmptyString)
  | Some dotIndex =>
      if all_chars (Ascii.eqb "."%char) (String.substring 0 dotIndex p)
      then (p, EmptyString)
      else (String.substring 0 dotIndex p,
            String.substring dotIndex (String.length p - dotIndex) p)
  end.

(** [s[0]] on a string. *)
Definition str_first (s : string) : outcome string :=
  match s with
  | EmptyString => Raise IndexError
  | String c _ => Ok (String c EmptyString)
  end.

(** [l[i]] for a non-negative literal index. *)
Definition getitem {A : Type} (l : list A) (i : nat) : outcome A :=
  match l !! i with
  | Some x => Ok x
  | None => Raise IndexError
  end.

(** One bound of a slice, clamped the way Python does. *)
Definition slice_bound (len i : Z) : Z :=
  if (i <? 0)%Z then Z.max 0 (i + len) else Z.min i len.

(** [l[start:stop]]. *)
Definition slice {A : Type} (l : list A) (start stop : Z) : list A :=
  let len := Z.of_nat (length l) in
  let lo := slice_bound len start in
  let hi := slice_bound len stop in
  firstn (Z.to_nat (hi - lo)) (skipn (Z.to_nat lo) l).

(** [sep.join(l)]. *)
Definition join (sep : string) (l : list string) : string := String.concat sep l.

(** [str(n)] for an int, as an f-string formats it. *)
Definition str_of_int (n : Z) : string := NilZero.string_of_int (Z.to_int n).

(** [s.lstrip()], [s.rstrip()] and [s.strip()]: white space is removed from
    the left end, the right end, both ends. *)
Fixpoint lstrip (s : string) : string :=
  match s with
  | EmptyString => EmptyString
  | String c s' => if isspace c then lstrip s' else s
  end.

Fixpoint rstrip (s : string) : string :=
  match s with
  | EmptyString => EmptyString
  | String c s' =>
      match rstrip s' with
      | EmptyString => if isspace c then EmptyString else String c EmptyString
      | r => String c r
      end
  end.

Definition strip (s : string) : string := rstrip (lstrip s).

(** [s.startswith(prefix)]. *)
Definition startswith (s prefix : string) : bool := String.prefix prefix s.

(** The truth value of a string: it is not empty. *)
Definition truthy (s : string) : bool :=
  match s with
  | EmptyString => false
  | _ => true
  end.

(** An ASCII capital letter. *)
Definition is_upper (c : ascii) : bool :=
  let n := nat_of_ascii c in (65 <=? n) && (n <=? 90).

(** [str.isascii]: every character is below 128.  On such strings
    [str.lower], [str.split] and the regex class [\w] work by the ASCII
    tables. *)
Definition isascii (s : string) : bool :=
  all_chars (fun c => nat_of_ascii c <? 128) s.

End Py.

Notation "x <- m ;; k" := (Py.bind m (fun x => k))
  (at level 100, m at next level, right associativity).

(** ** The segmenter: [load_directory] *)

Module Segmenter.
Import Py.

(** What [os.scandir] and [open(...).read()] deliver for one regular file. *)
Record DirEntry : Type := { name : string; contents : string }.

(** The three lists the function builds. *)
Record corpus : Type :=
  { documents : list string; authors : list string; titles : list string }.

Definition empty_corpus : corpus :=
  {| documents := []; authors := []; titles := [] |}.

(** The [while end_idx < len(lemmas)] loop of one file. *)
Fixpoint while_slices (fuel : nat) (filename author : string)
    (lemmas : list string) (max_length : Z)
    (acc : corpus) (start_idx end_idx segm_cnt : Z) : outcome corpus :=
  if (end_idx <? Z.of_nat (length lemmas))%Z then
    match fuel with
    | O => OutOfFuel
    | S fuel' =>
        let documents' :=
          documents acc ++ [join " " (slice lemmas start_idx end_idx)] in
        a <- str_first author ;;
        let authors' := authors acc ++ [a] in
        title <- getitem (split_on "_"%char (replace ".txt" "" filename)) 1 ;;
        let titles' :=
          titles acc ++ [(title ++ "-" ++ str_of_int segm_cnt)%string] in
        while_slices fuel' filename author lemmas max_length
          {| documents := documents'; authors := authors'; titles := titles' |}
          (start_idx + max_length) (end_idx + max_length) (segm_cnt + 1)
    end
  else Ok acc.

(** The body of the [for filename in os.scandir(directory)] loop. *)
Definition load_file (fuel : nat) (filename : DirEntry) (max_length : Z)
    (acc : corpus) : outcome corpus :=
  if negb (endswith (name filename) ".txt") then Ok acc
  else
    let author := fst (splitext (name filename)) in
    let lemmas := split (lower (contents filename)) in
    while_slices fuel (name filename) author lemmas max_length acc 0 max_length 1.

Fixpoint scan (fuel : nat) (directory : list DirEntry) (max_length : Z)
    (acc : corpus) : outcome corpus :=
  match directory with
  | [] => Ok acc
  | filename :: rest =>
      acc' <- load_file fuel filename max_length acc ;;
      scan fuel rest max_length acc'
  end.

(** [load_directory(directory, max_length)]; every file's loop may take up
    to [fuel] iterations. *)
Definition load_directory (fuel : nat) (directory : list DirEntry)
    (max_length : Z) : outcome corpus :=
  scan fuel directory max_length empty_corpus.

(** The number of whitespace-separated tokens of a text. *)
Definition token_count (T : string) : nat := length (split (lower T)).

(** The file name lets the loop body derive an author and a title. *)
Definition well_named (filename : string) : bool :=
  endswith filename ".txt" && contains_char "_"%char filename.

(** The number of times the loop body runs from a given [end_idx]. *)
Definition iterations (n max_length end_idx : Z) : Z :=
  if (end_idx <? n)%Z then (n - 1 - end_idx) / max_length + 1 else 0.

(** Two results put one after the other, list by list. *)
Definition corpus_app (c1 c2 : corpus) : corpus :=
  {| documents := documents c1 ++ documents c2;
     authors := authors c1 ++ authors c2;
     titles := titles c1 ++ titles c2 |}.

(** The [k]-th window of [max_length] lemmas, counted from zero. *)
Definition window (lemmas : list string) (max_length : Z) (k : nat)
  : list string :=
  slice lemmas (Z.of_nat k * max_length) ((Z.of_nat k + 1) * max_length).

(** A token as [str.split()] delivers it: not empty, no white space. *)
Definition is_token (t : string) : Prop :=
  t <> EmptyString /\ all_chars (fun c => negb (isspace c)) t = true.

End Segmenter.

(** ** The word list: [vocab = [l.strip() for l in open(...) if ...][:65]] *)

Module Wordlist.
Import Py.

(** The vocabulary read from the lines of the word-list file, each line as
    the file iterator delivers it (with its line end). *)
Definition load_vocab (lines : list string) : list string :=
  firstn 65
    (map strip
       (List.filter
          (fun l => negb (startswith l "#") && truthy (strip l)) lines)).

End Wordlist.

(** ** The vectorizer: [CountVectorizer(token_pattern=..., vocabulary=vocab)] *)

Module Vectorizer.
Import Py.

(** The regex class [\w] on ASCII: letters, digits and the underscore. *)
Definition is_word_char (c : ascii) : bool :=
  let n := nat_of_ascii c in
  ((48 <=? n) && (n <=? 57)) || ((65 <=? n) && (n <=? 90)) ||
  ((97 <=? n) && (n <=? 122)) || (n =? 95).

Fixpoint findall_aux (s : string) : string * list string :=
  match s with
  | EmptyString => (EmptyString, [])
  | String c s' =>
      let (t, ts) := findall_aux s' in
      if is_word_char c then (String c t, ts)
      else (EmptyString, cons_nonempty t ts)
  end.

(** [re.findall(r"(?u)\b\w+\b", s)]: the maximal runs of word characters. *)
Definition findall_words (s : string) : list string :=
  let (t, ts) := findall_aux s in cons_nonempty t ts.

(** The analyzer the vectorizer builds: lowercase (the default), then the
    token pattern; one-grams, no stop words. *)
Definition analyze (doc : string) : list string := findall_words (lower doc).

(** [d.setdefault(k, v)]: the value now stored under [k], and the dict. *)
Definition setdefault (d : gmap string nat) (k : string) (v : nat)
  : nat * gmap string nat :=
  match d !! k with
  | Some w => (w, d)
  | None => (v, <[k := v]> d)
  end.

(** The [for i, t in enumerate(vocabulary)] loop of [_validate_vocabulary]. *)
Fixpoint enumerate_vocabulary (i : nat) (vocabulary : list string)
    (vocab : gmap string nat) : outcome (gmap string nat) :=
  match vocabulary with
  | [] => Ok vocab
  | t :: rest =>
      let (w, vocab') := setdefault vocab t i in
      if w =? i then enumerate_vocabulary (S i) rest vocab'
      else Raise ValueError
  end.

(** [_validate_vocabulary] for a vocabulary given as a list: a duplicate
    term and an empty vocabulary are both a [ValueError]. *)
Definition validate_vocabulary (vocabulary : list string)
  : outcome (gmap string nat) :=
  vocab <- enumerate_vocabulary 0 vocabulary ∅ ;;
  if decide (vocab = ∅) then Raise ValueError else Ok vocab.

(** One step of the [for feature in analyze(doc)] loop of [_count_vocab];
    a feature that is not a key of the vocabulary is skipped. *)
Definition count_feature (vocabulary_ : gmap string nat)
    (feature_counter : gmap nat nat) (feature : string) : gmap nat nat :=
  match vocabulary_ !! feature with
  | Some feature_idx =>
      match feature_counter !! feature_idx with
      | None => <[feature_idx := 1]> feature_counter
      | Some n => <[feature_idx := n + 1]> feature_counter
      end
  | None => feature_counter
  end.

Definition count_tokens (vocabulary_ : gmap string nat) (tokens : list string)
  : gmap nat nat :=
  fold_left (count_feature vocabulary_) tokens ∅.

(** One row of the sparse matrix made dense by [.toarray()]. *)
Definition toarray_row (V : nat) (feature_counter : gmap nat nat) : list nat :=
  map (fun j => default 0 (feature_counter !! j)) (seq 0 V).

Definition count_vocab (vocabulary_ : gmap string nat)
    (raw_documents : list string) : list (list nat) :=
  map (fun doc => toarray_row (size vocabulary_)
                    (count_tokens vocabulary_ (analyze doc)))
      raw_documents.

(** [vectorizer.transform(raw_documents).toarray()] for the vectorizer built
    with [vocabulary=vocabulary]. *)
Definition transform (vocabulary : list string) (raw_documents : list string)
  : outcome (list (list nat)) :=
  vocabulary_ <- validate_vocabulary vocabulary ;;
  Ok (count_vocab vocabulary_ raw_documents).

(** A term the analyzer can produce from a document of ASCII characters:
    not empty, made of the word characters of ASCII, none of them a capital
    letter. *)
Definition matchable (t : string) : bool :=
  truthy t && all_chars (fun c => is_word_char c && negb (is_upper c)) t.

(** [vectorizer.fit_transform(raw_documents).toarray()]: with a fixed
    vocabulary nothing is learned from the documents. *)
Definition fit_transform (vocabulary : list string) (raw_documents : list string)
  : outcome (list (list nat)) :=
  vocabulary_ <- validate_vocabulary vocabulary ;;
  Ok (count_vocab vocabulary_ raw_documents).

End Vectorizer.

(** ** [sklearn.preprocessing]: [normalize] and [StandardScaler] *)

Module Preprocessing.
Import Py.
Open Scope R_scope.

Abbreviation vec := (list R).
Abbreviation matrix := (list (list R)).

Definition sum (v : vec) : R := fold_right Rplus 0 v.

Definition n_features (X : matrix) : nat :=
  match X with
  | [] => 0
  | r :: _ => length r
  end.

(** [check_array] as [normalize] and the scaler call it, with its defaults
    [ensure_min_samples=1] and [ensure_min_features=1]: a rectangular
    array with at least one sample and one feature is passed on, anything
    else is a [ValueError]. *)
Definition check_array (X : matrix) : outcome matrix :=
  if (1 <=? length X)%nat
     && forallb (fun r => (length r =? n_features X)%nat) X
     && (1 <=? n_features X)%nat
  then Ok X else Raise ValueError.

(** An array of at least one row whose rows all have [V >= 1] entries. *)
Definition well_shaped (X : matrix) (V : nat) : Prop :=
  X <> [] /\ (1 <= V)%nat /\ Forall (fun r => length r = V) X.

(** [_handle_zeros_in_scale(norms)] as [normalize] calls it, without a
    mask of constant features: a zero norm is replaced by one.  (The
    library replaces every norm below [10 * eps]; the rows treated below,
    count rows and rows of norm one, have a norm that is zero or at least
    one.) *)
Definition handle_zeros_in_scale (scale : R) : R :=
  if Req_dec_T scale 0 then 1 else scale.

(** [np.finfo(np.float64).eps]: the distance from 1.0 to the next double. *)
Definition eps : R := / 2 ^ 52.

(** [_is_constant_feature(var, mean, n_samples)]: the scaler's test for a
    feature it cannot tell from a constant one. *)
Definition is_constant_feature (var mean : R) (n_samples : nat) : bool :=
  let upper_bound :=
    INR n_samples * eps * var + (INR n_samples * mean * eps) ^ 2 in
  if Rle_dec var upper_bound then true else false.

(** [_handle_zeros_in_scale(scale, constant_mask=mask)] as the scaler calls
    it: the scale of a feature the mask marks is replaced by one; no other
    test is made. *)
Definition handle_zeros_in_scale_mask (scale : R) (constant : bool) : R :=
  if constant then 1 else scale.

(** [np.abs(X).sum(axis=1)] for one row. *)
Definition l1_norm (v : vec) : R := sum (map Rabs v).

(** The divisor [normalize] uses for a row. *)
Definition norms (v : vec) : R := handle_zeros_in_scale (l1_norm v).

Definition normalize_row (v : vec) : vec := map (fun x => x / norms v) v.

(** [preprocessing.normalize(X, norm='l1')]. *)
Definition normalize (X : matrix) : outcome matrix :=
  X <- check_array X ;;
  Ok (map normalize_row X).

(** [v_documents.astype(float)] on a count matrix. *)
Definition astype_float (X : list (list nat)) : matrix := map (map INR) X.

Definition column (j : nat) (X : matrix) : vec := map (fun r => nth j r 0) X.

Definition mean (v : vec) : R := sum v / INR (length v).

(** [np.var] with [ddof=0]: the mean of [abs(x - x.mean())**2]. *)
Definition var (v : vec) : R :=
  mean (map (fun x => Rabs (x - mean v) * Rabs (x - mean v)) v).

(** The attributes a fitted scaler holds. *)
Record scaler_stats : Type :=
  { n_features_in_ : nat;
    n_samples_seen_ : nat;
    mean_ : vec;
    var_ : vec;
    scale_ : vec }.

(** A [StandardScaler]; [with_std] and [copy] stay at their default [True]. *)
Record StandardScaler : Type :=
  { with_mean : bool;
    stats : option scaler_stats }.

Definition new_scaler (with_mean : bool) : StandardScaler :=
  {| with_mean := with_mean; stats := None |}.

(** The scale of one feature: the square root of its variance, or one
    when the feature counts as constant over the [n_samples] rows. *)
Definition feature_scale (n_samples : nat) (c : vec) : R :=
  handle_zeros_in_scale_mask (sqrt (var c))
    (is_constant_feature (var c) (mean c) n_samples).

Definition fit_stats (X : matrix) : scaler_stats :=
  let cols := map (fun j => column j X) (seq 0 (n_features X)) in
  {| n_features_in_ := n_features X;
     n_samples_seen_ := length X;
     mean_ := map mean cols;
     var_ := map var cols;
     scale_ := map (feature_scale (length X)) cols |}.

(** [scaler.fit(X)]. *)
Definition scaler_fit (self : StandardScaler) (X : matrix)
  : outcome StandardScaler :=
  X <- check_array X ;;
  Ok {| with_mean := with_mean self; stats := Some (fit_stats X) |}.

Definition transform_row (with_mean : bool) (st : scaler_stats) (r : vec) : vec :=
  let r := if with_mean then zip_with Rminus r (mean_ st) else r in
  zip_with Rdiv r (scale_ st).

(** [scaler.transform(X)]: only the fitted attributes are read. *)
Definition scaler_transform (self : StandardScaler) (X : matrix)
  : outcome matrix :=
  match stats self with
  | None => Raise NotFittedError
  | Some st =>
      X <- check_array X ;;
      if (n_features X =? n_features_in_ st)%nat
      then Ok (map (transform_row (with_mean self) st) X)
      else Raise ValueError
  end.

(** [scaler.fit_transform(X)] is [scaler.fit(X).transform(X)]; the fitted
    scaler is returned with the array because [fit] changes the object. *)
Definition scaler_fit_transform (self : StandardScaler) (X : matrix)
  : outcome (StandardScaler * matrix) :=
  self' <- scaler_fit self X ;;
  X' <- scaler_transform self' X ;;
  Ok (self', X').

(** The arrays on which the sums and squares the scaler forms stay among
    the normal doubles, far from overflow and from underflow: fewer than
    [2^63] rows, the index range of NumPy, of entries that are zero or of
    a magnitude between [2^-100] and [2^100]. *)
Definition in_range (X : matrix) : Prop :=
  INR (length X) < 2 ^ 63 /\
  Forall (Forall (fun x => x = 0 \/ / 2 ^ 100 <= Rabs x <= 2 ^ 100)) X.


(** The population standard deviation of a sample, in the words of the
    specification: the square root of the mean squared deviation from the
    mean, with divisor N. *)
Definition population_std (v : vec) : R :=
  sqrt (sum (map (fun x => (x - mean v) * (x - mean v)) v) / INR (length v)).

(** The sample standard deviation (divisor N - 1), for comparison. *)
Definition sample_std (v : vec) : R :=
  sqrt (sum (map (fun x => (x - mean v) * (x - mean v)) v) / (INR (length v) - 1)).

End Preprocessing.

(** ** The same two operations on doubles that can overflow *)

(** [Preprocessing] computes in the real numbers.  This module follows
    the arithmetic of NumPy on [float64] arrays far enough to see
    infinities and NaN: a result is exact while its magnitude stays below
    the overflow threshold and is an infinity beyond it.  Rounding within
    the range of the doubles is not followed, and the two signed zeros are
    one zero. *)
Module Float64.
Import Py Preprocessing.
Open Scope R_scope.

Inductive float : Type :=
  | Finite (r : R)
  | PInf
  | NInf
  | NaN.

(** Round-to-nearest yields an infinity from [2^1024 - 2^970] on, half a
    unit in the last place above the largest double. *)
Definition overflow_threshold : R := 2 ^ 1024 - 2 ^ 970.

Definition round (r : R) : float :=
  if Rle_dec overflow_threshold r then PInf
  else if Rle_dec r (- overflow_threshold) then NInf
  else Finite r.


Definition fopp (a : float) : float :=
  match a with
  | Finite x => Finite (- x)
  | PInf => NInf
  | NInf => PInf
  | NaN => NaN
  end.

Definition fadd (a b : float) : float :=
  match a, b with
  | Finite x, Finite y => round (x + y)
  | NaN, _ => NaN
  | _, NaN => NaN
  | PInf, NInf => NaN
  | NInf, PInf => NaN
  | PInf, _ => PInf
  | _, PInf => PInf
  | NInf, _ => NInf
  | _, NInf => NInf
  end.

Definition fsub (a b : float) : float := fadd a (fopp b).

(** An infinity times, or divided by, a number of the given sign. *)
Definition signed_inf (positive : bool) (x : R) : float :=
  if Rlt_dec 0 x then (if positive then PInf else NInf)
  else if Rlt_dec x 0 then (if positive then NInf else PInf)
  else NaN.

Definition fmul (a b : float) : float :=
  match a, b with
  | Finite x, Finite y => round (x * y)
  | NaN, _ => NaN
  | _, NaN => NaN
  | Finite x, PInf => signed_inf true x
  | PInf, Finite x => signed_inf true x
  | Finite x, NInf => signed_inf false x
  | NInf, Finite x => signed_inf false x
  | PInf, PInf => PInf
  | NInf, NInf => PInf
  | PInf, NInf => NInf
  | NInf, PInf => NInf
  end.

Definition fdiv (a b : float) : float :=
  match a, b with
  | Finite x, Finite y =>
      if Req_dec_T y 0 then signed_inf true x else round (x / y)
  | NaN, _ => NaN
  | _, NaN => NaN
  | Finite _, _ => Finite 0
  | PInf, Finite y => if Rlt_dec y 0 then NInf else PInf
  | NInf, Finite y => if Rlt_dec y 0 then PInf else NInf
  | _, _ => NaN
  end.

Definition fsqrt (a : float) : float :=
  match a with
  | Finite x => if Rlt_dec x 0 then NaN else Finite (sqrt x)
  | PInf => PInf
  | NInf => NaN
  | NaN => NaN
  end.

Definition fabs (a : float) : float :=
  match a with
  | Finite x => Finite (Rabs x)
  | PInf => PInf
  | NInf => PInf
  | NaN => NaN
  end.

(** [a <= b] and [a < b]: false as soon as one side is NaN. *)
Definition fle (a b : float) : bool :=
  match a, b with
  | Finite x, Finite y => if Rle_dec x y then true else false
  | NaN, _ => false
  | _, NaN => false
  | NInf, _ => true
  | _, PInf => true
  | _, _ => false
  end.

Definition flt (a b : float) : bool :=
  match a, b with
  | Finite x, Finite y => if Rlt_dec x y then true else false
  | NaN, _ => false
  | _, NaN => false
  | PInf, _ => false
  | _, NInf => false
  | _, _ => true
  end.

(** [np.sum] along an axis, the entries added one after the other, as
    NumPy adds down a column.  (Along a row NumPy adds in blocks; the rows
    summed here hold numbers that are not negative, and of such numbers
    the sum is, without rounding, the rounded total in any order.) *)
Definition fsum (l : list float) : float :=
  match l with
  | [] => Finite 0
  | x :: l' => fold_left fadd l' x
  end.

(** An array of doubles that holds the given numbers. *)
Definition lift (X : matrix) : list (list float) := map (map Finite) X.

(** [_handle_zeros_in_scale(norms)] without a mask: a norm below
    [10 * eps] is replaced by one. *)
Definition handle_zeros_in_scale (scale : float) : float :=
  if flt scale (Finite (10 * eps)) then Finite 1 else scale.

(** One row of [normalize(X, norm='l1')]: [np.abs(X).sum(axis=1)], the
    replacement of small norms, and the division. *)
Definition normalize_row (v : vec) : list float :=
  let norms := handle_zeros_in_scale (fsum (map (fun x => fabs (Finite x)) v)) in
  map (fun x => fdiv (Finite x) norms) v.

Definition normalize (X : matrix) : outcome (list (list float)) :=
  X <- check_array X ;;
  Ok (map normalize_row X).

(** [_incremental_mean_and_var] on one feature of a scaler that has seen
    no sample yet ([last_mean = 0.0], [last_sample_count = 0]); with no
    earlier samples the updated variance is the new one. *)
Definition incremental_mean_and_var (c : vec) : float * float :=
  let new_sample_count := Finite (INR (length c)) in
  let X := map Finite c in
  let new_sum := fsum X in
  let updated_mean := fdiv (fadd (Finite 0) new_sum) new_sample_count in
  let T := fdiv new_sum new_sample_count in
  let temp := map (fun x => fsub x T) X in
  let correction := fsum temp in
  let new_unnormalized_variance :=
    fsub (fsum (map (fun t => fmul t t) temp))
         (fdiv (fmul correction correction) new_sample_count) in
  (updated_mean, fdiv new_unnormalized_variance new_sample_count).

(** [_is_constant_feature(var, mean, n_samples)]. *)
Definition is_constant_feature (var mean : float) (n_samples : nat) : bool :=
  let n := Finite (INR n_samples) in
  let upper_bound :=
    fadd (fmul (fmul n (Finite eps)) var)
         (let t := fmul (fmul n mean) (Finite eps) in fmul t t) in
  fle var upper_bound.

(** The mean and the scale the scaler fits for one feature. *)
Definition fit_feature (c : vec) : float * float :=
  let (mean, var) := incremental_mean_and_var c in
  (mean,
   if is_constant_feature var mean (length c) then Finite 1 else fsqrt var).

(** [StandardScaler(with_mean=...).fit_transform(X)] on a new scaler. *)
Definition fit_transform (with_mean : bool) (X : matrix)
  : outcome (list (list float)) :=
  X <- check_array X ;;
  let fitted := map (fun j => fit_feature (column j X)) (seq 0 (n_features X)) in
  Ok (map (fun r =>
             zip_with (fun x st =>
                         fdiv (if with_mean then fsub (Finite x) (fst st)
                               else Finite x) (snd st))
                      r fitted)
          X).

End Float64.

(** ** From documents to relative frequencies *)

Module Pipeline.
Import Py Preprocessing.

(** [normalize(vectorizer.transform(docs).toarray().astype(float), norm='l1')],
    the two steps every notebook applies to its documents. *)
Definition frequencies (vocabulary raw_documents : list string)
  : outcome matrix :=
  X <- Vectorizer.transform vocabulary raw_documents ;;
  normalize (astype_float X).

End Pipeline.

(** ** The classifier: [class Delta] *)

Module DeltaClassifier.
Import Py Preprocessing.
Open Scope R_scope.

(** A distance metric as [scidist.cdist] resolves it: a function of two
    rows. *)
Abbreviation metric := (list R -> list R -> R).

(** ['cityblock'], the default. *)
Definition cityblock : metric :=
  fun u v => sum (zip_with (fun a b => Rabs (a - b)) u v).

(** ['chebyshev'], another of SciPy's metrics: the largest coordinate
    difference. *)
Definition chebyshev : metric :=
  fun u v => fold_right Rmax 0 (zip_with (fun a b => Rabs (a - b)) u v).

(** [scidist.cdist(XA, XB, metric=metric)]. *)
Definition cdist (XA XB : matrix) (m : metric) : outcome matrix :=
  if (n_features XA =? n_features XB)%nat
  then Ok (map (fun a => map (fun b => m a b) XB) XA)
  else Raise ValueError.

(** The scan of [np.argmin] over one row: a later value replaces the best
    one only when it is strictly smaller, so of several occurrences of the
    minimum the first is returned. *)
Fixpoint argmin_from (best_i : nat) (best : R) (i : nat) (l : list R) : nat :=
  match l with
  | [] => best_i
  | x :: l' =>
      if Rlt_dec x best then argmin_from i x (S i) l'
      else argmin_from best_i best (S i) l'
  end.

Definition argmin (l : list R) : outcome nat :=
  match l with
  | [] => Raise ValueError
  | x :: l' => Ok (argmin_from 0 x 1 l')
  end.

Fixpoint mapM {A B : Type} (f : A -> outcome B) (l : list A) : outcome (list B) :=
  match l with
  | [] => Ok []
  | x :: l' => y <- f x ;; ys <- mapM f l' ;; Ok (y :: ys)
  end.

(** [np.argmin(dists, axis=1)]. *)
Definition argmin_axis1 (dists : matrix) : outcome (list nat) := mapM argmin dists.

(** [a[idx]] for an index array. *)
Definition take {A : Type} (a : list A) (idx : list nat) : outcome (list A) :=
  mapM (getitem a) idx.

(** The instance attributes; [None] is an attribute not yet set. *)
Record Delta : Type :=
  { train_y : option (list string);
    scaler : option StandardScaler;
    train_X : option matrix }.

(** [Delta()]. *)
Definition new_Delta : Delta :=
  {| train_y := None; scaler := None; train_X := None |}.

Definition getattr {A : Type} (a : option A) : outcome A :=
  match a with
  | Some x => Ok x
  | None => Raise AttributeError
  end.

(** [Delta.fit(self, X, y)]: the object after the call, and whether the
    call returned.  The three assignments happen in the order of the
    source, so a call that raises leaves the first two behind. *)
Definition fit (self : Delta) (X : matrix) (y : list string)
  : Delta * outcome unit :=
  let self1 :=
    {| train_y := Some y; scaler := scaler self; train_X := train_X self |} in
  let self2 :=
    {| train_y := train_y self1; scaler := Some (new_scaler false);
       train_X := train_X self1 |} in
  match scaler_fit_transform (new_scaler false) X with
  | Ok (sc, X') =>
      ({| train_y := train_y self2; scaler := Some sc; train_X := Some X' |},
       Ok tt)
  | Raise e => (self2, Raise e)
  | OutOfFuel => (self2, OutOfFuel)
  end.

(** [Delta.predict(self, X, metric)]: the object after the call and the
    predicted labels. *)
Definition predict (self : Delta) (X : matrix) (m : metric)
  : Delta * outcome (list string) :=
  (self,
   sc <- getattr (scaler self) ;;
   X <- scaler_transform sc X ;;
   tX <- getattr (train_X self) ;;
   dists <- cdist X tX m ;;
   ty <- getattr (train_y self) ;;
   idx <- argmin_axis1 dists ;;
   take ty idx).



End DeltaClassifier.

(** ** The stylometric tests notebook: corpus lengths, Jaccard, chi-squared *)

Module Stylometry.

(** The exceptions these functions can raise. *)
Inductive error : Type :=
  | KeyError
  | ZeroDivisionError
  | ValueError.

Inductive result (A : Type) : Type :=
  | Done (a : A)
  | Fail (e : error).

Arguments Done {A} a.
Arguments Fail {A} e.

Definition rbind {A B : Type} (m : result A) (k : A -> result B) : result B :=
  match m with
  | Done a => k a
  | Fail e => Fail e
  end.

Notation "x <~ m ;; k" := (rbind m (fun x => k))
  (at level 100, m at next level, right associativity).

Fixpoint mapR {A B : Type} (f : A -> result B) (l : list A) : result (list B) :=
  match l with
  | [] => Done []
  | x :: l' => y <~ f x ;; ys <~ mapR f l' ;; Done (y :: ys)
  end.

(** [words_by_author]: a dict from author to word list, in insertion
    order. *)
Abbreviation dict := (list (string * list string)).

(** [d[k]]. *)
Fixpoint dict_get (d : dict) (k : string) : result (list string) :=
  match d with
  | [] => Fail KeyError
  | (k', v) :: d' => if String.eqb k' k then Done v else dict_get d' k
  end.

(** The keys, as [for author in d] visits them. *)
Definition keys (d : dict) : list string := map fst d.

(** [min(l)] on a list of ints. *)
Definition py_min (l : list nat) : result nat :=
  match l with
  | [] => Fail ValueError
  | x :: l' => Done (fold_left Nat.min l' x)
  end.

(** [find_shortest_corpus(words_by_author)]: the value it returns (the
    printing is left out). *)
Definition find_shortest_corpus (words_by_author : dict) : result nat :=
  word_count <~ mapR (fun author =>
                        ws <~ dict_get words_by_author author ;;
                        Done (length ws))
                     (keys words_by_author) ;;
  py_min word_count.

(** [x / d] on floats: Python raises when the divisor is zero. *)
Definition divide (x d : R) : result R :=
  if Req_dec_T d 0 then Fail ZeroDivisionError else Done (x / d)%R.

(** [max(d, key=d.get)] and [min(d, key=d.get)] on a dict of floats: the
    first key whose value is largest (smallest). *)
Fixpoint best_from (better : R -> R -> Prop)
    (better_dec : forall a b, {better a b} + {~ better a b})
    (best : string * R) (l : list (string * R)) : string * R :=
  match l with
  | [] => best
  | x :: l' =>
      if better_dec (snd x) (snd best)
      then best_from better better_dec x l'
      else best_from better better_dec best l'
  end.

Definition py_max_key (d : list (string * R)) : result string :=
  match d with
  | [] => Fail ValueError
  | x :: l => Done (fst (best_from Rgt Rgt_dec x l))
  end.

Definition py_min_key (d : list (string * R)) : result string :=
  match d with
  | [] => Fail ValueError
  | x :: l => Done (fst (best_from Rlt Rlt_dec x l))
  end.

Definition known_authors (d : dict) : list string :=
  List.filter (fun author => negb (String.eqb author "unknown")) (keys d).

(** The Jaccard similarity of two word sets as the loop body computes it. *)
Definition jaccard_sim (unique_words_author unique_words_unknown : gset string)
  : result R :=
  let shared_words := unique_words_author ∩ unique_words_unknown in
  divide (IZR (Z.of_nat (size shared_words)))
         (IZR (Z.of_nat (size unique_words_author)
               + Z.of_nat (size unique_words_unknown)
               - Z.of_nat (size shared_words))).

(** [jaccard_test(words_by_author, len_shortest_corpus)]: what it prints,
    the similarity of every known author and the most likely one. *)
Definition jaccard_test (words_by_author : dict) (len_shortest_corpus : Z)
  : result (list (string * R) * string) :=
  unknown <~ dict_get words_by_author "unknown" ;;
  let unique_words_unknown : gset string :=
    list_to_set (Py.slice unknown 0 len_shortest_corpus) in
  jaccard_by_author <~
    mapR (fun author =>
            ws <~ dict_get words_by_author author ;;
            let unique_words_author : gset string :=
              list_to_set (Py.slice ws 0 len_shortest_corpus) in
            sim <~ jaccard_sim unique_words_author unique_words_unknown ;;
            Done (author, sim))
         (known_authors words_by_author) ;;
  most_likely_author <~ py_max_key jaccard_by_author ;;
  Done (jaccard_by_author, most_likely_author).

(** [nltk.FreqDist(words)]: a counter; a new word is entered behind the
    words seen before. *)
Fixpoint fd_add (w : string) (fd : list (string * nat)) : list (string * nat) :=
  match fd with
  | [] => [(w, 1)]
  | (w', c) :: fd' =>
      if String.eqb w' w then (w', S c) :: fd' else (w', c) :: fd_add w fd'
  end.

Definition freq_dist (words : list string) : list (string * nat) :=
  fold_left (fun fd w => fd_add w fd) words [].

(** [most_common(n)]: the entries by falling count, entries of equal count
    in the order they were entered, cut after [n]. *)
Fixpoint insert_desc (x : string * nat) (l : list (string * nat))
  : list (string * nat) :=
  match l with
  | [] => [x]
  | y :: l' => if snd y <? snd x then x :: y :: l' else y :: insert_desc x l'
  end.

Definition most_common (n : nat) (fd : list (string * nat))
  : list (string * nat) :=
  firstn n (fold_left (fun acc x => insert_desc x acc) fd []).

(** The [for word, combined_count in most_common_words] loop. *)
Fixpoint chi_loop (author_words : list string) (author_proportion : R)
    (most_common_words : list (string * nat)) (chisquared : R) : result R :=
  match most_common_words with
  | [] => Done chisquared
  | (word, combined_count) :: rest =>
      let observed_count_author :=
        INR (count_occ string_dec author_words word) in
      let expected_count_author := (INR combined_count * author_proportion)%R in
      q <~ divide ((observed_count_author - expected_count_author)
                   * (observed_count_author - expected_count_author))%R
                  expected_count_author ;;
      chi_loop author_words author_proportion rest (chisquared + q)%R
  end.

(** The body of the loop of [vocab_test] for one author: the chi-squared
    value, or nothing when there is no word to compare. *)
Definition chi_squared (author_words unknown_words : list string)
  : result (option R) :=
  let combined_corpus := author_words ++ unknown_words in
  author_proportion <~ divide (INR (length author_words))
                              (INR (length combined_corpus)) ;;
  let most_common_words := most_common 1000 (freq_dist combined_corpus) in
  match most_common_words with
  | [] => Done None
  | _ =>
      chisquared <~ chi_loop author_words author_proportion
                      most_common_words 0%R ;;
      Done (Some chisquared)
  end.

Fixpoint somes {A : Type} (l : list (string * option A)) : list (string * A) :=
  match l with
  | [] => []
  | (k, Some v) :: l' => (k, v) :: somes l'
  | (_, None) :: l' => somes l'
  end.

(** [vocab_test(words_by_author)]: what it prints, the chi-squared value of
    every known author and the most likely one. *)
Definition vocab_test (words_by_author : dict)
  : result (list (string * R) * string) :=
  per_author <~
    mapR (fun author =>
            author_words <~ dict_get words_by_author author ;;
            unknown_words <~ dict_get words_by_author "unknown" ;;
            chisquared <~ chi_squared author_words unknown_words ;;
            Done (author, chisquared))
         (known_authors words_by_author) ;;
  let chisquared_by_author := somes per_author in
  most_likely_author <~ py_min_key chisquared_by_author ;;
  Done (chisquared_by_author, most_likely_author).

End Stylometry.

(* ===================================================================== *)
(** * Part II: the properties *)
(* ===================================================================== *)

(** ** Segmenter *)

Module SegmenterProofs.
Import Py Segmenter.

Lemma all_chars_append p s1 s2 :
  all_chars p (s1 ++ s2)%string = all_chars p s1 && all_chars p s2.
Proof.
  induction s1 as [|c s1 IH]; simpl; [reflexivity|].
  rewrite IH. now rewrite andb_assoc.
Qed.

Lemma all_chars_replace_from p old new s : forall skip,
  all_chars p new = true -> all_chars p s = true ->
  all_chars p (replace_from skip old new s) = true.
Proof.
  induction s as [|c s IH]; intros skip Hnew Hs; simpl; [reflexivity|].
  simpl in Hs. apply andb_prop in Hs as [Hc Hs].
  destruct skip as [|k]; [|now apply IH].
  match goal with |- context [if ?b then _ else _] => destruct b end.
  - rewrite all_chars_append, Hnew. simpl. now apply IH.
  - simpl. rewrite Hc. simpl. now apply IH.
Qed.

Lemma split_on_absent sep s :
  all_chars (fun d => negb (Ascii.eqb d sep)) s = true -> split_on sep s = [s].
Proof.
  induction s as [|c s IH]; simpl; intros H; [reflexivity|].
  apply andb_prop in H as [Hc Hs].
  apply negb_true_iff in Hc. rewrite Hc, (IH Hs). reflexivity.
Qed.

(** Without an underscore in the file name, [split('_')] yields a single
    piece and the index 1 is out of range. *)
Lemma title_index_error filename :
  contains_char "_"%char filename = false ->
  getitem (split_on "_"%char (replace ".txt" "" filename)) 1 = Raise IndexError.
Proof.
  unfold contains_char. intros H. apply negb_false_iff in H.
  rewrite split_on_absent; [reflexivity|].
  unfold replace. now apply all_chars_replace_from.
Qed.

Lemma split_on_cons sep s : exists t ts, split_on sep s = t :: ts.
Proof.
  destruct s as [|c s]; simpl; [eauto|].
  destruct (Ascii.eqb c sep); [eauto|].
  destruct (split_on sep s); eauto.
Qed.

Lemma split_on_present sep s :
  all_chars (fun d => negb (Ascii.eqb d sep)) s = false ->
  exists t u ts, split_on sep s = t :: u :: ts.
Proof.
  induction s as [|c s IH]; simpl; intros H; [discriminate|].
  destruct (Ascii.eqb c sep) eqn:Hc; simpl in H.
  - destruct (split_on_cons sep s) as (t & ts & ->). eauto.
  - destruct (IH H) as (t & u & ts & ->). eauto.
Qed.

Lemma all_chars_prefix p old : forall s,
  String.prefix old s = true -> all_chars p old = true ->
  all_chars p (String.substring 0 (String.length old) s) = true.
Proof.
  induction old as [|o old IH]; intros s Hp Hold; simpl.
  - now destruct s.
  - destruct s as [|d s]; [discriminate|]. simpl in Hp.
    destruct (ascii_dec o d) as [->|]; [|discriminate].
    simpl in Hold. apply andb_prop in Hold as [Hd Hold].
    simpl. rewrite Hd. simpl. now apply IH.
Qed.

(** Deleting the occurrences of a non-empty [old] whose characters all
    satisfy [p] keeps a character that does not. *)
Lemma replace_from_keeps p o old s : forall skip,
  all_chars p (String o old) = true ->
  all_chars p (String.substring 0 skip s) = true ->
  all_chars p s = false ->
  all_chars p (replace_from skip (String o old) "" s) = false.
Proof.
  induction s as [|c s IH]; intros skip Hold Hskip Hs; [discriminate|].
  destruct skip as [|k].
  - cbn [replace_from].
    destruct (String.prefix (String o old) (String c s)) eqn:Hp.
    + cbn [String.length Nat.sub append]. rewrite Nat.sub_0_r.
      cbn [String.prefix] in Hp.
      destruct (ascii_dec o c) as [->|]; [|discriminate].
      pose proof Hold as Hold'. cbn [all_chars] in Hold'.
      apply andb_prop in Hold' as [Hc Hold'].
      cbn [all_chars] in Hs. rewrite Hc in Hs. cbn [andb] in Hs.
      apply IH; auto. now apply all_chars_prefix.
    + cbn [all_chars] in *. destruct (p c); cbn [andb] in *; [|reflexivity].
      apply IH; auto. now destruct s.
  - cbn [replace_from]. cbn [String.substring all_chars] in Hskip.
    apply andb_prop in Hskip as [Hc Hskip].
    cbn [all_chars] in Hs. rewrite Hc in Hs. cbn [andb] in Hs.
    now apply IH.
Qed.

(** With an underscore in the file name the title is the second piece. *)
Lemma title_found filename :
  contains_char "_"%char filename = true ->
  exists title,
    getitem (split_on "_"%char (replace ".txt" "" filename)) 1 = Ok title.
Proof.
  unfold contains_char. intros H. apply negb_true_iff in H.
  destruct (split_on_present "_"%char (replace ".txt" "" filename))
    as (t & u & ts & E).
  - unfold replace. apply replace_from_keeps; auto. now destruct filename.
  - rewrite E. now exists u.
Qed.

Lemma endswith_nonempty s suffix :
  suffix <> EmptyString -> endswith s suffix = true -> s <> EmptyString.
Proof.
  intros Hs H ->. unfold endswith in H. destruct suffix; [congruence|].
  discriminate.
Qed.

(** The author part of a non-empty file name has a first character. *)
Lemma author_first filename :
  filename <> EmptyString ->
  exists a, str_first (fst (splitext filename)) = Ok a.
Proof.
  intros Hne. unfold splitext.
  destruct (rfind "."%char filename) as [i|].
  - destruct (all_chars _ (String.substring 0 i filename)) eqn:Hd.
    + destruct filename; [congruence|]. simpl. eauto.
    + simpl. destruct (String.substring 0 i filename) eqn:E.
      * discriminate.
      * simpl. eauto.
  - destruct filename; [congruence|]. simpl. eauto.
Qed.

Lemma iterations_step n L e :
  (0 < L)%Z -> (e < n)%Z -> iterations n L e = (1 + iterations n L (e + L))%Z.
Proof.
  intros HL He. unfold iterations.
  destruct (Z.ltb_spec e n); [|lia].
  destruct (Z.ltb_spec (e + L) n).
  - replace (n - 1 - e)%Z with ((n - 1 - (e + L)) + 1 * L)%Z by lia.
    rewrite Z.div_add by lia. lia.
  - rewrite Z.div_small by lia. lia.
Qed.

Lemma iterations_nonneg n L e : (0 < L)%Z -> (0 <= iterations n L e)%Z.
Proof.
  intros HL. unfold iterations. destruct (Z.ltb_spec e n); [|lia].
  assert (0 <= (n - 1 - e) / L)%Z by (apply Z.div_pos; lia). lia.
Qed.

(** From [end_idx = max_length] the body runs [(n - 1) / max_length] times. *)
Lemma iterations_start n L :
  (0 < L)%Z -> (0 <= n)%Z ->
  Z.to_nat (iterations n L L) = Z.to_nat ((n - 1) / L).
Proof.
  intros HL Hn. unfold iterations. destruct (Z.ltb_spec L n).
  - replace (n - 1)%Z with ((n - 1 - L) + 1 * L)%Z at 2 by lia.
    rewrite Z.div_add by lia. reflexivity.
  - destruct (Z.eq_dec n 0%Z) as [->|].
    + replace ((0 - 1) / L)%Z with (-1)%Z; [reflexivity|].
      apply Z.div_unique with (r := (L - 1)%Z); lia.
    + rewrite Z.div_small by lia. reflexivity.
Qed.

Lemma iterations_bound n L :
  (0 < L)%Z -> (0 <= n)%Z -> (iterations n L L <= n)%Z.
Proof.
  intros HL Hn. unfold iterations. destruct (Z.ltb_spec L n); [|lia].
  assert ((n - 1 - L) / L <= n - 1 - L)%Z; [|lia].
  apply Z.div_le_upper_bound; nia.
Qed.

Section Loop.

Variables (filename author : string) (lemmas : list string) (max_length : Z).
Hypothesis max_length_pos : (0 < max_length)%Z.

Let n : Z := Z.of_nat (length lemmas).

(** With a positive chunk length the loop ends: fuel for [iterations]
    rounds is never used up. *)
Lemma while_slices_terminates : forall fuel acc s e c,
  (iterations n max_length e <= Z.of_nat fuel)%Z ->
  while_slices fuel filename author lemmas max_length acc s e c <> OutOfFuel.
Proof.
  induction fuel as [|fuel IH]; intros acc s e c Hfuel.
  - cbn [while_slices]. fold n. unfold iterations in Hfuel.
    destruct (Z.ltb_spec e n); [|discriminate].
    assert (0 <= (n - 1 - e) / max_length)%Z by (apply Z.div_pos; lia). lia.
  - cbn [while_slices]. fold n. destruct (Z.ltb_spec e n); [|discriminate].
    unfold str_first, getitem.
    destruct author; cbn [bind]; [discriminate|].
    destruct (_ !! 1%nat); cbn [bind]; [|discriminate].
    apply IH. rewrite iterations_step in Hfuel by lia. lia.
Qed.

(** The loop raises nothing but an [IndexError]. *)
Lemma while_slices_raises : forall fuel acc s e c x,
  while_slices fuel filename author lemmas max_length acc s e c = Raise x ->
  x = IndexError.
Proof.
  induction fuel as [|fuel IH]; intros acc s e c x; cbn [while_slices].
  - destruct (_ <? _)%Z; discriminate.
  - destruct (_ <? _)%Z; [|discriminate].
    unfold str_first, getitem.
    destruct author; cbn [bind]; [congruence|].
    destruct (_ !! 1%nat); cbn [bind]; [|congruence].
    apply IH.
Qed.

Variables (a title : string).
Hypothesis author_ok : str_first author = Ok a.
Hypothesis title_ok :
  getitem (split_on "_"%char (replace ".txt" "" filename)) 1 = Ok title.

(** For a well-named file the loop returns, and it has appended one
    document per round. *)
Lemma while_slices_count : forall fuel acc s e c,
  (iterations n max_length e <= Z.of_nat fuel)%Z ->
  exists acc',
    while_slices fuel filename author lemmas max_length acc s e c = Ok acc' /\
    length (documents acc') =
      (length (documents acc) + Z.to_nat (iterations n max_length e))%nat.
Proof.
  induction fuel as [|fuel IH]; intros acc s e c Hfuel.
  - pose proof (iterations_nonneg n max_length e max_length_pos) as H0.
    assert (E : iterations n max_length e = 0%Z) by lia.
    cbn [while_slices]. fold n. unfold iterations in E.
    destruct (Z.ltb_spec e n).
    + assert (0 <= (n - 1 - e) / max_length)%Z by (apply Z.div_pos; lia). lia.
    + exists acc. split; [reflexivity|].
      unfold iterations. destruct (Z.ltb_spec e n); lia.
  - cbn [while_slices]. fold n. destruct (Z.ltb_spec e n) as [He|He].
    + rewrite author_ok, title_ok. cbn [bind].
      rewrite iterations_step in Hfuel |- * by lia.
      pose proof (iterations_nonneg n max_length (e + max_length)
                    max_length_pos) as H0.
      edestruct IH as (acc' & -> & Hlen); [|eexists; split; [reflexivity|]].
      * lia.
      * rewrite Hlen. cbn [documents]. rewrite length_app. simpl. lia.
    + exists acc. split; [reflexivity|].
      unfold iterations. destruct (Z.ltb_spec e n); lia.
Qed.

End Loop.

Lemma load_file_skipped fuel f L acc :
  endswith (name f) ".txt" = false -> load_file fuel f L acc = Ok acc.
Proof. unfold load_file. now intros ->. Qed.

Lemma load_file_terminates fuel f L acc :
  (0 < L)%Z -> (token_count (contents f) <= fuel)%nat ->
  load_file fuel f L acc <> OutOfFuel.
Proof.
  intros HL Hfuel. unfold load_file.
  destruct (endswith (name f) ".txt"); cbn [negb]; [|discriminate].
  apply while_slices_terminates; [assumption|].
  pose proof (iterations_bound (Z.of_nat (token_count (contents f))) L HL).
  unfold token_count in *. lia.
Qed.

Lemma load_file_raises fuel f L acc x :
  load_file fuel f L acc = Raise x -> x = IndexError.
Proof.
  unfold load_file. destruct (endswith (name f) ".txt"); cbn [negb];
    [|discriminate].
  apply while_slices_raises.
Qed.

(** A well-named file contributes [(n - 1) / max_length] documents, [n]
    being its token count. *)
Lemma load_file_count fuel f L acc :
  well_named (name f) = true -> (0 < L)%Z ->
  (token_count (contents f) <= fuel)%nat ->
  exists acc',
    load_file fuel f L acc = Ok acc' /\
    length (documents acc') =
      (length (documents acc)
       + Z.to_nat ((Z.of_nat (token_count (contents f)) - 1) / L))%nat.
Proof.
  intros Hname HL Hfuel. unfold well_named in Hname.
  apply andb_prop in Hname as [Hext Hus].
  destruct (author_first (name f)) as [a Ha].
  { now apply (endswith_nonempty _ ".txt"). }
  destruct (title_found _ Hus) as [title Ht].
  unfold load_file. rewrite Hext. cbn [negb].
  pose proof (iterations_bound (Z.of_nat (token_count (contents f))) L HL).
  edestruct (while_slices_count (name f) (fst (splitext (name f)))
               (split (lower (contents f))) L HL a title Ha Ht fuel acc 0%Z L 1%Z)
    as (acc' & E & Hlen).
  { unfold token_count in *. lia. }
  exists acc'. split; [exact E|].
  rewrite Hlen. unfold token_count.
  rewrite iterations_start by lia. reflexivity.
Qed.

(** A file whose name lacks the underscore and whose text is longer than
    the chunk length fails in the first round of its loop. *)
Lemma load_file_bad fuel f L acc :
  endswith (name f) ".txt" = true ->
  contains_char "_"%char (name f) = false ->
  (L < Z.of_nat (token_count (contents f)))%Z ->
  load_file fuel f L acc =
    match fuel with O => OutOfFuel | S _ => Raise IndexError end.
Proof.
  intros Hext Hus Hlen. unfold load_file. rewrite Hext. cbn [negb].
  destruct (author_first (name f)) as [a Ha].
  { now apply (endswith_nonempty _ ".txt"). }
  unfold token_count in Hlen.
  destruct fuel as [|fuel]; cbn [while_slices];
    (destruct (Z.ltb_spec L (Z.of_nat (length (split (lower (contents f))))));
     [|lia]); [reflexivity|].
  rewrite Ha. cbn [bind]. rewrite (title_index_error _ Hus). reflexivity.
Qed.

Lemma scan_never_ok fuel L bad : forall directory acc,
  In bad directory ->
  endswith (name bad) ".txt" = true ->
  contains_char "_"%char (name bad) = false ->
  (L < Z.of_nat (token_count (contents bad)))%Z ->
  is_ok (scan fuel directory L acc) = false.
Proof.
  induction directory as [|f rest IH]; intros acc Hin Hext Hus Hlen;
    [destruct Hin|].
  cbn [scan]. destruct Hin as [->|Hin].
  - rewrite (load_file_bad fuel bad L acc Hext Hus Hlen). now destruct fuel.
  - destruct (load_file fuel f L acc); cbn [bind]; auto.
Qed.

Lemma scan_index_error fuel L bad : forall directory acc,
  In bad directory ->
  endswith (name bad) ".txt" = true ->
  contains_char "_"%char (name bad) = false ->
  (L < Z.of_nat (token_count (contents bad)))%Z ->
  (0 < L)%Z ->
  (forall f, In f directory -> (token_count (contents f) <= fuel)%nat) ->
  scan fuel directory L acc = Raise IndexError.
Proof.
  induction directory as [|f rest IH]; intros acc Hin Hext Hus Hlen HL Hfuel;
    [destruct Hin|].
  cbn [scan]. destruct Hin as [->|Hin].
  - rewrite (load_file_bad fuel bad L acc Hext Hus Hlen).
    assert (token_count (contents bad) <= fuel)%nat by (apply Hfuel; now left).
    destruct fuel; [lia|reflexivity].
  - destruct (load_file fuel f L acc) eqn:E; cbn [bind].
    + apply IH; auto. intros g Hg. apply Hfuel. now right.
    + now rewrite (load_file_raises _ _ _ _ _ E).
    + exfalso. revert E. apply load_file_terminates; [assumption|].
      apply Hfuel. now left.
Qed.

(** Segmenting one well-named source with a positive chunk length returns,
    with [(n - 1) / L] documents for [n] tokens. *)
Lemma load_directory_count fuel f L :
  well_named (name f) = true -> (0 < L)%Z ->
  (token_count (contents f) <= fuel)%nat ->
  exists c,
    load_directory fuel [f] L = Ok c /\
    length (documents c) =
      Z.to_nat ((Z.of_nat (token_count (contents f)) - 1) / L).
Proof.
  intros Hname HL Hfuel. unfold load_directory. cbn [scan].
  destruct (load_file_count fuel f L empty_corpus Hname HL Hfuel)
    as (c & -> & Hlen).
  exists c. split; [reflexivity|]. rewrite Hlen. reflexivity.
Qed.

(** Where the chunk length does not divide the token count, that is
    [n / L] documents. *)
Lemma load_directory_count_inexact fuel f L :
  well_named (name f) = true -> (0 < L)%Z ->
  (token_count (contents f) <= fuel)%nat ->
  (Z.of_nat (token_count (contents f)) mod L <> 0)%Z ->
  exists c,
    load_directory fuel [f] L = Ok c /\
    Z.of_nat (length (documents c)) = (Z.of_nat (token_count (contents f)) / L)%Z.
Proof.
  intros Hname HL Hfuel Hmod.
  destruct (load_directory_count fuel f L Hname HL Hfuel) as (c & E & Hlen).
  exists c. split; [exact E|]. rewrite Hlen.
  set (n := Z.of_nat (token_count (contents f))) in *.
  assert (Hn : (0 <= n)%Z) by (subst n; lia).
  pose proof (Z.div_mod n L ltac:(lia)) as Hdm.
  pose proof (Z.mod_pos_bound n L HL) as Hb.
  assert (E' : ((n - 1) / L = n / L)%Z).
  { symmetry. apply Z.div_unique with (r := (n mod L - 1)%Z); lia. }
  rewrite E'. rewrite Z2Nat.id; [reflexivity|]. apply Z.div_pos; lia.
Qed.

(** Where it does, the last full window is not emitted: [n / L - 1]. *)
Lemma load_directory_count_exact fuel f L :
  well_named (name f) = true -> (0 < L)%Z ->
  (token_count (contents f) <= fuel)%nat ->
  (0 < token_count (contents f))%nat ->
  (Z.of_nat (token_count (contents f)) mod L = 0)%Z ->
  exists c,
    load_directory fuel [f] L = Ok c /\
    Z.of_nat (length (documents c)) =
      (Z.of_nat (token_count (contents f)) / L - 1)%Z.
Proof.
  intros Hname HL Hfuel Hpos Hmod.
  destruct (load_directory_count fuel f L Hname HL Hfuel) as (c & E & Hlen).
  exists c. split; [exact E|]. rewrite Hlen.
  set (n := Z.of_nat (token_count (contents f))) in *.
  assert (Hn : (0 < n)%Z) by (subst n; lia).
  pose proof (Z.div_mod n L ltac:(lia)) as Hdm.
  assert (Hq : (1 <= n / L)%Z) by nia.
  assert (E' : ((n - 1) / L = n / L - 1)%Z).
  { symmetry. apply Z.div_unique with (r := (L - 1)%Z); nia. }
  rewrite E'. rewrite Z2Nat.id; lia.
Qed.

(** C2 (the code against the claim).  A source of exactly [L] tokens, and
    one of [2 * L] tokens: the claim promises [floor(n / L)] documents, one
    and two; the loop condition [end_idx < len(lemmas)] is strict, so
    [load_directory] returns none and one. *)
Theorem load_directory_drops_exact_window :
  let one := {| name := "B_ep.txt"; contents := "et in" |} in
  let two := {| name := "B_ep.txt"; contents := "et in non ad" |} in
  token_count (contents one) = 2%nat /\
  token_count (contents two) = 4%nat /\
  (forall fuel, load_directory fuel [one] 2 = Ok empty_corpus) /\
  (forall fuel, (1 <= fuel)%nat ->
     load_directory fuel [two] 2 =
       Ok {| documents := ["et in"%string]; authors := ["B"%string];
             titles := ["ep-1"%string] |}).
Proof.
  repeat split.
  - intros [|fuel]; reflexivity.
  - intros [|[|fuel]] H; [lia|reflexivity|reflexivity].
Qed.

(** C10.  When the directory holds a '.txt' entry whose name has no
    underscore and whose text has more tokens than the chunk length,
    [load_directory] never returns the triple; with a positive chunk
    length, and enough fuel for every file's loop, it raises [IndexError]. *)
Theorem load_directory_needs_underscore directory max_length filename :
  In filename directory ->
  endswith (name filename) ".txt" = true ->
  contains_char "_"%char (name filename) = false ->
  (max_length < Z.of_nat (token_count (contents filename)))%Z ->
  (forall fuel, is_ok (load_directory fuel directory max_length) = false) /\
  ((0 < max_length)%Z ->
   forall fuel,
     (forall f, In f directory -> (token_count (contents f) <= fuel)%nat) ->
     load_directory fuel directory max_length = Raise IndexError).
Proof.
  intros Hin Hext Hus Hlen. split.
  - intros fuel. now apply scan_never_ok with (bad := filename).
  - intros HL fuel Hfuel. now apply scan_index_error with (bad := filename).
Qed.

Lemma load_directory_needs_underscore_witness :
  load_directory 4
    [ {| name := "B_ep.txt"; contents := "et qui in non" |};
      {| name := "Hildegard.txt"; contents := "et qui in" |} ] 2
  = Raise IndexError.
Proof.
  apply (proj2 (load_directory_needs_underscore
                  [ {| name := "B_ep.txt"; contents := "et qui in non" |};
                    {| name := "Hildegard.txt"; contents := "et qui in" |} ] 2
                  {| name := "Hildegard.txt"; contents := "et qui in" |}
                  (or_intror (or_introl eq_refl)) eq_refl eq_refl eq_refl)
               eq_refl 4%nat).
  intros f [<-|[<-|[]]]; vm_compute; lia.
Defined.

End SegmenterProofs.

(** ** Vectorizer *)

Module VectorizerProofs.
Import Py Vectorizer.

(** The loop over [enumerate(vocabulary)] maps every term of a
    duplicate-free list to its position. *)
Lemma enumerate_vocabulary_spec : forall (vocabulary : list string) i vocab,
  NoDup vocabulary ->
  (forall t, t ∈ vocabulary -> vocab !! t = None) ->
  exists m : gmap string nat,
    enumerate_vocabulary i vocabulary vocab = Ok m /\
    size m = (size vocab + length vocabulary)%nat /\
    forall t j, m !! t = Some j <->
      vocab !! t = Some j \/ exists k, vocabulary !! k = Some t /\ j = (i + k)%nat.
Proof.
  induction vocabulary as [|t0 rest IH]; intros i vocab Hnd Hfresh.
  - exists vocab. cbn [enumerate_vocabulary]. split; [reflexivity|].
    split; [simpl; lia|].
    intros t j. split; [auto|]. intros [H|(k & H & _)]; [exact H|].
    now rewrite lookup_nil in H.
  - apply NoDup_cons in Hnd as [Hnotin Hnd].
    assert (H0 : vocab !! t0 = None) by (apply Hfresh; left).
    cbn [enumerate_vocabulary]. unfold setdefault. rewrite H0.
    rewrite Nat.eqb_refl.
    destruct (IH (S i) (<[t0 := i]> vocab) Hnd) as (m & E & Hsize & Hm).
    { intros t Ht. rewrite lookup_insert_ne; [apply Hfresh; now right|].
      intros ->. contradiction. }
    exists m. split; [exact E|]. split.
    { rewrite Hsize, map_size_insert_None by exact H0. simpl. lia. }
    intros t j. rewrite Hm. split.
    + intros [H|(k & Hk & ->)].
      * destruct (decide (t0 = t)) as [<-|Hne].
        -- rewrite lookup_insert_eq in H. injection H as <-.
           right. exists 0%nat. split; [reflexivity|lia].
        -- rewrite lookup_insert_ne in H by exact Hne. now left.
      * right. exists (S k). split; [exact Hk|lia].
    + intros [H|(k & Hk & ->)].
      * left. rewrite lookup_insert_ne; [exact H|]. intros <-. congruence.
      * destruct k as [|k].
        -- simpl in Hk. injection Hk as <-. left.
           rewrite lookup_insert_eq. f_equal. lia.
        -- right. exists k. split; [exact Hk|lia].
Qed.

(** A non-empty vocabulary without duplicates is accepted, and the dict
    built from it is the inverse of the list. *)
Lemma validate_vocabulary_spec (vocabulary : list string) :
  NoDup vocabulary -> vocabulary <> [] ->
  exists m : gmap string nat,
    validate_vocabulary vocabulary = Ok m /\
    size m = length vocabulary /\
    forall t j, m !! t = Some j <-> vocabulary !! j = Some t.
Proof.
  intros Hnd Hne. unfold validate_vocabulary.
  destruct (enumerate_vocabulary_spec vocabulary 0 ∅ Hnd)
    as (m & -> & Hsize & Hm).
  { intros t _. apply lookup_empty. }
  cbn [bind]. exists m.
  assert (Hinv : forall t j, m !! t = Some j <-> vocabulary !! j = Some t).
  { intros t j. rewrite Hm. split.
    - intros [H|(k & Hk & ->)]; [now rewrite lookup_empty in H|exact Hk].
    - intros H. right. now exists j. }
  destruct (decide (m = ∅)) as [->|_].
  - destruct vocabulary as [|t0 rest]; [congruence|].
    specialize (Hinv t0 0%nat). rewrite lookup_empty in Hinv.
    simpl in Hinv. destruct Hinv as [_ H]. now specialize (H eq_refl).
  - split; [reflexivity|]. split; [|exact Hinv].
    rewrite Hsize, map_size_empty. reflexivity.
Qed.

(** A duplicate term and an empty list are rejected. *)
Lemma validate_vocabulary_empty : validate_vocabulary [] = Raise ValueError.
Proof. reflexivity. Qed.

Lemma count_feature_lookup (m : gmap string nat) (fc : gmap nat nat) t j :
  default 0%nat (count_feature m fc t !! j) =
    (default 0%nat (fc !! j) + if decide (m !! t = Some j) then 1 else 0)%nat.
Proof.
  unfold count_feature. destruct (m !! t) as [idx|] eqn:Hidx.
  - destruct (decide (idx = j)) as [->|Hne].
    + rewrite decide_True by reflexivity.
      destruct (fc !! j) as [c|] eqn:Hc; rewrite lookup_insert_eq; simpl; lia.
    + rewrite decide_False by congruence.
      destruct (fc !! idx); rewrite lookup_insert_ne by exact Hne; lia.
  - rewrite decide_False by congruence. lia.
Qed.

Lemma fold_count_feature_lookup (m : gmap string nat) j : forall tokens fc,
  default 0%nat (fold_left (count_feature m) tokens fc !! j) =
    (default 0%nat (fc !! j)
     + length (List.filter (fun t => bool_decide (m !! t = Some j)) tokens))%nat.
Proof.
  induction tokens as [|t tokens IH]; intros fc; [simpl; lia|].
  cbn [fold_left]. rewrite IH, count_feature_lookup.
  cbn [List.filter]. destruct (decide (m !! t = Some j)) as [H|H].
  - rewrite bool_decide_eq_true_2 by exact H. simpl. lia.
  - rewrite bool_decide_eq_false_2 by exact H. lia.
Qed.

Lemma filter_length_count_occ (t : string) (p : string -> bool) :
  (forall u, p u = true <-> u = t) ->
  forall tokens, length (List.filter p tokens) = count_occ string_dec tokens t.
Proof.
  intros Hp. induction tokens as [|u tokens IH]; [reflexivity|].
  cbn [List.filter count_occ]. destruct (string_dec u t) as [->|Hne].
  - rewrite (proj2 (Hp t) eq_refl). simpl. now rewrite IH.
  - destruct (p u) eqn:E; [|exact IH]. apply Hp in E. contradiction.
Qed.

(** The counter of a token stream holds, under the index of a vocabulary
    term, the number of occurrences of that term. *)
Lemma count_tokens_lookup (vocabulary : list string) (m : gmap string nat)
    tokens j t :
  (forall u k, m !! u = Some k <-> vocabulary !! k = Some u) ->
  vocabulary !! j = Some t ->
  default 0%nat (count_tokens m tokens !! j) = count_occ string_dec tokens t.
Proof.
  intros Hm Hj. unfold count_tokens.
  rewrite fold_count_feature_lookup, lookup_empty. simpl.
  apply filter_length_count_occ. intros u. rewrite bool_decide_eq_true, Hm.
  split; [congruence|now intros ->].
Qed.

Lemma toarray_row_length V fc : length (toarray_row V fc) = V.
Proof. unfold toarray_row. now rewrite length_map, length_seq. Qed.

Lemma toarray_row_lookup V fc j :
  (j < V)%nat -> toarray_row V fc !! j = Some (default 0%nat (fc !! j)).
Proof.
  intros Hj. unfold toarray_row.
  change (map ?f ?l) with (f <$> l).
  rewrite list_lookup_fmap, lookup_seq_lt by exact Hj. reflexivity.
Qed.

Lemma toarray_row_empty V : toarray_row V ∅ = replicate V 0%nat.
Proof.
  unfold toarray_row. generalize 0%nat at 2.
  induction V as [|V IH]; intros s; [reflexivity|].
  cbn [seq map replicate]. now rewrite lookup_empty, IH.
Qed.

Lemma count_occ_filter (p : string -> bool) t : forall tokens,
  p t = true ->
  count_occ string_dec (List.filter p tokens) t = count_occ string_dec tokens t.
Proof.
  intros tokens Hp. induction tokens as [|u tokens IH]; [reflexivity|].
  cbn [List.filter count_occ]. destruct (string_dec u t) as [->|Hne].
  - rewrite Hp. cbn [count_occ]. destruct (string_dec t t); [|congruence].
    now rewrite IH.
  - destruct (p u); [|exact IH]. cbn [count_occ].
    destruct (string_dec u t); [contradiction|exact IH].
Qed.

(** C7.  With a non-empty vocabulary of distinct terms, [transform] (and
    [fit_transform], which learns nothing) returns one row per document;
    entry [j] of the row of a document is the number of occurrences of
    vocabulary term [j] in the document's token stream, whatever documents
    are passed; documents that differ only in tokens outside the
    vocabulary get the same row; the empty document gets the zero row. *)
Theorem transform_counts (vocabulary raw_documents : list string) :
  NoDup vocabulary -> vocabulary <> [] ->
  exists X : list (list nat),
    transform vocabulary raw_documents = Ok X /\
    fit_transform vocabulary raw_documents = Ok X /\
    length X = length raw_documents /\
    forall i doc, raw_documents !! i = Some doc ->
      exists row : list nat,
        X !! i = Some row /\
        length row = length vocabulary /\
        (forall j t, vocabulary !! j = Some t ->
           row !! j = Some (count_occ string_dec (analyze doc) t)) /\
        (forall i' doc', raw_documents !! i' = Some doc' ->
           List.filter (fun t => bool_decide (t ∈ vocabulary)) (analyze doc')
           = List.filter (fun t => bool_decide (t ∈ vocabulary)) (analyze doc) ->
           X !! i' = Some row) /\
        (doc = EmptyString -> row = replicate (length vocabulary) 0%nat).
Proof.
  intros Hnd Hne.
  destruct (validate_vocabulary_spec vocabulary Hnd Hne) as (m & E & Hsize & Hm).
  exists (count_vocab m raw_documents).
  unfold transform, fit_transform. rewrite E. cbn [bind].
  split; [reflexivity|]. split; [reflexivity|].
  unfold count_vocab. split; [apply length_map|].
  assert (Hrow : forall k d, raw_documents !! k = Some d ->
            map (fun doc => toarray_row (size m) (count_tokens m (analyze doc)))
                raw_documents !! k
            = Some (toarray_row (size m) (count_tokens m (analyze d)))).
  { intros k d Hk. change (map ?f ?l) with (f <$> l).
    now rewrite list_lookup_fmap, Hk. }
  assert (Hentry : forall d j t, vocabulary !! j = Some t ->
            toarray_row (size m) (count_tokens m (analyze d)) !! j
            = Some (count_occ string_dec (analyze d) t)).
  { intros d j t Hj. rewrite toarray_row_lookup.
    - f_equal. now apply count_tokens_lookup with (vocabulary := vocabulary).
    - rewrite Hsize. now apply lookup_lt_Some in Hj. }
  intros i doc Hi. eexists. split; [exact (Hrow _ _ Hi)|].
  split; [now rewrite toarray_row_length|]. split; [now apply Hentry|]. split.
  - intros i' doc' Hi' Hfilter. rewrite (Hrow _ _ Hi'). f_equal.
    apply list_eq. intros j.
    destruct (vocabulary !! j) as [t|] eqn:Hj.
    + rewrite !(Hentry _ _ _ Hj). f_equal.
      assert (Ht : bool_decide (t ∈ vocabulary) = true).
      { apply bool_decide_eq_true. apply list_elem_of_lookup. now exists j. }
      rewrite <- (count_occ_filter (fun u => bool_decide (u ∈ vocabulary)) t
                    (analyze doc') Ht).
      rewrite <- (count_occ_filter (fun u => bool_decide (u ∈ vocabulary)) t
                    (analyze doc) Ht).
      now rewrite Hfilter.
    + apply lookup_ge_None in Hj.
      rewrite !(proj2 (lookup_ge_None _ _));
        [reflexivity| |]; rewrite toarray_row_length; lia.
  - intros ->. rewrite Hsize. apply toarray_row_empty.
Qed.

Lemma transform_counts_witness :
  exists X : list (list nat),
    transform ["et"; "qui"; "in"]%string ["Et in, et NON"; ""]%string = Ok X /\
    X !! 0%nat = Some [2; 0; 1]%nat /\ X !! 1%nat = Some [0; 0; 0]%nat.
Proof.
  destruct (transform_counts ["et"; "qui"; "in"]%string
              ["Et in, et NON"; ""]%string)
    as (X & E & _ & _ & H).
  - apply (bool_decide_unpack _). vm_compute. reflexivity.
  - discriminate.
  - exists X. split; [exact E|].
    vm_compute in E. injection E as <-. split; reflexivity.
Defined.

End VectorizerProofs.

(** ** Normalizer and standardizer *)

Module PreprocessingProofs.
Import Py Preprocessing.
Open Scope R_scope.

Lemma check_array_well_shaped X V :
  well_shaped X V -> check_array X = Ok X /\ n_features X = V.
Proof.
  intros (Hne & HV & Hrows). destruct X as [|r X]; [congruence|].
  assert (Hr : length r = V) by now inversion Hrows.
  unfold check_array. cbn [n_features length]. rewrite Hr.
  assert (Hall : forallb (fun r0 : list R => (length r0 =? V)%nat) (r :: X)
                 = true).
  { apply forallb_forall. intros r0 Hin. apply Nat.eqb_eq.
    rewrite List.Forall_forall in Hrows. now apply Hrows. }
  rewrite Hall. destruct V as [|V]; [lia|]. split; reflexivity.
Qed.

Lemma check_array_inv X X' :
  check_array X = Ok X' -> X' = X /\ well_shaped X (n_features X).
Proof.
  unfold check_array. intros H.
  destruct (_ && _ && _) eqn:E; [|discriminate]. injection H as <-.
  apply andb_prop in E as [E HV]. apply andb_prop in E as [HN Hrows].
  split; [reflexivity|]. repeat split.
  - intros ->. discriminate.
  - now apply Nat.leb_le.
  - apply List.Forall_forall. intros r Hin.
    rewrite forallb_forall in Hrows. now apply Nat.eqb_eq, Hrows.
Qed.

(** An array that is not accepted is refused with a [ValueError]. *)
Lemma check_array_total X :
  check_array X = Ok X \/ check_array X = Raise ValueError.
Proof. unfold check_array. destruct (_ && _ && _); auto. Qed.

Lemma check_array_empty : check_array [] = Raise ValueError.
Proof. reflexivity. Qed.

Lemma handle_zeros_in_scale_nonzero s : handle_zeros_in_scale s <> 0.
Proof. unfold handle_zeros_in_scale. destruct (Req_dec_T s 0); lra. Qed.

Lemma handle_zeros_in_scale_id s : s <> 0 -> handle_zeros_in_scale s = s.
Proof. unfold handle_zeros_in_scale. destruct (Req_dec_T s 0); tauto. Qed.

Lemma norms_nonzero v : norms v <> 0.
Proof. apply handle_zeros_in_scale_nonzero. Qed.

(** A count matrix has no negative entry. *)
Lemma astype_float_nonneg (X : list (list nat)) i v :
  astype_float X !! i = Some v -> Forall (fun x => 0 <= x) v.
Proof.
  unfold astype_float. change (map ?f ?l) with (f <$> l).
  rewrite list_lookup_fmap. destruct (X !! i) as [c|]; [|discriminate].
  intros [= <-]. apply List.Forall_forall. intros x Hx.
  apply in_map_iff in Hx as (k & <- & _). apply pos_INR.
Qed.

Lemma sum_map_div c v : sum (map (fun x => x / c) v) = sum v / c.
Proof.
  induction v as [|x v IH]; cbn [map sum fold_right]; [lra|].
  fold (sum (map (fun x0 => x0 / c) v)). fold (sum v). rewrite IH. lra.
Qed.

Lemma sum_nonneg v : Forall (fun x => 0 <= x) v -> 0 <= sum v.
Proof.
  induction 1 as [|x v Hx _ IH]; cbn [sum fold_right]; [lra|].
  fold (sum v). lra.
Qed.

Lemma sum_nonneg_nonzero v :
  Forall (fun x => 0 <= x) v -> Exists (fun x => x <> 0) v -> 0 < sum v.
Proof.
  induction 1 as [|x v Hx Hv IH]; intros Hex; [inversion Hex|].
  cbn [sum fold_right]. fold (sum v). pose proof (sum_nonneg v Hv).
  inversion Hex; subst; [lra|]. specialize (IH ltac:(assumption)). lra.
Qed.

Lemma l1_norm_nonneg_entries v :
  Forall (fun x => 0 <= x) v -> l1_norm v = sum v.
Proof.
  unfold l1_norm. induction 1 as [|x v Hx _ IH]; [reflexivity|].
  cbn [map sum fold_right]. fold (sum (map Rabs v)). fold (sum v).
  rewrite IH, Rabs_right by lra. reflexivity.
Qed.

Lemma l1_norm_zero v : Forall (fun x => x = 0) v -> l1_norm v = 0.
Proof.
  unfold l1_norm. induction 1 as [|x v Hx _ IH]; [reflexivity|].
  cbn [map sum fold_right]. fold (sum (map Rabs v)).
  rewrite IH, Hx, Rabs_R0. lra.
Qed.

Lemma map_div_one v : map (fun x => x / 1) v = v.
Proof.
  induction v as [|x v IH]; [reflexivity|]. cbn [map]. rewrite IH.
  f_equal. lra.
Qed.

(** A zero row has norm zero, is divided by one, and stays as it is. *)
Lemma normalize_row_zero v : Forall (fun x => x = 0) v -> normalize_row v = v.
Proof.
  intros H. unfold normalize_row, norms. rewrite (l1_norm_zero v H).
  unfold handle_zeros_in_scale. destruct (Req_dec_T 0 0); [|congruence].
  apply map_div_one.
Qed.

(** A row of L1 norm one is a fixed point. *)
Lemma normalize_row_fixed v : l1_norm v = 1 -> normalize_row v = v.
Proof.
  intros H. unfold normalize_row, norms. rewrite H.
  rewrite handle_zeros_in_scale_id by lra. apply map_div_one.
Qed.

(** A non-zero row of non-negative entries is divided by its sum. *)
Lemma normalize_row_counts v :
  Forall (fun x => 0 <= x) v -> Exists (fun x => x <> 0) v ->
  normalize_row v = map (fun x => x / sum v) v /\
  sum (normalize_row v) = 1.
Proof.
  intros Hpos Hnz. pose proof (sum_nonneg_nonzero v Hpos Hnz) as Hs.
  assert (E : norms v = sum v).
  { unfold norms. rewrite (l1_norm_nonneg_entries v Hpos).
    apply handle_zeros_in_scale_id. lra. }
  unfold normalize_row. rewrite E. split; [reflexivity|].
  rewrite sum_map_div. field. lra.
Qed.

Lemma normalize_well_shaped X V :
  well_shaped X V -> normalize X = Ok (map normalize_row X).
Proof.
  intros H. unfold normalize.
  now rewrite (proj1 (check_array_well_shaped X V H)).
Qed.

(** C6.  On a well-shaped matrix [normalize] returns; a non-zero row of
    non-negative entries comes back divided by the sum of its entries and
    then sums to one; a row whose absolute values sum to one comes back
    unchanged. *)
Theorem normalize_l1 (X : matrix) (V i : nat) (v : vec) :
  well_shaped X V -> X !! i = Some v ->
  exists Xn,
    normalize X = Ok Xn /\
    (Forall (fun x => 0 <= x) v -> Exists (fun x => x <> 0) v ->
       Xn !! i = Some (map (fun x => x / sum v) v) /\
       sum (map (fun x => x / sum v) v) = 1) /\
    (l1_norm v = 1 -> Xn !! i = Some v).
Proof.
  intros Hshape Hi. exists (map normalize_row X).
  split; [now apply normalize_well_shaped with (V := V)|].
  assert (Hrow : map normalize_row X !! i = Some (normalize_row v)).
  { change (map ?f ?l) with (f <$> l). now rewrite list_lookup_fmap, Hi. }
  split.
  - intros Hpos Hnz.
    destruct (normalize_row_counts v Hpos Hnz) as [E Hsum].
    rewrite <- E. auto.
  - intros H1. now rewrite Hrow, normalize_row_fixed.
Qed.

Lemma normalize_l1_witness :
  exists Xn,
    normalize [[3; 1]; [1/2; -1/2]] = Ok Xn /\
    Xn !! 0%nat = Some [3 / (3 + (1 + 0)); 1 / (3 + (1 + 0))] /\
    Xn !! 1%nat = Some [1/2; -1/2].
Proof.
  assert (Hshape : well_shaped [[3; 1]; [1/2; -1/2]] 2).
  { split; [discriminate|]. split; [lia|]. repeat constructor. }
  destruct (normalize_l1 [[3; 1]; [1/2; -1/2]] 2 0 [3; 1] Hshape eq_refl)
    as (Xn & E & Hcounts & _).
  destruct (normalize_l1 [[3; 1]; [1/2; -1/2]] 2 1 [1/2; -1/2] Hshape eq_refl)
    as (Xn' & E' & _ & Hfixed).
  rewrite E in E'. injection E' as <-.
  exists Xn. split; [exact E|]. split.
  - apply Hcounts.
    + repeat constructor; lra.
    + left. lra.
  - apply Hfixed. unfold l1_norm. cbn [map sum fold_right].
    rewrite Rabs_right by lra. rewrite Rabs_left by lra. lra.
Defined.

(** *** Sums, means and variances *)

(** The variance that numpy computes is the mean squared deviation. *)
Lemma var_mean_squared_deviation v :
  var v = sum (map (fun x => (x - mean v) * (x - mean v)) v) / INR (length v).
Proof.
  unfold var. unfold mean at 1. rewrite length_map. f_equal. f_equal.
  apply map_ext. intros x.
  rewrite <- Rabs_mult. apply Rabs_right.
  apply Rle_ge. apply Rle_0_sqr.
Qed.

Lemma sqrt_var v : sqrt (var v) = population_std v.
Proof. unfold population_std. now rewrite var_mean_squared_deviation. Qed.

Lemma sum_zero v : Forall (fun x => x = 0) v -> sum v = 0.
Proof.
  induction 1 as [|x v Hx _ IH]; [reflexivity|].
  cbn [sum fold_right]. fold (sum v). lra.
Qed.

(** An all-zero column has variance zero. *)
Lemma var_zero_column v : Forall (fun x => x = 0) v -> var v = 0.
Proof.
  intros H. assert (Hm : mean v = 0).
  { unfold mean. rewrite (sum_zero v H). unfold Rdiv. apply Rmult_0_l. }
  unfold var, mean at 1. rewrite Hm. rewrite sum_zero.
  - unfold Rdiv. apply Rmult_0_l.
  - apply List.Forall_forall. intros z Hz.
    apply in_map_iff in Hz as (x & <- & Hx).
    rewrite List.Forall_forall in H. rewrite (H x Hx).
    rewrite Rminus_0_r, Rabs_R0. lra.
Qed.

Lemma entry_le_sum v x :
  Forall (fun y => 0 <= y) v -> In x v -> x <= sum v.
Proof.
  induction 1 as [|y v Hy Hv IH]; intros Hin; [destruct Hin|].
  cbn [sum fold_right]. fold (sum v). pose proof (sum_nonneg v Hv).
  destruct Hin as [->|Hin]; [lra|]. specialize (IH Hin). lra.
Qed.

Lemma sum_map_scale {A : Type} (f : A -> R) c (l : list A) :
  sum (map (fun x => f x / c) l) = sum (map f l) / c.
Proof.
  rewrite <- (sum_map_div c (map f l)). now rewrite map_map.
Qed.

Lemma sum_map_minus a v :
  sum (map (fun x => x - a) v) = sum v - INR (length v) * a.
Proof.
  induction v as [|x v IH]; [cbn; lra|].
  cbn [map sum fold_right]. fold (sum (map (fun x0 => x0 - a) v)).
  fold (sum v). rewrite IH. cbn [length]. rewrite S_INR. lra.
Qed.

Lemma INR_length_pos {A : Type} (l : list A) : l <> [] -> 0 < INR (length l).
Proof.
  destruct l; [congruence|]. intros _. cbn [length]. rewrite S_INR.
  pose proof (pos_INR (length l)). lra.
Qed.

(** The deviations from the mean add up to zero. *)
Lemma sum_centered v : v <> [] -> sum (map (fun x => x - mean v) v) = 0.
Proof.
  intros Hne. pose proof (INR_length_pos v Hne).
  rewrite sum_map_minus. unfold mean. field. lra.
Qed.

Lemma mean_map_div c v : mean (map (fun x => x / c) v) = mean v / c.
Proof.
  unfold mean. rewrite sum_map_div, length_map. unfold Rdiv. ring.
Qed.

Lemma var_map_div c v :
  c <> 0 -> var (map (fun x => x / c) v) = var v / (c * c).
Proof.
  intros Hc. rewrite !var_mean_squared_deviation.
  rewrite mean_map_div, map_map, length_map.
  rewrite (map_ext _ (fun x => (x - mean v) * (x - mean v) / (c * c)))
    by (intros x; field; exact Hc).
  rewrite (sum_map_scale (fun x => (x - mean v) * (x - mean v))).
  unfold Rdiv. ring.
Qed.

Lemma mean_centered c v :
  v <> [] -> mean (map (fun x => (x - mean v) / c) v) = 0.
Proof.
  intros Hne. unfold mean at 1.
  rewrite (sum_map_scale (fun x => x - mean v)), (sum_centered v Hne).
  unfold Rdiv. ring.
Qed.

Lemma var_centered c v :
  v <> [] -> c <> 0 ->
  var (map (fun x => (x - mean v) / c) v) = var v / (c * c).
Proof.
  intros Hne Hc. rewrite !var_mean_squared_deviation.
  rewrite (mean_centered c v Hne), map_map, length_map.
  rewrite (map_ext _ (fun x => (x - mean v) * (x - mean v) / (c * c)))
    by (intros x; field; exact Hc).
  rewrite (sum_map_scale (fun x => (x - mean v) * (x - mean v))).
  unfold Rdiv. ring.
Qed.

Lemma sum_squares_nonneg v :
  0 <= sum (map (fun x => (x - mean v) * (x - mean v)) v).
Proof.
  apply sum_nonneg. apply List.Forall_forall. intros z Hz.
  apply in_map_iff in Hz as (x & <- & _). apply Rle_0_sqr.
Qed.

Lemma var_nonneg v : 0 <= var v.
Proof.
  rewrite var_mean_squared_deviation.
  pose proof (sum_squares_nonneg v) as Hs.
  destruct v as [|x v].
  - cbn. lra.
  - pose proof (INR_length_pos (x :: v) ltac:(discriminate)).
    apply Rmult_le_pos; [exact Hs|]. left. now apply Rinv_0_lt_compat.
Qed.

Lemma sqrt_var_sqr v : sqrt (var v) * sqrt (var v) = var v.
Proof. apply sqrt_sqrt, var_nonneg. Qed.

Lemma sqrt_var_nonzero v : var v <> 0 -> sqrt (var v) <> 0.
Proof.
  intros H E. pose proof (sqrt_var_sqr v) as S. rewrite E in S. lra.
Qed.

(** A column of variance zero is constant: every entry is the mean. *)
Lemma var_zero_constant v :
  var v = 0 -> Forall (fun x => x = mean v) v.
Proof.
  intros Hv. destruct v as [|x0 v0]; [constructor|].
  set (v := x0 :: v0) in *.
  pose proof (INR_length_pos v ltac:(discriminate)) as Hn.
  rewrite var_mean_squared_deviation in Hv.
  assert (Hs : sum (map (fun x => (x - mean v) * (x - mean v)) v) = 0).
  { apply (Rmult_eq_reg_r (/ INR (length v)));
      [|apply Rinv_neq_0_compat; lra].
    unfold Rdiv in Hv. rewrite Hv. ring. }
  apply List.Forall_forall. intros x Hx.
  assert (Hsq : (x - mean v) * (x - mean v) = 0).
  { assert (Hpos : Forall (fun y => 0 <= y)
                     (map (fun x => (x - mean v) * (x - mean v)) v)).
    { apply List.Forall_forall. intros z Hz.
      apply in_map_iff in Hz as (x' & <- & _). apply Rle_0_sqr. }
    assert (Hin : In ((x - mean v) * (x - mean v))
                     (map (fun x => (x - mean v) * (x - mean v)) v))
      by (apply in_map_iff; now exists x).
    pose proof (entry_le_sum _ _ Hpos Hin).
    pose proof (Rle_0_sqr (x - mean v)). unfold Rsqr in *. lra. }
  apply Rmult_integral in Hsq. lra.
Qed.

(** *** The scale of a feature *)

Lemma eps_pos : 0 < eps.
Proof. unfold eps. lra. Qed.

Lemma eps_small : eps < / 1000.
Proof. unfold eps. lra. Qed.

Lemma sum_cons x v : sum (x :: v) = x + sum v.
Proof. reflexivity. Qed.

Lemma sum_abs_bound v B :
  Forall (fun x => Rabs x <= B) v -> Rabs (sum v) <= INR (length v) * B.
Proof.
  induction 1 as [|x v Hx _ IH].
  - cbn. rewrite Rabs_R0. lra.
  - rewrite sum_cons. cbn [length]. rewrite S_INR.
    pose proof (Rabs_triang x (sum v)). lra.
Qed.


Lemma l1_norm_nonneg v : 0 <= l1_norm v.
Proof.
  unfold l1_norm. apply sum_nonneg. apply List.Forall_forall.
  intros z Hz. apply in_map_iff in Hz as (x & <- & _). apply Rabs_pos.
Qed.

Lemma abs_le_l1_norm v x : In x v -> Rabs x <= l1_norm v.
Proof.
  intros Hx. unfold l1_norm. apply entry_le_sum.
  - apply List.Forall_forall. intros z Hz.
    apply in_map_iff in Hz as (y & <- & _). apply Rabs_pos.
  - now apply in_map.
Qed.

Lemma Rabs_self_mult t : Rabs t * Rabs t = t * t.
Proof. unfold Rabs. destruct (Rcase_abs t); ring. Qed.

Lemma mult_bound a b A B :
  0 <= a <= A -> 0 <= b <= B -> 0 <= a * b <= A * B.
Proof.
  intros [Ha HA] [Hb HB]. split; [now apply Rmult_le_pos|].
  apply Rmult_le_compat; assumption.
Qed.

Lemma length_ge_1 {A : Type} (l : list A) : l <> [] -> 1 <= INR (length l).
Proof.
  destruct l; [congruence|]. intros _. cbn [length]. rewrite S_INR.
  pose proof (pos_INR (length l)). lra.
Qed.

Lemma mean_abs_bound c B :
  c <> [] -> Forall (fun x => Rabs x <= B) c -> Rabs (mean c) <= B.
Proof.
  intros Hne Hc. pose proof (INR_length_pos c Hne) as Hpos.
  pose proof (sum_abs_bound c B Hc) as Hs.
  unfold mean, Rdiv. rewrite Rabs_mult, Rabs_inv.
  rewrite (Rabs_right (INR (length c))) by lra.
  apply (Rmult_le_reg_r (INR (length c))); [lra|].
  rewrite Rmult_assoc, Rinv_l by lra. lra.
Qed.

Lemma Rabs_le_sqr a b : 0 <= b -> a * a <= b * b -> Rabs a <= b.
Proof.
  intros Hb H. unfold Rabs. destruct (Rcase_abs a); nra.
Qed.

(** No entry is further from the mean than [sqrt N] standard
    deviations, so than [N] of them. *)
Lemma deviation_bound c x :
  In x c -> Rabs (x - mean c) <= INR (length c) * sqrt (var c).
Proof.
  intros Hx.
  assert (Hne : c <> []) by (intros ->; destruct Hx).
  pose proof (INR_length_pos c Hne) as Hpos.
  assert (H1 : 1 <= INR (length c)).
  { destruct c; [congruence|]. cbn [length]. rewrite S_INR.
    pose proof (pos_INR (length c)). lra. }
  pose proof (sqrt_pos (var c)) as Hs.
  pose proof (sqrt_var_sqr c) as Hss.
  apply Rabs_le_sqr; [nra|].
  assert (Hle : (x - mean c) * (x - mean c)
                <= sum (map (fun x => (x - mean c) * (x - mean c)) c)).
  { apply entry_le_sum.
    - apply List.Forall_forall. intros z Hz.
      apply in_map_iff in Hz as (y & <- & _). apply Rle_0_sqr.
    - apply in_map_iff. now exists x. }
  assert (Hv : sum (map (fun x => (x - mean c) * (x - mean c)) c)
               = INR (length c) * var c).
  { rewrite var_mean_squared_deviation. field. lra. }
  pose proof (var_nonneg c). nra.
Qed.

Lemma is_constant_feature_spec var mean n :
  is_constant_feature var mean n = true <->
  var <= INR n * eps * var + (INR n * mean * eps) ^ 2.
Proof.
  unfold is_constant_feature.
  destruct (Rle_dec _ _); split; intros H; (congruence || tauto).
Qed.

Lemma feature_scale_constant n c :
  is_constant_feature (var c) (mean c) n = true ->
  feature_scale n c = 1.
Proof. intros H. unfold feature_scale. now rewrite H. Qed.

Lemma feature_scale_varying n c :
  is_constant_feature (var c) (mean c) n = false ->
  feature_scale n c = sqrt (var c).
Proof. intros H. unfold feature_scale. now rewrite H. Qed.

(** A feature that does not count as constant has a variance above
    zero. *)
Lemma varying_var_pos n c :
  is_constant_feature (var c) (mean c) n = false -> 0 < var c.
Proof.
  intros H. pose proof (var_nonneg c) as Hv.
  destruct (Req_dec_T (var c) 0) as [E|E]; [|lra].
  exfalso. assert (is_constant_feature (var c) (mean c) n = true);
    [|congruence].
  apply is_constant_feature_spec. rewrite E.
  pose proof (pow2_ge_0 (INR n * mean c * eps)). lra.
Qed.

Lemma feature_scale_pos n c : 0 < feature_scale n c.
Proof.
  destruct (is_constant_feature (var c) (mean c) n) eqn:E.
  - rewrite (feature_scale_constant n c E). lra.
  - rewrite (feature_scale_varying n c E).
    apply sqrt_lt_R0. now apply varying_var_pos with (n := n).
Qed.

(** A feature of variance zero counts as constant. *)
Lemma var_zero_is_constant n c :
  var c = 0 -> is_constant_feature (var c) (mean c) n = true.
Proof.
  intros E. apply is_constant_feature_spec. rewrite E.
  pose proof (pow2_ge_0 (INR n * mean c * eps)). lra.
Qed.

(** The mean of a feature that does not count as constant is less than
    [2^52] standard deviations from zero: the test bounds the quotients
    the scaler forms. *)
Lemma varying_mean_bound c :
  c <> [] ->
  is_constant_feature (var c) (mean c) (length c) = false ->
  Rabs (mean c) * eps <= sqrt (var c).
Proof.
  intros Hne H.
  assert (H1 : 1 <= INR (length c)).
  { destruct c; [congruence|]. cbn [length]. rewrite S_INR.
    pose proof (pos_INR (length c)). lra. }
  assert (Hn : ~ var c <= INR (length c) * eps * var c
                         + (INR (length c) * mean c * eps) ^ 2).
  { intros Hc. apply is_constant_feature_spec in Hc. congruence. }
  pose proof (var_nonneg c) as Hv. pose proof eps_pos as He.
  pose proof (sqrt_pos (var c)) as Hs. pose proof (sqrt_var_sqr c) as Hss.
  pose proof (Rabs_pos (mean c)) as Hm.
  assert (Ha : Rabs (mean c) * Rabs (mean c) = mean c * mean c)
    by (unfold Rabs; destruct Rcase_abs; ring).
  set (a := Rabs (mean c)) in *. set (m := mean c) in *.
  set (N := INR (length c)) in *. set (s := sqrt (var c)) in *.
  clearbody a m N s.
  assert (Hlt : (a * eps) * (a * eps) < s * s).
  { rewrite Hss.
    assert (E : (a * eps) * (a * eps) = (m * eps) * (m * eps))
      by (transitivity (a * a * (eps * eps)); [ring|rewrite Ha; ring]).
    rewrite E.
    assert (0 <= N * eps * var c)
      by (apply Rmult_le_pos; [apply Rmult_le_pos; lra|lra]).
    assert ((m * eps) * (m * eps) <= (N * m * eps) ^ 2).
    { replace ((N * m * eps) ^ 2) with ((N * N) * ((m * eps) * (m * eps)))
        by ring.
      pose proof (Rle_0_sqr (m * eps)) as Hq. unfold Rsqr in Hq.
      assert (HN : 1 <= N * N) by nra.
      generalize dependent (m * eps * (m * eps)). intros q _ Hq. nra. }
    lra. }
  assert (0 <= a * eps) by nra. nra.
Qed.

Lemma scale_lookup X j :
  (j < n_features X)%nat ->
  scale_ (fit_stats X) !! j = Some (feature_scale (length X) (column j X)).
Proof.
  intros Hj. cbn [fit_stats scale_].
  change (map ?f ?l) with (f <$> l).
  rewrite !list_lookup_fmap, lookup_seq_lt by exact Hj. reflexivity.
Qed.

Lemma mean_lookup X j :
  (j < n_features X)%nat ->
  mean_ (fit_stats X) !! j = Some (mean (column j X)).
Proof.
  intros Hj. cbn [fit_stats mean_].
  change (map ?f ?l) with (f <$> l).
  rewrite !list_lookup_fmap, lookup_seq_lt by exact Hj. reflexivity.
Qed.

(** The scale of a feature whose mean and variance are known. *)
Lemma feature_scale_value n c m v s :
  mean c = m -> var c = v -> sqrt v = s ->
  ~ v <= INR n * eps * v + (INR n * m * eps) ^ 2 ->
  feature_scale n c = s.
Proof.
  intros <- <- <- H. apply feature_scale_varying.
  destruct (is_constant_feature _ _ _) eqn:E; [|reflexivity].
  now apply is_constant_feature_spec in E.
Qed.

Lemma feature_scale_one n c m v :
  mean c = m -> var c = v ->
  v <= INR n * eps * v + (INR n * m * eps) ^ 2 ->
  feature_scale n c = 1.
Proof.
  intros <- <- H. apply feature_scale_constant.
  now apply is_constant_feature_spec.
Qed.

Ltac eval_var :=
  rewrite ?var_mean_squared_deviation; unfold mean;
  cbn [map sum fold_right length INR]; lra.

Ltac shape_by_computation :=
  split; [discriminate|]; split; [lia|]; repeat constructor.

Ltac entries_in_range :=
  repeat match goal with |- Forall _ _ => constructor end;
  ((left; lra) || (right; rewrite Rabs_right; lra)).

End PreprocessingProofs.

(** ** Doubles that can overflow *)

Module Float64Proofs.
Import Py Preprocessing PreprocessingProofs Float64.
Open Scope R_scope.

(** *** Rounding and sums *)

Lemma round_finite r : Rabs r < overflow_threshold -> round r = Finite r.
Proof.
  intros H. unfold round.
  destruct (Rle_dec overflow_threshold r) as [H1|_].
  - exfalso. pose proof (Rle_abs r). lra.
  - destruct (Rle_dec r (- overflow_threshold)) as [H2|_]; [|reflexivity].
    exfalso. pose proof (Rle_abs (- r)). rewrite Rabs_Ropp in H0. lra.
Qed.

(** A result known under another name. *)
Lemma round_to r v : r = v -> Rabs v < overflow_threshold -> round r = Finite v.
Proof. intros -> H. now apply round_finite. Qed.

Lemma round_nonneg r :
  0 <= r ->
  (overflow_threshold <= r /\ round r = PInf) \/
  (r < overflow_threshold /\ round r = Finite r).
Proof.
  intros H. unfold round.
  destruct (Rle_dec overflow_threshold r) as [H1|H1]; [left; now split|].
  right. split; [lra|].
  destruct (Rle_dec r (- overflow_threshold)) as [H2|_]; [|reflexivity].
  exfalso. unfold overflow_threshold in *. lra.
Qed.

Lemma threshold_large : 2 ^ 1023 < overflow_threshold.
Proof. unfold overflow_threshold. lra. Qed.

(** Adding finite numbers one after the other is exact while the partial
    sums stay below the threshold. *)
Lemma fold_fadd_finite B : forall l a,
  Forall (fun x => Rabs x <= B) l ->
  Rabs a + INR (length l) * B < overflow_threshold ->
  fold_left fadd (map Finite l) (Finite a) = Finite (a + sum l).
Proof.
  induction l as [|x l IH]; intros a Hl Ha.
  - cbn. f_equal. lra.
  - inversion Hl as [|? ? Hx Hl']; subst.
    cbn [map fold_left fadd]. cbn [length] in Ha. rewrite S_INR in Ha.
    assert (HB : 0 <= B) by (pose proof (Rabs_pos x); lra).
    assert (Hn : 0 <= INR (length l) * B)
      by (apply Rmult_le_pos; [apply pos_INR|exact HB]).
    pose proof (Rabs_triang a x) as Ht.
    rewrite round_finite by lra.
    rewrite IH; [|exact Hl'|lra]. rewrite sum_cons. f_equal. lra.
Qed.

Lemma fsum_finite B l :
  Forall (fun x => Rabs x <= B) l ->
  INR (length l) * B < overflow_threshold ->
  fsum (map Finite l) = Finite (sum l).
Proof.
  intros Hl Hb. destruct l as [|x l]; [reflexivity|].
  inversion Hl as [|? ? Hx Hl']; subst. cbn [map fsum].
  cbn [length] in Hb. rewrite S_INR in Hb.
  rewrite (fold_fadd_finite B); [reflexivity|exact Hl'|lra].
Qed.

Lemma fold_fadd_PInf l : fold_left fadd (map Finite l) PInf = PInf.
Proof. induction l as [|x l IH]; [reflexivity|exact IH]. Qed.

(** A sum of numbers that are not negative is the rounded total, in
    whatever order the numbers are added. *)
Lemma fold_fadd_nonneg : forall l a,
  0 <= a -> Forall (fun x => 0 <= x) l ->
  fold_left fadd (map Finite l) (round a) = round (a + sum l).
Proof.
  induction l as [|x l IH]; intros a Ha Hl.
  - cbn. f_equal. lra.
  - inversion Hl as [|? ? Hx Hl']; subst.
    pose proof (sum_nonneg l Hl') as Hs. rewrite sum_cons.
    destruct (round_nonneg a Ha) as [[H1 ->]|[H1 ->]].
    + rewrite fold_fadd_PInf.
      destruct (round_nonneg (a + (x + sum l)) ltac:(lra)) as [[_ ->]|[H2 _]];
        [reflexivity|lra].
    + cbn [map fold_left fadd]. rewrite IH; [|lra|exact Hl'].
      f_equal. lra.
Qed.

Lemma fsum_nonneg l :
  Forall (fun x => 0 <= x < overflow_threshold) l ->
  fsum (map Finite l) = round (sum l).
Proof.
  intros Hl. destruct l as [|x l].
  - cbn. symmetry. apply round_finite. rewrite Rabs_R0.
    unfold overflow_threshold. lra.
  - inversion Hl as [|? ? Hx Hl']; subst. cbn [map fsum].
    rewrite <- (round_finite x) by (rewrite Rabs_right; lra).
    rewrite fold_fadd_nonneg; [reflexivity|lra|].
    eapply List.Forall_impl; [|exact Hl']. cbn. intros; lra.
Qed.

(** *** [normalize] on doubles *)

(** The norm [normalize] computes for a row of doubles. *)
Lemma float_norm v :
  Forall (fun x => Rabs x < overflow_threshold) v ->
  fsum (map (fun x => fabs (Finite x)) v) = round (l1_norm v).
Proof.
  intros Hv. unfold l1_norm. rewrite <- fsum_nonneg.
  - now rewrite map_map.
  - apply List.Forall_forall. intros z Hz.
    apply in_map_iff in Hz as (x & <- & Hx).
    rewrite List.Forall_forall in Hv. specialize (Hv x Hx).
    pose proof (Rabs_pos x). lra.
Qed.

(** What [normalize] makes of one row of doubles: a row whose norm
    overflows becomes all zero, a row of norm below [10 * eps] is left as
    it is, any other row is divided by its norm. *)
Lemma normalize_row_cases v :
  Forall (fun x => Rabs x < overflow_threshold) v ->
  Float64.normalize_row v =
    map Finite
      (if Rle_dec overflow_threshold (l1_norm v) then map (fun _ => 0) v
       else if Rlt_dec (l1_norm v) (10 * eps) then v
       else map (fun x => x / l1_norm v) v).
Proof.
  intros Hv. unfold Float64.normalize_row. rewrite (float_norm v Hv).
  pose proof (l1_norm_nonneg v) as Hn. pose proof eps_pos as He.
  destruct (round_nonneg (l1_norm v) Hn) as [[H1 ->]|[H1 ->]].
  - destruct (Rle_dec overflow_threshold (l1_norm v)); [|lra].
    cbn [Float64.handle_zeros_in_scale flt]. rewrite map_map.
    apply map_ext. intros x. reflexivity.
  - destruct (Rle_dec overflow_threshold (l1_norm v)); [lra|].
    unfold Float64.handle_zeros_in_scale. cbn [flt].
    destruct (Rlt_dec (l1_norm v) (10 * eps)) as [H2|H2].
    + rewrite <- (map_id v) at 2. rewrite !map_map.
      apply map_ext_in. intros x Hx. cbn [fdiv].
      destruct (Req_dec_T 1 0); [lra|].
      rewrite List.Forall_forall in Hv.
      apply round_to; [lra|now apply Hv].
    + rewrite map_map. apply map_ext_in. intros x Hx. cbn [fdiv].
      destruct (Req_dec_T (l1_norm v) 0); [lra|].
      apply round_finite.
      pose proof (abs_le_l1_norm v x Hx) as Hle.
      unfold Rdiv. rewrite Rabs_mult, Rabs_inv.
      rewrite (Rabs_right (l1_norm v)) by lra.
      assert (Rabs x * / l1_norm v <= 1).
      { apply (Rmult_le_reg_r (l1_norm v)); [lra|].
        rewrite Rmult_assoc, Rinv_l by lra. lra. }
      pose proof threshold_large. assert (1 < 2 ^ 1023) by lra. lra.
Qed.



(** On the rows the real-number [normalize] is used for, a norm that is
    zero or at least [10 * eps] and below the threshold, it gives the
    numbers the doubles hold. *)
Lemma normalize_row_agrees v :
  Forall (fun x => Rabs x < overflow_threshold) v ->
  l1_norm v = 0 \/ 10 * eps <= l1_norm v < overflow_threshold ->
  Float64.normalize_row v = map Finite (Preprocessing.normalize_row v).
Proof.
  intros Hv Hn. rewrite (normalize_row_cases v Hv). f_equal.
  pose proof eps_pos as He. unfold Preprocessing.normalize_row, norms.
  destruct Hn as [E|[H1 H2]].
  - rewrite E.
    destruct (Rle_dec overflow_threshold 0) as [H|_];
      [unfold overflow_threshold in H; lra|].
    destruct (Rlt_dec 0 (10 * eps)); [|lra].
    unfold Preprocessing.handle_zeros_in_scale.
    destruct (Req_dec_T 0 0); [|congruence]. now rewrite map_div_one.
  - destruct (Rle_dec overflow_threshold (l1_norm v)); [lra|].
    destruct (Rlt_dec (l1_norm v) (10 * eps)); [lra|].
    now rewrite handle_zeros_in_scale_id by lra.
Qed.

Lemma l1_norm_counts (row : list nat) :
  l1_norm (map INR row) = INR (list_sum row).
Proof.
  unfold l1_norm. induction row as [|k row IH]; [reflexivity|].
  cbn [map]. rewrite sum_cons, IH.
  change (list_sum (k :: row)) with (k + list_sum row)%nat.
  rewrite plus_INR, Rabs_right; [reflexivity|].
  apply Rle_ge, pos_INR.
Qed.

(** On a count matrix, whose rows have a norm that is zero or at least
    one, the doubles hold the numbers [Preprocessing.normalize] returns,
    as long as no row sum overflows. *)
Lemma normalize_agrees_on_counts (C : list (list nat)) V :
  well_shaped (astype_float C) V ->
  Forall (fun row => INR (list_sum row) < overflow_threshold) C ->
  Float64.normalize (astype_float C)
  = Ok (lift (map Preprocessing.normalize_row (astype_float C))) /\
  Preprocessing.normalize (astype_float C)
  = Ok (map Preprocessing.normalize_row (astype_float C)).
Proof.
  intros Hshape Hsum.
  split; [|now apply normalize_well_shaped with (V := V)].
  unfold Float64.normalize.
  rewrite (proj1 (check_array_well_shaped _ V Hshape)). cbn [bind].
  f_equal. unfold lift, astype_float. rewrite !map_map.
  apply map_ext_in. intros row Hrow.
  rewrite List.Forall_forall in Hsum. specialize (Hsum row Hrow).
  pose proof (l1_norm_counts row) as Hn.
  apply normalize_row_agrees.
  - apply List.Forall_forall. intros x Hx.
    pose proof (abs_le_l1_norm _ x Hx). lra.
  - rewrite Hn. destruct (list_sum row) as [|n]; [left; reflexivity|].
    right. rewrite S_INR in *. pose proof (pos_INR n).
    pose proof eps_small. lra.
Qed.

(** *** The scaler on doubles: one feature *)





(** *** The scaler on doubles and on real numbers *)

(** While the entries of a feature stay within [2^100] and there are
    fewer than [2^63] of them, nothing overflows: the doubles hold the
    mean and the scale of the real-number scaler. *)
Lemma fit_feature_agrees c :
  c <> [] -> INR (length c) < 2 ^ 63 ->
  Forall (fun x => Rabs x <= 2 ^ 100) c ->
  fit_feature c = (Finite (mean c), Finite (feature_scale (length c) c)).
Proof.
  intros Hne HN Hc.
  pose proof (length_ge_1 c Hne) as H1.
  pose proof threshold_large as Ht. pose proof eps_pos as He.
  pose proof eps_small as He'.
  set (N := INR (length c)) in *.
  assert (HNB : N * 2 ^ 100 <= 2 ^ 63 * 2 ^ 100) by nra.
  pose proof (sum_abs_bound c _ Hc) as Hs. fold N in Hs.
  pose proof (mean_abs_bound c _ Hne Hc) as Hm.
  set (dev := map (fun x => x - mean c) c).
  assert (Hdev : Forall (fun d => Rabs d <= 2 * 2 ^ 100) dev).
  { apply List.Forall_forall. intros d Hd.
    apply in_map_iff in Hd as (x & <- & Hx).
    rewrite List.Forall_forall in Hc. specialize (Hc x Hx).
    pose proof (Rabs_triang x (- mean c)) as Htr.
    rewrite Rabs_Ropp in Htr. unfold Rminus. lra. }
  set (sq := map (fun d => d * d) dev).
  assert (Hsq : Forall (fun q => Rabs q <= 4 * 2 ^ 100 * 2 ^ 100) sq).
  { apply List.Forall_forall. intros q Hq.
    apply in_map_iff in Hq as (d & <- & Hd).
    rewrite List.Forall_forall in Hdev. specialize (Hdev d Hd).
    rewrite Rabs_mult. pose proof (Rabs_pos d). nra. }
  assert (Hlen_dev : length dev = length c) by apply length_map.
  assert (Hlen_sq : length sq = length c)
    by (unfold sq; now rewrite length_map).
  assert (HS : sum sq = N * var c).
  { rewrite var_mean_squared_deviation. unfold sq, dev. rewrite map_map.
    fold N. field. lra. }
  pose proof (sum_abs_bound sq _ Hsq) as HSb. rewrite Hlen_sq in HSb.
  fold N in HSb.
  pose proof (var_nonneg c) as Hv.
  assert (Hvb : var c <= 4 * 2 ^ 100 * 2 ^ 100).
  { rewrite HS in HSb. rewrite Rabs_right in HSb by nra. nra. }
  unfold fit_feature, incremental_mean_and_var. fold N.
  (* the sum and the mean *)
  rewrite (fsum_finite (2 ^ 100) c Hc) by (fold N; lra).
  assert (Hmean : fdiv (fadd (Finite 0) (Finite (sum c))) (Finite N)
                  = Finite (mean c)).
  { cbn [fadd]. rewrite (round_to _ (sum c)) by lra.
    cbn [fdiv]. destruct (Req_dec_T N 0); [lra|].
    apply round_to; [reflexivity|lra]. }
  rewrite Hmean.
  assert (HT : fdiv (Finite (sum c)) (Finite N) = Finite (mean c)).
  { cbn [fdiv]. destruct (Req_dec_T N 0); [lra|].
    apply round_to; [reflexivity|lra]. }
  rewrite HT.
  (* the deviations and their sum *)
  assert (Htemp : map (fun x => fsub x (Finite (mean c))) (map Finite c)
                  = map Finite dev).
  { unfold dev. rewrite !map_map. apply map_ext_in. intros x Hx.
    cbn [fsub fopp fadd]. apply round_to; [reflexivity|].
    rewrite List.Forall_forall in Hdev.
    assert (Hin : In (x - mean c) dev)
      by (apply in_map_iff; now exists x).
    specialize (Hdev _ Hin). lra. }
  rewrite Htemp.
  rewrite (fsum_finite (2 * 2 ^ 100) dev Hdev)
    by (rewrite Hlen_dev; fold N; lra).
  assert (Hsd : sum dev = 0) by exact (sum_centered c Hne).
  rewrite Hsd.
  cbn [fmul]. rewrite (round_to (0 * 0) 0) by (lra || (rewrite Rabs_R0; lra)).
  assert (Hq0 : fdiv (Finite 0) (Finite N) = Finite 0).
  { cbn [fdiv]. destruct (Req_dec_T N 0); [lra|].
    apply round_to; [unfold Rdiv; ring|rewrite Rabs_R0; lra]. }
  rewrite Hq0.
  (* the squares and the variance *)
  assert (Htemp2 : map (fun t => fmul t t) (map Finite dev) = map Finite sq).
  { unfold sq. rewrite !map_map. apply map_ext_in. intros d Hd.
    cbn [fmul]. apply round_finite.
    rewrite List.Forall_forall in Hsq.
    assert (Hin : In (d * d) sq) by (apply in_map_iff; now exists d).
    specialize (Hsq _ Hin). lra. }
  rewrite Htemp2.
  rewrite (fsum_finite (4 * 2 ^ 100 * 2 ^ 100) sq Hsq)
    by (rewrite Hlen_sq; fold N; nra).
  cbn [fsub fopp fadd].
  rewrite (round_to (sum sq + - 0) (sum sq)) by (lra || nra).
  assert (Hvar : fdiv (Finite (sum sq)) (Finite N) = Finite (var c)).
  { cbn [fdiv]. destruct (Req_dec_T N 0); [lra|].
    apply round_to; [rewrite HS; field; lra|].
    rewrite Rabs_right by lra. lra. }
  rewrite Hvar.
  (* the test for a constant feature *)
  assert (Hconst : Float64.is_constant_feature (Finite (var c)) (Finite (mean c))
                     (length c)
                   = Preprocessing.is_constant_feature (var c) (mean c)
                       (length c)).
  { unfold Float64.is_constant_feature, Preprocessing.is_constant_feature.
    fold N. cbn [fmul].
    assert (HNe : 0 <= N * eps <= 2 ^ 63 * 1)
      by (apply mult_bound; lra).
    rewrite (round_finite (N * eps)) by (rewrite Rabs_right; lra).
    cbn [fmul].
    assert (Hu : 0 <= N * eps * var c
                 <= 2 ^ 63 * 1 * (4 * 2 ^ 100 * 2 ^ 100))
      by (apply mult_bound; lra).
    rewrite (round_finite (N * eps * var c)) by (rewrite Rabs_right; lra).
    assert (HNm : 0 <= Rabs (N * mean c) <= 2 ^ 63 * 2 ^ 100).
    { rewrite Rabs_mult, (Rabs_right N) by lra.
      apply mult_bound; [lra|]. pose proof (Rabs_pos (mean c)). lra. }
    rewrite (round_finite (N * mean c)) by lra. cbn [fmul].
    assert (HNme : 0 <= Rabs (N * mean c * eps) <= 2 ^ 63 * 2 ^ 100 * 1).
    { rewrite Rabs_mult, (Rabs_right eps) by lra.
      apply mult_bound; lra. }
    rewrite (round_finite (N * mean c * eps)) by lra. cbn [fmul].
    set (t := N * mean c * eps) in *.
    assert (Htt : 0 <= t * t
                  <= (2 ^ 63 * 2 ^ 100 * 1) * (2 ^ 63 * 2 ^ 100 * 1)).
    { rewrite <- (Rabs_self_mult t). now apply mult_bound. }
    rewrite (round_finite (t * t)) by (rewrite Rabs_right; lra).
    cbn [fadd].
    rewrite (round_finite (N * eps * var c + t * t))
      by (rewrite Rabs_right; lra).
    cbn [fle]. replace (t ^ 2) with (t * t) by ring. reflexivity. }
  rewrite Hconst. f_equal. unfold feature_scale.
  destruct (Preprocessing.is_constant_feature _ _ _); [reflexivity|].
  cbn [fsqrt handle_zeros_in_scale_mask].
  destruct (Rlt_dec (var c) 0); [lra|reflexivity].
Qed.

(** The quotients the scaler forms from the entries of such a feature
    stay below [2^64] in magnitude, so the divisions are exact as well. *)
Lemma scaled_entry_agrees (b : bool) c x :
  INR (length c) < 2 ^ 63 ->
  Forall (fun x => Rabs x <= 2 ^ 100) c -> In x c ->
  fdiv (if b then fsub (Finite x) (Finite (mean c)) else Finite x)
       (Finite (feature_scale (length c) c))
  = Finite ((if b then x - mean c else x) / feature_scale (length c) c).
Proof.
  intros HN Hc Hx.
  assert (Hne : c <> []) by (intros ->; destruct Hx).
  pose proof (length_ge_1 c Hne) as H1.
  pose proof threshold_large as Ht. pose proof eps_pos as He.
  pose proof (mean_abs_bound c _ Hne Hc) as Hm.
  pose proof (feature_scale_pos (length c) c) as Hs.
  assert (Hxb : Rabs x <= 2 ^ 100)
    by (rewrite List.Forall_forall in Hc; now apply Hc).
  assert (Hd : Rabs (x - mean c) <= 2 * 2 ^ 100).
  { pose proof (Rabs_triang x (- mean c)) as Htr.
    rewrite Rabs_Ropp in Htr. unfold Rminus. lra. }
  assert (Hnum : (if b then fsub (Finite x) (Finite (mean c)) else Finite x)
                 = Finite (if b then x - mean c else x)).
  { destruct b; [|reflexivity]. cbn [fsub fopp fadd].
    apply round_to; [reflexivity|lra]. }
  rewrite Hnum. cbn [fdiv].
  destruct (Req_dec_T (feature_scale (length c) c) 0); [lra|].
  apply round_finite.
  set (N := INR (length c)) in *.
  destruct (Preprocessing.is_constant_feature (var c) (mean c) (length c))
    eqn:E.
  - rewrite (feature_scale_constant _ _ E).
    replace ((if b then x - mean c else x) / 1)
      with (if b then x - mean c else x) by (destruct b; lra).
    destruct b; lra.
  - rewrite (feature_scale_varying _ _ E) in *.
    pose proof (deviation_bound c x Hx) as Hdev. fold N in Hdev.
    pose proof (varying_mean_bound c Hne E) as Hmb.
    set (s := sqrt (var c)) in *.
    assert (Hbound : Rabs (if b then x - mean c else x) <= (2 ^ 52 + N) * s).
    { destruct b; [nra|].
      assert (Hmean : Rabs (mean c) <= 2 ^ 52 * s).
      { unfold eps in Hmb.
        apply (Rmult_le_reg_r (/ 2 ^ 52)); [lra|].
        rewrite (Rmult_comm (2 ^ 52)), Rmult_assoc, Rinv_r by lra. lra. }
      replace x with (mean c + (x - mean c)) by ring.
      pose proof (Rabs_triang (mean c) (x - mean c)). lra. }
    unfold Rdiv. rewrite Rabs_mult, Rabs_inv, (Rabs_right s) by lra.
    assert (Hq : Rabs (if b then x - mean c else x) * / s <= 2 ^ 52 + N).
    { apply (Rmult_le_reg_r s); [lra|].
      rewrite Rmult_assoc, Rinv_l by lra. lra. }
    lra.
Qed.

(** *** The scaler on doubles and the scaler on real numbers *)

Lemma column_length j (X : matrix) : length (column j X) = length X.
Proof. apply length_map. Qed.

Lemma column_nonempty j (X : matrix) : X <> [] -> column j X <> [].
Proof. destruct X; [congruence|discriminate]. Qed.

Lemma column_entry j (X : matrix) r x :
  In r X -> r !! j = Some x -> In x (column j X).
Proof.
  intros Hr Hx. unfold column. apply in_map_iff. exists r.
  split; [|exact Hr]. now rewrite nth_lookup, Hx.
Qed.

Lemma column_in_range j (X : matrix) :
  in_range X -> Forall (fun x => Rabs x <= 2 ^ 100) (column j X).
Proof.
  intros [_ HX]. apply List.Forall_forall. intros x Hx.
  apply in_map_iff in Hx as (r & <- & Hr).
  rewrite List.Forall_forall in HX. specialize (HX r Hr).
  rewrite nth_lookup. destruct (r !! j) as [z|] eqn:E; cbn [default].
  - rewrite List.Forall_forall in HX.
    assert (Hin : In z r)
      by (apply list_elem_of_In, list_elem_of_lookup; now exists j).
    unfold Datatypes.id.
    destruct (HX z Hin) as [Hz|Hz]; [|lra].
    rewrite Hz, Rabs_R0. lra.
  - rewrite Rabs_R0. lra.
Qed.

(** On an array in range the scaler on doubles meets no overflow: it
    returns the numbers of the real-number scaler. *)
Lemma fit_transform_agrees b (X : matrix) V :
  well_shaped X V -> in_range X ->
  Float64.fit_transform b X
  = Ok (Float64.lift (map (transform_row b (fit_stats X)) X)).
Proof.
  intros Hshape Hrange.
  destruct (check_array_well_shaped X V Hshape) as [Hchk Hn].
  pose proof Hshape as (Hne & HV & Hrows).
  unfold Float64.fit_transform. rewrite Hchk. cbn [bind]. f_equal.
  unfold Float64.lift. rewrite map_map. apply map_ext_in. intros r Hr.
  assert (Hlen : length r = V)
    by (rewrite List.Forall_forall in Hrows; now apply Hrows).
  apply list_eq. intros j.
  change (map Float64.Finite ?l) with (Float64.Finite <$> l).
  rewrite list_lookup_fmap. unfold transform_row.
  rewrite !lookup_zip_with.
  destruct (r !! j) as [x|] eqn:Hx; cbn [mbind option_bind fmap option_map].
  2: { destruct b; [rewrite lookup_zip_with, Hx|rewrite Hx]; reflexivity. }
  assert (Hj : (j < n_features X)%nat)
    by (rewrite Hn, <- Hlen; now apply lookup_lt_Some in Hx).
  change (map ?f ?l) with (f <$> l).
  rewrite list_lookup_fmap, lookup_seq_lt by exact Hj.
  cbn [fmap option_map mbind option_bind plus].
  rewrite (scale_lookup X j Hj).
  pose proof (column_in_range j X Hrange) as Hc.
  pose proof (column_nonempty j X Hne) as Hcne.
  assert (HN : INR (length (column j X)) < 2 ^ 63)
    by (rewrite column_length; apply Hrange).
  cbn [fmap option_fmap option_map mbind option_bind].
  rewrite (fit_feature_agrees (column j X) Hcne HN Hc). cbn [fst snd].
  rewrite column_length.
  pose proof (scaled_entry_agrees b (column j X) x HN Hc
                (column_entry j X r x Hr Hx)) as Hq.
  rewrite column_length in Hq. rewrite Hq.
  destruct b.
  - rewrite lookup_zip_with, Hx, (mean_lookup X j Hj). reflexivity.
  - rewrite Hx. reflexivity.
Qed.

(** *** Zero vectors, constant features and overflow *)






End Float64Proofs.

(** ** The Delta classifier *)

Module DeltaProofs.
Import Py Preprocessing DeltaClassifier PreprocessingProofs Float64Proofs.
Open Scope R_scope.

Lemma scaler_transform_fitted b st X V :
  well_shaped X V -> n_features_in_ st = V ->
  scaler_transform {| with_mean := b; stats := Some st |} X
  = Ok (map (transform_row b st) X).
Proof.
  intros Hshape HV. unfold scaler_transform. cbn [stats with_mean].
  destruct (check_array_well_shaped X V Hshape) as [-> Hn]. cbn [bind].
  now rewrite Hn, HV, Nat.eqb_refl.
Qed.

Lemma scaler_fit_transform_ok b X V :
  well_shaped X V ->
  scaler_fit_transform (new_scaler b) X
  = Ok ({| with_mean := b; stats := Some (fit_stats X) |},
        map (transform_row b (fit_stats X)) X).
Proof.
  intros Hshape. unfold scaler_fit_transform, scaler_fit.
  destruct (check_array_well_shaped X V Hshape) as [E Hn].
  rewrite E. cbn [bind new_scaler with_mean].
  rewrite (scaler_transform_fitted b (fit_stats X) X V Hshape Hn).
  reflexivity.
Qed.

Lemma scaler_fit_transform_raises b X :
  check_array X = Raise ValueError ->
  scaler_fit_transform (new_scaler b) X = Raise ValueError.
Proof.
  intros E. unfold scaler_fit_transform, scaler_fit. now rewrite E.
Qed.

(** A well-shaped training matrix is accepted, whatever the labels. *)
Lemma fit_ok self X y V :
  well_shaped X V ->
  fit self X y =
    ({| train_y := Some y;
        scaler := Some {| with_mean := false; stats := Some (fit_stats X) |};
        train_X := Some (map (transform_row false (fit_stats X)) X) |},
     Ok tt).
Proof.
  intros Hshape. unfold fit.
  now rewrite (scaler_fit_transform_ok false X V Hshape).
Qed.

Lemma scale_length X : length (scale_ (fit_stats X)) = n_features X.
Proof. cbn [fit_stats scale_]. now rewrite !length_map, length_seq. Qed.


Lemma transform_row_length b X V r :
  n_features X = V -> length r = V ->
  length (transform_row b (fit_stats X) r) = V.
Proof.
  intros Hn Hr. unfold transform_row.
  rewrite length_zip_with, scale_length, Hn.
  destruct b; [rewrite length_zip_with|]; cbn [fit_stats mean_];
    rewrite ?length_map, ?length_seq; lia.
Qed.

Lemma well_shaped_row X V i r :
  well_shaped X V -> X !! i = Some r -> length r = V.
Proof.
  intros (_ & _ & Hrows) Hi. rewrite List.Forall_forall in Hrows.
  apply Hrows. apply list_elem_of_In. apply list_elem_of_lookup. now exists i.
Qed.

(** C4 (counterexample).  The feature [10^16, 10^16 + 4] has the
    population standard deviation 2, and the scaler takes it for a
    constant feature: [fit] stores the column as it is, not divided by 2. *)
Lemma fit_keeps_near_constant_column :
  population_std [10 ^ 16; 10 ^ 16 + 4] = 2 /\
  train_X (fst (fit new_Delta [[10 ^ 16]; [10 ^ 16 + 4]] ["A"; "B"]%string))
  = Some [[10 ^ 16]; [10 ^ 16 + 4]].
Proof.
  split.
  - unfold population_std, mean. cbn [map sum fold_right length INR].
    apply sqrt_lem_1; lra.
  - rewrite (fit_ok new_Delta _ _ 1) by shape_by_computation.
    cbn [fst train_X]. unfold transform_row.
    cbn [fit_stats scale_ n_features length seq map column nth].
    rewrite (feature_scale_one 2 [10 ^ 16; 10 ^ 16 + 4] (10 ^ 16 + 2) 4);
      [|eval_var|eval_var|cbn [INR]; unfold eps; lra].
    cbn [zip_with].
    replace (10 ^ 16 / 1) with (10 ^ 16) by lra.
    replace ((10 ^ 16 + 4) / 1) with (10 ^ 16 + 4) by lra.
    reflexivity.
Qed.

(** The same among relative frequencies: the feature
    [1/2, 1/2 + 2^-53] has the population standard deviation [2^-54], and
    [fit] stores it as it is. *)
Example fit_keeps_near_constant_frequencies :
  population_std [1 / 2; 1 / 2 + / 2 ^ 53] = / 2 ^ 54 /\
  train_X (fst (fit new_Delta [[1 / 2]; [1 / 2 + / 2 ^ 53]] ["A"; "B"]%string))
  = Some [[1 / 2]; [1 / 2 + / 2 ^ 53]].
Proof.
  split.
  - unfold population_std, mean. cbn [map sum fold_right length INR].
    apply sqrt_lem_1; lra.
  - rewrite (fit_ok new_Delta _ _ 1) by shape_by_computation.
    cbn [fst train_X]. unfold transform_row.
    cbn [fit_stats scale_ n_features length seq map column nth].
    rewrite (feature_scale_one 2 [1 / 2; 1 / 2 + / 2 ^ 53]
               (1 / 2 + / 2 ^ 54) (/ 2 ^ 54 * / 2 ^ 54));
      [|eval_var|eval_var|cbn [INR]; unfold eps; lra].
    cbn [zip_with].
    replace (1 / 2 / 1) with (1 / 2) by lra.
    replace ((1 / 2 + / 2 ^ 53) / 1) with (1 / 2 + / 2 ^ 53) by lra.
    reflexivity.
Qed.

(** C4 (as the code has it).  [fit] accepts every well-shaped training
    matrix; on a matrix in range nothing overflows, and entry [(i, j)] of
    the stored reference matrix is [X[i][j]] divided by the scale of
    feature [j].  With [mu] the mean of the feature over the [N] training
    rows and [sigma] its population standard deviation (the root of the
    mean squared deviation from [mu], with divisor [N]), the scale is
    [sigma], unless the feature counts as constant,
    [sigma^2 <= N * eps * sigma^2 + (N * mu * eps)^2] with [eps = 2^-52],
    and then it is one.  No mean is subtracted. *)
Theorem fit_scales_by_population_std self (X : matrix) (y : list string)
    (V : nat) :
  well_shaped X V -> in_range X ->
  exists Xs,
    snd (fit self X y) = Ok tt /\
    train_X (fst (fit self X y)) = Some Xs /\
    Float64.fit_transform false X = Ok (Float64.lift Xs) /\
    Forall2 (fun r r' => length r' = length r) X Xs /\
    forall j, (j < V)%nat ->
      exists mu sigma,
        mu * INR (length X)
          = fold_right Rplus 0 (map (fun r => nth j r 0) X) /\
        0 <= sigma /\
        sigma * sigma * INR (length X)
          = fold_right Rplus 0
              (map (fun r => (nth j r 0 - mu) * (nth j r 0 - mu)) X) /\
        forall i r x, X !! i = Some r -> r !! j = Some x ->
          exists r', Xs !! i = Some r' /\
            r' !! j =
              Some (x / (if Rle_dec (sigma * sigma)
                              (INR (length X) * / 2 ^ 52 * (sigma * sigma)
                               + (INR (length X) * mu * / 2 ^ 52) ^ 2)
                         then 1 else sigma)).
Proof.
  intros Hshape Hrange. rewrite (fit_ok self X y V Hshape).
  cbn [fst snd train_X].
  pose proof (proj2 (check_array_well_shaped X V Hshape)) as Hn.
  pose proof Hshape as (Hne & HV & Hrows).
  eexists. split; [reflexivity|]. split; [reflexivity|].
  split; [now apply fit_transform_agrees with (V := V)|]. split.
  { apply Forall2_fmap_r. apply Forall_Forall2_diag.
    apply List.Forall_forall. intros r Hr.
    rewrite List.Forall_forall in Hrows.
    unfold compose.
    rewrite (transform_row_length false X V r Hn (Hrows r Hr)).
    symmetry. now apply Hrows. }
  intros j Hj.
  pose proof (INR_length_pos X Hne) as Hpos.
  assert (Hsum : fold_right Rplus 0 (map (fun r => nth j r 0) X)
                 = sum (column j X)) by reflexivity.
  assert (Hsq : fold_right Rplus 0
                  (map (fun r => (nth j r 0 - mean (column j X))
                                 * (nth j r 0 - mean (column j X))) X)
                = sum (map (fun x => (x - mean (column j X))
                                     * (x - mean (column j X)))
                           (column j X))).
  { unfold column. now rewrite map_map. }
  exists (mean (column j X)), (sqrt (var (column j X))).
  split; [|split; [apply sqrt_pos|split]].
  - rewrite Hsum. unfold mean. rewrite column_length. field. lra.
  - rewrite Hsq, sqrt_var_sqr, var_mean_squared_deviation, column_length.
    field. lra.
  - intros i r x Hi Hx. eexists. split.
    + change (map ?f ?l) with (f <$> l). rewrite list_lookup_fmap, Hi.
      reflexivity.
    + unfold transform_row.
      rewrite lookup_zip_with, Hx, (scale_lookup X j) by lia.
      cbn [mbind option_bind]. do 2 f_equal.
      unfold feature_scale, is_constant_feature, eps.
      rewrite sqrt_var_sqr.
      destruct (Rle_dec _ _); reflexivity.
Qed.

Lemma fit_scales_by_population_std_witness :
  train_X (fst (fit new_Delta [[3; 0]; [1; 5]] ["A"; "B"]%string))
  = Some [[3 / 1; 0 / (5 / 2)]; [1 / 1; 5 / (5 / 2)]].
Proof.
  destruct (fit_scales_by_population_std new_Delta [[3; 0]; [1; 5]]
              ["A"; "B"]%string 2) as (Xs & _ & -> & _ & Hlen & Hcols).
  - shape_by_computation.
  - split; [cbn [length INR]; lra|].
    entries_in_range.
  - destruct (Hcols 0%nat ltac:(lia)) as (mu0 & s0 & Hm0 & Hp0 & Hs0 & He0).
    destruct (Hcols 1%nat ltac:(lia)) as (mu1 & s1 & Hm1 & Hp1 & Hs1 & He1).
    cbn [length INR map nth fold_right] in Hm0, Hs0, He0, Hm1, Hs1, He1.
    assert (mu0 = 2) as -> by lra. assert (mu1 = 5 / 2) as -> by lra.
    assert (s0 = 1) as -> by nra. assert (s1 = 5 / 2) as -> by nra.
    destruct (Rle_dec _ _) as [H|_] in He0; [exfalso; lra|].
    destruct (Rle_dec _ _) as [H|_] in He1; [exfalso; lra|].
    destruct (He0 0%nat [3; 0] 3 eq_refl eq_refl) as (r0 & Hr0 & Ha).
    destruct (He1 0%nat [3; 0] 0 eq_refl eq_refl) as (r0' & Hr0' & Hb).
    destruct (He0 1%nat [1; 5] 1 eq_refl eq_refl) as (r1 & Hr1 & Hc).
    destruct (He1 1%nat [1; 5] 5 eq_refl eq_refl) as (r1' & Hr1' & Hd).
    rewrite Hr0 in Hr0'. injection Hr0' as <-.
    rewrite Hr1 in Hr1'. injection Hr1' as <-.
    inversion Hlen as [|? q0 ? Xs' Hl0 Hlen']; subst.
    inversion Hlen' as [|? q1 ? Xs'' Hl1 Hlen'']; subst.
    inversion Hlen''; subst.
    cbn in Hr0, Hr1. injection Hr0 as ->. injection Hr1 as ->.
    destruct r0 as [|a [|b [|]]]; try discriminate.
    destruct r1 as [|c [|d [|]]]; try discriminate.
    cbn in Ha, Hb, Hc, Hd. congruence.
Defined.

(** C3 (counterexample).  One training row and two labels: [fit] returns
    and keeps both labels. *)
Lemma fit_accepts_mismatched_labels :
  length ["B"; "G"]%string <> length [[1]] /\
  snd (fit new_Delta [[1]] ["B"; "G"]%string) = Ok tt /\
  train_y (fst (fit new_Delta [[1]] ["B"; "G"]%string))
  = Some ["B"; "G"]%string.
Proof.
  assert (Hshape : well_shaped [[1]] 1).
  { split; [discriminate|]. split; [lia|]. repeat constructor. }
  rewrite (fit_ok new_Delta [[1]] ["B"; "G"]%string 1 Hshape).
  cbn [fst snd train_y length]. repeat split. lia.
Qed.

Lemma fit_outcome self X y :
  snd (fit self X y) =
    match check_array X with
    | Ok _ => Ok tt
    | Raise e => Raise e
    | OutOfFuel => OutOfFuel
    end.
Proof.
  unfold fit.
  destruct (check_array_total X) as [E|E].
  - apply check_array_inv in E as E'. destruct E' as [_ Hshape].
    rewrite (scaler_fit_transform_ok false X _ Hshape), E. reflexivity.
  - rewrite (scaler_fit_transform_raises false X E), E. reflexivity.
Qed.

(** C3 (as the code has it).  [fit] raises a [ValueError] when the training
    matrix has no row; whether it returns does not depend on the labels:
    for a well-shaped matrix it returns for every label sequence, of any
    length, and stores the sequence as given. *)
Theorem fit_checks_rows_not_labels self (X : matrix) (y : list string) :
  (length X = 0%nat -> snd (fit self X y) = Raise ValueError) /\
  (forall y', snd (fit self X y') = snd (fit self X y)) /\
  (forall V, well_shaped X V ->
     snd (fit self X y) = Ok tt /\ train_y (fst (fit self X y)) = Some y).
Proof.
  split; [|split].
  - intros HN. destruct X; [|discriminate].
    now rewrite fit_outcome, check_array_empty.
  - intros y'. now rewrite !fit_outcome.
  - intros V Hshape. now rewrite (fit_ok self X y V Hshape).
Qed.

Lemma fit_checks_rows_not_labels_witness :
  snd (fit new_Delta [] ["B"]%string) = Raise ValueError /\
  snd (fit new_Delta [[1]] []) = Ok tt /\
  train_y (fst (fit new_Delta [[1]] [])) = Some [].
Proof.
  split.
  - apply (proj1 (fit_checks_rows_not_labels new_Delta [] ["B"]%string)).
    reflexivity.
  - apply (proj2 (proj2 (fit_checks_rows_not_labels new_Delta [[1]] [])) 1%nat).
    split; [discriminate|]. split; [lia|]. repeat constructor.
Defined.

(** *** [np.argmin] returns the first minimum *)








Lemma n_features_transformed b X X' V :
  n_features X = V -> well_shaped X' V ->
  n_features (map (transform_row b (fit_stats X)) X') = V.
Proof.
  intros Hn (Hne & _ & Hrows). destruct X' as [|r X']; [congruence|].
  cbn [map n_features]. apply transform_row_length; [exact Hn|].
  now inversion Hrows.
Qed.

(** *** [predict] on a fitted classifier *)

(** What [predict] computes on the state [fit] leaves behind. *)
Lemma predict_fitted self X y V Xq (m : metric) :
  well_shaped X V -> well_shaped Xq V ->
  snd (predict (fst (fit self X y)) Xq m) =
    (idx <- argmin_axis1
              (map (fun a => map (fun b => m a b)
                                 (map (transform_row false (fit_stats X)) X))
                   (map (transform_row false (fit_stats X)) Xq)) ;;
     take y idx).
Proof.
  intros Hshape Hq.
  pose proof (proj2 (check_array_well_shaped X V Hshape)) as Hn.
  rewrite (fit_ok self X y V Hshape). unfold predict.
  cbn [fst snd scaler train_X train_y getattr bind].
  rewrite (scaler_transform_fitted false (fit_stats X) Xq V Hq Hn).
  cbn [bind]. unfold cdist.
  rewrite (n_features_transformed false X Xq V Hn Hq).
  rewrite (n_features_transformed false X X V Hn Hshape).
  rewrite Nat.eqb_refl. reflexivity.
Qed.




(** C8.  [predict] leaves the object as it found it: the reference matrix,
    the labels and the scaler with its scale are those of [fit]; and the
    query is standardized with the scale computed from the training
    matrix alone. *)
Theorem predict_frame self (X : matrix) (y : list string) (V : nat)
    (Xq : matrix) (m : metric) :
  well_shaped X V ->
  fst (predict (fst (fit self X y)) Xq m) = fst (fit self X y) /\
  exists sc,
    scaler (fst (predict (fst (fit self X y)) Xq m)) = Some sc /\
    stats sc = Some (fit_stats X) /\
    (well_shaped Xq V ->
     scaler_transform sc Xq
     = Ok (map (fun q => zip_with Rdiv q (scale_ (fit_stats X))) Xq)).
Proof.
  intros Hshape. split; [reflexivity|].
  rewrite (fit_ok self X y V Hshape). cbn [predict fst scaler].
  eexists. split; [reflexivity|]. split; [reflexivity|].
  intros Hq. apply scaler_transform_fitted with (V := V); [exact Hq|].
  apply (proj2 (check_array_well_shaped X V Hshape)).
Qed.

Lemma predict_frame_witness :
  fst (predict (fst (fit new_Delta [[1; 0]; [0; 1]] ["A"; "B"]%string))
               [[9/10; 1/10]] cityblock)
  = fst (fit new_Delta [[1; 0]; [0; 1]] ["A"; "B"]%string).
Proof.
  destruct (predict_frame new_Delta [[1; 0]; [0; 1]] ["A"; "B"]%string 2
              [[9/10; 1/10]] cityblock) as [H _].
  - split; [discriminate|]. split; [lia|]. repeat constructor.
  - exact H.
Defined.

(** The state after any [predict] is the state before it, fitted or not. *)
Lemma predict_state self Xq (m : metric) : fst (predict self Xq m) = self.
Proof. reflexivity. Qed.

Lemma cdist_ext XA XB (m m' : metric) :
  (forall u v, m' u v = m u v) -> cdist XA XB m' = cdist XA XB m.
Proof.
  intros H. unfold cdist. destruct (_ =? _)%nat; [|reflexivity].
  f_equal. apply map_ext. intros a. apply map_ext. intros b. apply H.
Qed.

(** Two metrics that compute the same distances give the same labels. *)
Lemma predict_ext self X (m m' : metric) :
  (forall u v, m' u v = m u v) ->
  snd (predict self X m') = snd (predict self X m).
Proof.
  intros H. unfold predict. cbn [snd].
  destruct (getattr (scaler self)) as [sc| |]; cbn [bind]; try reflexivity.
  destruct (scaler_transform sc X) as [Xs| |]; cbn [bind]; try reflexivity.
  destruct (getattr (train_X self)) as [tX| |]; cbn [bind]; try reflexivity.
  now rewrite (cdist_ext Xs tX m m' H).
Qed.

(** C9.  The labels [predict] returns are a function of the object, the
    query and the metric of the call: after an earlier call, on any query
    and under any metric, a call with the same query and a metric that
    computes the same distances returns what it returns on the object as
    fitted; so does the repetition of a call. *)
Theorem predict_deterministic self (X X0 : matrix) (m m' m0 : metric) :
  (forall u v, m' u v = m u v) ->
  snd (predict (fst (predict self X0 m0)) X m') = snd (predict self X m) /\
  snd (predict (fst (predict self X m)) X m') = snd (predict self X m).
Proof.
  intros H. rewrite !predict_state. split; now apply predict_ext.
Qed.

Lemma predict_deterministic_witness :
  snd (predict (fst (predict (fst (fit new_Delta [[1; 0]; [0; 1]]
                                       ["A"; "B"]%string))
                             [[1/2; 1/2]] chebyshev))
               [[9/10; 1/10]] cityblock)
  = snd (predict (fst (fit new_Delta [[1; 0]; [0; 1]] ["A"; "B"]%string))
                 [[9/10; 1/10]] cityblock).
Proof.
  apply (predict_deterministic
           (fst (fit new_Delta [[1; 0]; [0; 1]] ["A"; "B"]%string))
           [[9/10; 1/10]] [[1/2; 1/2]] cityblock cityblock chebyshev).
  intros u v. reflexivity.
Defined.

(** *** The scenarios of the specification, computed *)

Lemma scale_two_points : scale_ (fit_stats [[1; 0]; [0; 1]]) = [1/2; 1/2].
Proof.
  cbn [fit_stats scale_ n_features length seq map column nth].
  rewrite (feature_scale_value 2 [1; 0] (1/2) (1/4) (1/2));
    [|eval_var|eval_var|apply sqrt_lem_1; lra|cbn [INR]; unfold eps; lra].
  rewrite (feature_scale_value 2 [0; 1] (1/2) (1/4) (1/2));
    [|eval_var|eval_var|apply sqrt_lem_1; lra|cbn [INR]; unfold eps; lra].
  reflexivity.
Qed.

Lemma scale_one_three : scale_ (fit_stats [[1]; [3]]) = [1].
Proof.
  cbn [fit_stats scale_ n_features length seq map column nth].
  rewrite (feature_scale_value 2 [1; 3] 2 1 1);
    [|eval_var|eval_var|apply sqrt_lem_1; lra|cbn [INR]; unfold eps; lra].
  reflexivity.
Qed.

Ltac eval_rabs := unfold Rabs; repeat destruct Rcase_abs; lra.

(** Training rows [[1,0],[0,1]] labelled A and B: the query [0.9, 0.1] is
    attributed to A under the city-block metric. *)
Example predict_scenario :
  snd (predict (fst (fit new_Delta [[1; 0]; [0; 1]] ["A"; "B"]%string))
               [[9/10; 1/10]] cityblock) = Ok ["A"%string].
Proof.
  rewrite (predict_fitted new_Delta [[1; 0]; [0; 1]] ["A"; "B"]%string 2);
    [|shape_by_computation|shape_by_computation].
  unfold transform_row. rewrite scale_two_points.
  cbn [map zip_with argmin_axis1 mapM argmin argmin_from bind].
  unfold cityblock. cbn [zip_with sum fold_right].
  destruct (Rlt_dec _ _) as [H|H]; [|reflexivity].
  exfalso. revert H. eval_rabs.
Qed.


(** With fewer labels than training rows, which [fit] accepts, a query
    nearest to an unlabelled row makes [predict] raise. *)
Example predict_short_labels :
  snd (fit new_Delta [[1]; [3]] ["A"]%string) = Ok tt /\
  snd (predict (fst (fit new_Delta [[1]; [3]] ["A"]%string)) [[3]] cityblock)
  = Raise IndexError.
Proof.
  split; [reflexivity|].
  rewrite (predict_fitted new_Delta [[1]; [3]] ["A"]%string 1);
    [|shape_by_computation|shape_by_computation].
  unfold transform_row. rewrite scale_one_three.
  cbn [map zip_with argmin_axis1 mapM argmin argmin_from bind].
  unfold cityblock. cbn [zip_with sum fold_right].
  destruct (Rlt_dec _ _) as [H|H]; [reflexivity|].
  exfalso. apply H. eval_rabs.
Qed.

Lemma scale_constant_column : scale_ (fit_stats [[2; 7]; [0; 7]]) = [1; 1].
Proof.
  cbn [fit_stats scale_ n_features length seq map column nth].
  rewrite (feature_scale_value 2 [2; 0] 1 1 1);
    [|eval_var|eval_var|apply sqrt_lem_1; lra|cbn [INR]; unfold eps; lra].
  rewrite (feature_scale_one 2 [7; 7] 7 0);
    [|eval_var|eval_var|cbn [INR]; unfold eps; lra].
  reflexivity.
Qed.

Ltac eval_rmax :=
  unfold Rmax, Rabs; repeat destruct Rle_dec; repeat destruct Rcase_abs; lra.

(** The metric-swap scenario: one fitted classifier, one query, three
    calls.  Under city-block the second reference row is nearer; under
    Chebyshev both are equally far and the first decides; a third call
    under city-block answers as the first did. *)
Example predict_metric_swap :
  let fitted := fst (fit new_Delta [[2; 7]; [0; 7]] ["A"; "B"]%string) in
  let after_cityblock := fst (predict fitted [[1/2; 2]] cityblock) in
  let after_chebyshev := fst (predict after_cityblock [[1/2; 2]] chebyshev) in
  snd (predict fitted [[1/2; 2]] cityblock) = Ok ["B"%string] /\
  snd (predict after_cityblock [[1/2; 2]] chebyshev) = Ok ["A"%string] /\
  snd (predict after_chebyshev [[1/2; 2]] cityblock) = Ok ["B"%string].
Proof.
  cbv zeta. rewrite !predict_state.
  assert (Hc : snd (predict (fst (fit new_Delta [[2; 7]; [0; 7]]
                                      ["A"; "B"]%string))
                            [[1/2; 2]] cityblock) = Ok ["B"%string]).
  { rewrite (predict_fitted new_Delta [[2; 7]; [0; 7]] ["A"; "B"]%string 2);
      [|shape_by_computation|shape_by_computation].
    unfold transform_row. rewrite scale_constant_column.
    cbn [map zip_with argmin_axis1 mapM argmin argmin_from bind].
    unfold cityblock. cbn [zip_with sum fold_right].
    destruct (Rlt_dec _ _) as [H|H]; [reflexivity|].
    exfalso. apply H. eval_rabs. }
  split; [exact Hc|]. split; [|exact Hc].
  rewrite (predict_fitted new_Delta [[2; 7]; [0; 7]] ["A"; "B"]%string 2);
    [|shape_by_computation|shape_by_computation].
  unfold transform_row. rewrite scale_constant_column.
  cbn [map zip_with argmin_axis1 mapM argmin argmin_from bind].
  unfold chebyshev. cbn [zip_with fold_right].
  destruct (Rlt_dec _ _) as [H|H]; [|reflexivity].
  exfalso. revert H. eval_rmax.
Qed.

(** The divisor is the population deviation, not the sample one. *)
Example population_not_sample_std :
  population_std [1; 0] = 1/2 /\ sample_std [1; 0] <> 1/2.
Proof.
  split.
  - unfold population_std, mean. cbn [map sum fold_right length INR].
    apply sqrt_lem_1; lra.
  - assert (E : sample_std [1; 0] = sqrt (1/2)).
    { unfold sample_std, mean. cbn [map sum fold_right length INR].
      f_equal. lra. }
    rewrite E. intros H.
    pose proof (sqrt_sqrt (1/2) ltac:(lra)) as S. rewrite H in S. lra.
Qed.

End DeltaProofs.

(* ===================================================================== *)
(** * Part III: further properties of the notebooks' code *)
(* ===================================================================== *)

(** ** More on [load_directory] *)

Module SegmenterExtra.
Import Py Segmenter SegmenterProofs.

Lemma corpus_app_empty_l c : corpus_app empty_corpus c = c.
Proof. now destruct c. Qed.

Lemma corpus_app_empty_r c : corpus_app c empty_corpus = c.
Proof. destruct c. unfold corpus_app. cbn. now rewrite !app_nil_r. Qed.

Lemma corpus_app_assoc c1 c2 c3 :
  corpus_app (corpus_app c1 c2) c3 = corpus_app c1 (corpus_app c2 c3).
Proof. unfold corpus_app. cbn. now rewrite <- !app_assoc. Qed.

(** The loop only appends: its result on an accumulator is the accumulator
    followed by its result on the empty one. *)
Lemma while_slices_appends filename author lemmas L : forall fuel acc s e c,
  while_slices fuel filename author lemmas L acc s e c =
    (r <- while_slices fuel filename author lemmas L empty_corpus s e c ;;
     Ok (corpus_app acc r)).
Proof.
  induction fuel as [|fuel IH]; intros acc s e c; cbn [while_slices].
  - destruct (_ <? _)%Z; cbn [bind]; [reflexivity|].
    now rewrite corpus_app_empty_r.
  - destruct (_ <? _)%Z; cbn [bind]; [|now rewrite corpus_app_empty_r].
    unfold str_first, getitem.
    destruct author as [|a0 author']; cbn [bind]; [reflexivity|].
    destruct (_ !! 1%nat) as [title|]; cbn [bind]; [|reflexivity].
    rewrite IH. symmetry. rewrite IH. cbn [documents authors titles empty_corpus app].
    destruct (while_slices fuel filename (String a0 author') lemmas L
                empty_corpus (s + L) (e + L) (c + 1)) as [r| |];
      cbn [bind]; try reflexivity.
    f_equal. unfold corpus_app. cbn. now rewrite <- !app_assoc.
Qed.

Lemma load_file_appends fuel f L acc :
  load_file fuel f L acc =
    (r <- load_file fuel f L empty_corpus ;; Ok (corpus_app acc r)).
Proof.
  unfold load_file. destruct (negb _); cbn [bind].
  - now rewrite corpus_app_empty_r.
  - apply while_slices_appends.
Qed.

Lemma scan_appends fuel L : forall directory acc,
  scan fuel directory L acc =
    (r <- scan fuel directory L empty_corpus ;; Ok (corpus_app acc r)).
Proof.
  induction directory as [|f rest IH]; intros acc; cbn [scan bind].
  - now rewrite corpus_app_empty_r.
  - rewrite (load_file_appends fuel f L acc).
    destruct (load_file fuel f L empty_corpus) as [r| |]; cbn [bind];
      try reflexivity.
    rewrite IH. symmetry. rewrite IH.
    destruct (scan fuel rest L empty_corpus) as [r'| |]; cbn [bind];
      try reflexivity.
    now rewrite corpus_app_assoc.
Qed.

Lemma scan_app fuel L : forall d1 d2 acc,
  scan fuel (d1 ++ d2) L acc =
    (acc' <- scan fuel d1 L acc ;; scan fuel d2 L acc').
Proof.
  induction d1 as [|f d1 IH]; intros d2 acc; cbn [scan app bind];
    [reflexivity|].
  destruct (load_file fuel f L acc); cbn [bind]; auto.
Qed.

(** X1.  The entries are processed in directory order and their results
    concatenate: loading [d1 ++ d2] is loading [d1], then [d2], and
    putting the lists one after the other; if either part raises or never
    ends, so does the whole. *)
Theorem load_directory_app fuel (d1 d2 : list DirEntry) (max_length : Z) :
  load_directory fuel (d1 ++ d2) max_length =
    (c1 <- load_directory fuel d1 max_length ;;
     c2 <- load_directory fuel d2 max_length ;;
     Ok (corpus_app c1 c2)).
Proof.
  unfold load_directory. rewrite scan_app.
  destruct (scan fuel d1 max_length empty_corpus) as [c1| |]; cbn [bind];
    try reflexivity.
  apply scan_appends.
Qed.

Lemma while_slices_parallel filename author lemmas L : forall fuel acc s e c r,
  while_slices fuel filename author lemmas L acc s e c = Ok r ->
  length (documents acc) = length (authors acc) ->
  length (authors acc) = length (titles acc) ->
  length (documents r) = length (authors r) /\
  length (authors r) = length (titles r).
Proof.
  induction fuel as [|fuel IH]; intros acc s e c r; cbn [while_slices].
  - destruct (_ <? _)%Z; [discriminate|]. intros [= <-]. auto.
  - destruct (_ <? _)%Z; [|intros [= <-]; auto].
    unfold str_first, getitem.
    destruct author as [|a0 author']; cbn [bind]; [discriminate|].
    destruct (_ !! 1%nat) as [title|]; cbn [bind]; [|discriminate].
    intros H H1 H2. apply IH in H; [exact H| |];
      cbn [documents authors titles]; rewrite !length_app; simpl; lia.
Qed.

Lemma scan_parallel fuel L : forall directory acc r,
  scan fuel directory L acc = Ok r ->
  length (documents acc) = length (authors acc) ->
  length (authors acc) = length (titles acc) ->
  length (documents r) = length (authors r) /\
  length (authors r) = length (titles r).
Proof.
  induction directory as [|f rest IH]; intros acc r; cbn [scan].
  - intros [= <-]. auto.
  - destruct (load_file fuel f L acc) as [acc'| |] eqn:E; cbn [bind];
      try discriminate.
    intros H H1 H2. unfold load_file in E.
    destruct (negb _).
    + injection E as <-. now apply (IH acc r).
    + destruct (while_slices_parallel _ _ _ _ _ _ _ _ _ _ E H1 H2).
      now apply (IH acc' r).
Qed.

(** X2.  Whenever [load_directory] returns, its three lists have the same
    length: every document has its author label and its title. *)
Theorem load_directory_parallel fuel (directory : list DirEntry)
    (max_length : Z) (c : corpus) :
  load_directory fuel directory max_length = Ok c ->
  length (documents c) = length (authors c) /\
  length (authors c) = length (titles c).
Proof.
  intros H. now apply (scan_parallel fuel max_length directory empty_corpus c).
Qed.

Lemma load_directory_parallel_witness :
  exists c,
    load_directory 5
      [ {| name := "B_ep.txt"; contents := "Et qui in non ad" |} ] 2 = Ok c /\
    length (documents c) = length (authors c) /\
    length (authors c) = length (titles c).
Proof.
  eexists. split; [reflexivity|].
  apply (load_directory_parallel 5
           [ {| name := "B_ep.txt"; contents := "Et qui in non ad" |} ] 2
           _ eq_refl).
Defined.

Lemma scan_filter_txt fuel L : forall directory acc,
  scan fuel (List.filter (fun f => endswith (name f) ".txt") directory) L acc
  = scan fuel directory L acc.
Proof.
  induction directory as [|f rest IH]; intros acc; [reflexivity|].
  cbn [List.filter scan]. destruct (endswith (name f) ".txt") eqn:E.
  - cbn [scan]. destruct (load_file fuel f L acc); cbn [bind]; auto.
  - rewrite (load_file_skipped fuel f L acc E). cbn [bind]. apply IH.
Qed.

(** X3.  Entries whose name does not end in '.txt' contribute nothing and
    cannot make the call fail: dropping them from the directory leaves the
    result as it is. *)
Theorem load_directory_ignores_other_files fuel (directory : list DirEntry)
    (max_length : Z) :
  load_directory fuel
    (List.filter (fun f => endswith (name f) ".txt") directory) max_length
  = load_directory fuel directory max_length.
Proof. apply scan_filter_txt. Qed.

(** *** What one well-named file contributes *)

Lemma author_is_first_char filename :
  filename <> EmptyString ->
  str_first (fst (splitext filename)) = str_first filename.
Proof.
  intros Hne. unfold splitext.
  destruct (rfind "."%char filename) as [i|]; [|reflexivity].
  destruct (all_chars _ (String.substring 0 i filename)) eqn:Hd;
    [reflexivity|].
  cbn [fst]. destruct filename as [|c s]; [congruence|].
  destruct i as [|i]; [discriminate|]. reflexivity.
Qed.

Section OneFile.

Variables (filename author : string) (lemmas : list string) (max_length : Z).
Variables (a title : string).
Hypothesis max_length_pos : (0 < max_length)%Z.
Hypothesis author_ok : str_first author = Ok a.
Hypothesis title_ok :
  getitem (split_on "_"%char (replace ".txt" "" filename)) 1 = Ok title.

Let n : Z := Z.of_nat (length lemmas).

(** The lists the loop builds from round [k] on. *)
Lemma while_slices_windows : forall fuel k,
  (iterations n max_length ((Z.of_nat k + 1) * max_length) <= Z.of_nat fuel)%Z ->
  while_slices fuel filename author lemmas max_length empty_corpus
    (Z.of_nat k * max_length) ((Z.of_nat k + 1) * max_length) (Z.of_nat k + 1)
  = Ok (let m := Z.to_nat (iterations n max_length
                             ((Z.of_nat k + 1) * max_length)) in
        {| documents :=
             map (fun i => join " " (window lemmas max_length i)) (seq k m);
           authors := replicate m a;
           titles :=
             map (fun i => (title ++ "-" ++ str_of_int (Z.of_nat i + 1))%string)
                 (seq k m) |}).
Proof.
  induction fuel as [|fuel IH]; intros k Hfuel;
    pose proof (iterations_nonneg n max_length
                  ((Z.of_nat k + 1) * max_length) max_length_pos) as H0.
  - assert (E : iterations n max_length ((Z.of_nat k + 1) * max_length) = 0%Z)
      by lia.
    rewrite E. cbn [while_slices]. fold n. unfold iterations in E.
    destruct (Z.ltb_spec ((Z.of_nat k + 1) * max_length) n); [|reflexivity].
    assert (0 <= (n - 1 - (Z.of_nat k + 1) * max_length) / max_length)%Z
      by (apply Z.div_pos; lia).
    lia.
  - cbn [while_slices]. fold n.
    destruct (Z.ltb_spec ((Z.of_nat k + 1) * max_length) n) as [He|He].
    + rewrite author_ok, title_ok. cbn [bind].
      rewrite (iterations_step n max_length _ max_length_pos He) in Hfuel |- *.
      assert (E1 : (Z.of_nat k * max_length + max_length
                    = Z.of_nat (S k) * max_length)%Z)
        by (rewrite Nat2Z.inj_succ; ring).
      assert (E2 : ((Z.of_nat k + 1) * max_length + max_length
                    = (Z.of_nat (S k) + 1) * max_length)%Z)
        by (rewrite Nat2Z.inj_succ; ring).
      assert (E3 : (Z.of_nat k + 1 + 1 = Z.of_nat (S k) + 1)%Z)
        by (rewrite Nat2Z.inj_succ; ring).
      rewrite E2 in Hfuel. rewrite E1, E2, E3.
      pose proof (iterations_nonneg n max_length
                    ((Z.of_nat (S k) + 1) * max_length) max_length_pos) as H1.
      rewrite while_slices_appends, IH by lia. cbn [bind].
      rewrite Z2Nat.inj_add by lia.
      change (Z.to_nat 1) with 1%nat. cbn [Nat.add seq map replicate].
      unfold corpus_app, window. cbn [documents authors titles empty_corpus app].
      reflexivity.
    + unfold iterations.
      destruct (Z.ltb_spec ((Z.of_nat k + 1) * max_length) n); [lia|].
      reflexivity.
Qed.

End OneFile.

Lemma one_file_corpus fuel (f : DirEntry) (max_length : Z) :
  well_named (name f) = true -> (0 < max_length)%Z ->
  (token_count (contents f) <= fuel)%nat ->
  exists a title,
    str_first (name f) = Ok a /\
    (split_on "_"%char (replace ".txt" "" (name f))) !! 1%nat = Some title /\
    load_directory fuel [f] max_length =
      Ok (let lemmas := split (lower (contents f)) in
          let m := Z.to_nat ((Z.of_nat (token_count (contents f)) - 1)
                             / max_length) in
          {| documents :=
               map (fun k => join " " (window lemmas max_length k)) (seq 0 m);
             authors := replicate m a;
             titles :=
               map (fun k => (title ++ "-" ++ str_of_int (Z.of_nat k + 1))%string)
                   (seq 0 m) |}).
Proof.
  intros Hname HL Hfuel. unfold well_named in Hname.
  apply andb_prop in Hname as [Hext Hus].
  assert (Hne : name f <> EmptyString)
    by now apply (endswith_nonempty _ ".txt").
  destruct (author_first (name f) Hne) as [a Ha].
  destruct (title_found _ Hus) as [title Ht].
  exists a, title. split; [now rewrite <- author_is_first_char|]. split.
  { unfold getitem in Ht. destruct (_ !! 1%nat); [congruence|discriminate]. }
  unfold load_directory. cbn [scan]. unfold load_file. rewrite Hext.
  cbn [negb].
  pose proof (iterations_bound (Z.of_nat (token_count (contents f)))
                max_length HL ltac:(lia)) as Hb.
  pose proof (while_slices_windows (name f) (fst (splitext (name f)))
                (split (lower (contents f))) max_length a title HL Ha Ht
                fuel 0%nat) as H.
  change (Z.of_nat 0) with 0%Z in H. rewrite Z.mul_0_l, Z.add_0_l in H.
  rewrite Z.mul_1_l in H. rewrite H by (unfold token_count in *; lia).
  cbn [bind]. cbv zeta. unfold token_count.
  rewrite iterations_start by lia. reflexivity.
Qed.

(** X4.  For a positive chunk length, a file named [<author>_<title>...txt]
    of [n] lemmas yields [m = (n - 1) / max_length] documents: document [k]
    is window [k] of the lowercased lemmas joined by blanks, every author
    label is the first character of the file name, and the titles are the
    second underscore-separated piece of the name numbered from 1. *)
Theorem load_directory_one_file fuel (f : DirEntry) (max_length : Z) :
  well_named (name f) = true -> (0 < max_length)%Z ->
  (token_count (contents f) <= fuel)%nat ->
  exists a title,
    str_first (name f) = Ok a /\
    (split_on "_"%char (replace ".txt" "" (name f))) !! 1%nat = Some title /\
    load_directory fuel [f] max_length =
      Ok (let lemmas := split (lower (contents f)) in
          let m := Z.to_nat ((Z.of_nat (token_count (contents f)) - 1)
                             / max_length) in
          {| documents :=
               map (fun k => join " " (window lemmas max_length k)) (seq 0 m);
             authors := replicate m a;
             titles :=
               map (fun k => (title ++ "-" ++ str_of_int (Z.of_nat k + 1))%string)
                   (seq 0 m) |}).
Proof. apply one_file_corpus. Qed.

Lemma load_directory_one_file_witness :
  load_directory 5
    [ {| name := "B_ep.txt"; contents := "Et qui in non ad" |} ] 2
  = Ok {| documents := ["et qui"; "in non"]%string;
          authors := ["B"; "B"]%string;
          titles := ["ep-1"; "ep-2"]%string |}.
Proof.
  destruct (load_directory_one_file 5
              {| name := "B_ep.txt"; contents := "Et qui in non ad" |} 2
              eq_refl eq_refl ltac:(vm_compute; lia))
    as (a & title & Ha & Ht & E).
  rewrite E. injection Ha as <-. injection Ht as <-. reflexivity.
Defined.

(** *** The documents are windows of exactly [max_length] lemmas *)

Lemma append_empty_l (s : string) : ("" ++ s)%string = s.
Proof. reflexivity. Qed.

Lemma append_cons c (w s : string) :
  (String c w ++ s)%string = String c (w ++ s).
Proof. reflexivity. Qed.

Lemma append_empty_r (w : string) : (w ++ "")%string = w.
Proof.
  induction w as [|c w IH]; [reflexivity|]. now rewrite append_cons, IH.
Qed.

Lemma split_aux_token_app w s :
  all_chars (fun c => negb (isspace c)) w = true ->
  split_aux (w ++ s)%string
  = ((w ++ fst (split_aux s))%string, snd (split_aux s)).
Proof.
  induction w as [|c w IH]; intros H.
  - rewrite !append_empty_l. now destruct (split_aux s).
  - cbn [all_chars] in H. apply andb_prop in H as [Hc Hw].
    rewrite !append_cons. cbn [split_aux].
    rewrite (IH Hw). apply negb_true_iff in Hc. now rewrite Hc.
Qed.

Lemma split_token_cons w rest :
  is_token w -> split (w ++ String " " rest)%string = w :: split rest.
Proof.
  intros [Hne Hw]. unfold split at 1. rewrite (split_aux_token_app w _ Hw).
  cbn [split_aux]. change (isspace " ") with true. cbv iota.
  fold (split rest). destruct (split_aux rest) as [t ts] eqn:E.
  cbn [fst snd]. rewrite append_empty_r.
  unfold split. rewrite E. destruct w; [congruence|reflexivity].
Qed.

(** Joining tokens with blanks and splitting again gives the tokens back. *)
Lemma split_join ws : Forall is_token ws -> split (join " " ws) = ws.
Proof.
  unfold join. induction 1 as [|w ws Hw Hws IH]; [reflexivity|].
  destruct ws as [|w2 ws].
  - cbn [String.concat]. destruct Hw as [Hne Hw].
    unfold split. rewrite <- (append_empty_r w) at 1.
    rewrite (split_aux_token_app w "" Hw). cbn [split_aux fst snd].
    rewrite append_empty_r. destruct w; [congruence|reflexivity].
  - change (String.concat " " (w :: w2 :: ws))
      with (w ++ String " " (String.concat " " (w2 :: ws)))%string.
    rewrite (split_token_cons w _ Hw). now rewrite IH.
Qed.

Lemma split_aux_tokens s :
  all_chars (fun c => negb (isspace c)) (fst (split_aux s)) = true /\
  Forall is_token (snd (split_aux s)).
Proof.
  induction s as [|c s [IHt IHts]]; cbn [split_aux]; [split; [reflexivity|constructor]|].
  destruct (split_aux s) as [t ts]. cbn [fst snd] in *.
  destruct (isspace c) eqn:Hc; cbn [fst snd].
  - split; [reflexivity|]. destruct t; cbn [cons_nonempty]; [exact IHts|].
    constructor; [|exact IHts]. split; [discriminate|exact IHt].
  - split; [|exact IHts]. cbn [all_chars]. now rewrite Hc, IHt.
Qed.

(** What [str.split()] returns are tokens. *)
Lemma split_tokens s : Forall is_token (split s).
Proof.
  unfold split. destruct (split_aux_tokens s) as [Ht Hts].
  destruct (split_aux s) as [t ts]. cbn [fst snd] in *.
  destruct t; cbn [cons_nonempty]; [exact Hts|].
  constructor; [|exact Hts]. split; [discriminate|exact Ht].
Qed.

Lemma Forall_firstn_skipn {A : Type} (P : A -> Prop) (l : list A) i j :
  Forall P l -> Forall P (firstn i (skipn j l)).
Proof.
  intros H. apply Forall_take. now apply Forall_drop.
Qed.

(** A window that ends before the last lemma has exactly [max_length]
    lemmas: those from position [k * max_length] on. *)
Lemma window_full (lemmas : list string) (L : Z) (k : nat) :
  (0 < L)%Z -> ((Z.of_nat k + 1) * L < Z.of_nat (length lemmas))%Z ->
  window lemmas L k
  = firstn (Z.to_nat L) (skipn (k * Z.to_nat L) lemmas) /\
  length (window lemmas L k) = Z.to_nat L.
Proof.
  intros HL Hk. unfold window, slice, slice_bound.
  assert (H0 : (0 <= Z.of_nat k * L)%Z) by nia.
  destruct (Z.ltb_spec (Z.of_nat k * L) 0); [lia|].
  destruct (Z.ltb_spec ((Z.of_nat k + 1) * L) 0); [nia|].
  rewrite !Z.min_l by nia.
  replace ((Z.of_nat k + 1) * L - Z.of_nat k * L)%Z with L by ring.
  replace (Z.to_nat (Z.of_nat k * L)) with (k * Z.to_nat L)%nat by nia.
  split; [reflexivity|].
  rewrite length_firstn, length_skipn. nia.
Qed.

Lemma lookup_map_seq {A : Type} (g : nat -> A) m k :
  (k < m)%nat -> map g (seq 0 m) !! k = Some (g k).
Proof.
  intros Hk. change (map ?f ?l) with (f <$> l).
  rewrite list_lookup_fmap, lookup_seq_lt by exact Hk. reflexivity.
Qed.

(** X5.  With a positive chunk length every document of a well-named file
    splits again into exactly [max_length] tokens: document [k] holds the
    lemmas [k * max_length, ..., (k + 1) * max_length - 1] of the
    lowercased text, so the documents neither overlap nor skip a lemma. *)
Theorem load_directory_documents_are_windows fuel (f : DirEntry)
    (max_length : Z) :
  well_named (name f) = true -> (0 < max_length)%Z ->
  (token_count (contents f) <= fuel)%nat ->
  exists c,
    load_directory fuel [f] max_length = Ok c /\
    forall k d, documents c !! k = Some d ->
      split d = firstn (Z.to_nat max_length)
                  (skipn (k * Z.to_nat max_length)
                         (split (lower (contents f)))) /\
      length (split d) = Z.to_nat max_length.
Proof.
  intros Hname HL Hfuel.
  destruct (one_file_corpus fuel f max_length Hname HL Hfuel)
    as (a & title & _ & _ & E).
  eexists. split; [exact E|]. cbv zeta. cbn [documents].
  intros k d Hd.
  assert (Hk : (k < Z.to_nat ((Z.of_nat (token_count (contents f)) - 1)
                              / max_length))%nat).
  { apply lookup_lt_Some in Hd. now rewrite length_map, length_seq in Hd. }
  rewrite lookup_map_seq in Hd by exact Hk. injection Hd as <-.
  assert (Hend : ((Z.of_nat k + 1) * max_length
                  < Z.of_nat (length (split (lower (contents f)))))%Z).
  { unfold token_count in Hk.
    set (n := Z.of_nat (length (split (lower (contents f))))) in *.
    assert (Hq : (Z.of_nat k + 1 <= (n - 1) / max_length)%Z) by lia.
    pose proof (Z.mul_div_le (n - 1) max_length HL). nia. }
  destruct (window_full _ max_length k HL Hend) as [Ew Hlen].
  rewrite split_join.
  - rewrite <- Ew. auto.
  - rewrite Ew. apply Forall_firstn_skipn. apply split_tokens.
Qed.

Lemma load_directory_documents_are_windows_witness :
  exists c,
    load_directory 5
      [ {| name := "B_ep.txt"; contents := "Et qui in non ad" |} ] 2 = Ok c /\
    forall k d, documents c !! k = Some d -> length (split d) = 2%nat.
Proof.
  destruct (load_directory_documents_are_windows 5
              {| name := "B_ep.txt"; contents := "Et qui in non ad" |} 2
              eq_refl eq_refl ltac:(vm_compute; lia)) as (c & E & H).
  exists c. split; [exact E|]. intros k d Hd. apply (H k d Hd).
Defined.

(** *** A chunk length that is not positive *)

Lemma while_slices_diverges filename author lemmas L a title :
  (L <= 0)%Z ->
  str_first author = Ok a ->
  getitem (split_on "_"%char (replace ".txt" "" filename)) 1 = Ok title ->
  forall fuel acc s e c,
    (e < Z.of_nat (length lemmas))%Z ->
    while_slices fuel filename author lemmas L acc s e c = OutOfFuel.
Proof.
  intros HL Ha Ht. induction fuel as [|fuel IH]; intros acc s e c He;
    cbn [while_slices];
    (destruct (Z.ltb_spec e (Z.of_nat (length lemmas))); [|lia]);
    [reflexivity|].
  rewrite Ha, Ht. cbn [bind]. apply IH. lia.
Qed.

(** X6.  With a chunk length of zero or less, the loop of a well-named file
    that has more tokens than the chunk length (any file at all when the
    length is negative) never ends: no amount of fuel lets
    [load_directory] return or raise once it reaches that file. *)
Theorem load_directory_nonpositive_diverges fuel (f : DirEntry)
    (rest : list DirEntry) (max_length : Z) :
  well_named (name f) = true -> (max_length <= 0)%Z ->
  (max_length < Z.of_nat (token_count (contents f)))%Z ->
  load_directory fuel (f :: rest) max_length = OutOfFuel.
Proof.
  intros Hname HL Hn. unfold well_named in Hname.
  apply andb_prop in Hname as [Hext Hus].
  destruct (author_first (name f)) as [a Ha].
  { now apply (endswith_nonempty _ ".txt"). }
  destruct (title_found _ Hus) as [title Ht].
  unfold load_directory. cbn [scan]. unfold load_file. rewrite Hext.
  cbn [negb].
  rewrite (while_slices_diverges _ _ _ max_length a title HL Ha Ht);
    [reflexivity|exact Hn].
Qed.

Lemma load_directory_nonpositive_diverges_witness :
  load_directory 1000 [ {| name := "B_ep.txt"; contents := "et" |} ] 0
  = OutOfFuel /\
  load_directory 1000 [ {| name := "B_ep.txt"; contents := "" |} ] (-1)
  = OutOfFuel.
Proof.
  split.
  - apply (load_directory_nonpositive_diverges 1000
             {| name := "B_ep.txt"; contents := "et" |} [] 0 eq_refl);
      [lia|vm_compute; reflexivity].
  - apply (load_directory_nonpositive_diverges 1000
             {| name := "B_ep.txt"; contents := "" |} [] (-1) eq_refl);
      [lia|vm_compute; reflexivity].
Defined.

End SegmenterExtra.

(** ** The word list *)

Module WordlistExtra.
Import Py Wordlist.

Lemma rstrip_idempotent s : rstrip (rstrip s) = rstrip s.
Proof.
  induction s as [|c s IH]; [reflexivity|]. cbn [rstrip].
  destruct (rstrip s) as [|d r] eqn:E.
  - destruct (isspace c) eqn:Hc; [reflexivity|]. cbn [rstrip]. now rewrite Hc.
  - change (rstrip (String c (String d r)))
      with (match rstrip (String d r) with
            | EmptyString =>
                if isspace c then EmptyString else String c EmptyString
            | String d' r' => String c (String d' r')
            end).
    now rewrite IH.
Qed.

Lemma lstrip_idempotent s : lstrip (lstrip s) = lstrip s.
Proof.
  induction s as [|c s IH]; [reflexivity|]. cbn [lstrip].
  destruct (isspace c) eqn:Hc; [exact IH|]. cbn [lstrip]. now rewrite Hc.
Qed.

(** A string that does not start with white space keeps its first
    character under [rstrip], unless nothing is left of it. *)
Lemma lstrip_rstrip s : lstrip s = s -> lstrip (rstrip s) = rstrip s.
Proof.
  destruct s as [|c s]; [reflexivity|]. cbn [lstrip rstrip].
  destruct (isspace c) eqn:Hc.
  - intros H. exfalso.
    assert (Hlen : String.length (lstrip s) <= String.length s).
    { clear. induction s as [|d s IH]; [cbn; lia|]. cbn [lstrip].
      destruct (isspace d); cbn [String.length] in *; lia. }
    rewrite H in Hlen. cbn [String.length] in Hlen. lia.
  - intros _. destruct (rstrip s); cbn [lstrip]; now rewrite Hc.
Qed.

Lemma strip_idempotent s : strip (strip s) = strip s.
Proof.
  unfold strip.
  rewrite (lstrip_rstrip (lstrip s) (lstrip_idempotent s)).
  apply rstrip_idempotent.
Qed.

Lemma strip_lstrip s : lstrip (strip s) = strip s.
Proof. unfold strip. apply lstrip_rstrip, lstrip_idempotent. Qed.

Lemma strip_rstrip s : rstrip (strip s) = strip s.
Proof. unfold strip. apply rstrip_idempotent. Qed.

Lemma In_firstn {A : Type} (x : A) n l : In x (firstn n l) -> In x l.
Proof.
  intros H. apply list_elem_of_In in H. apply list_elem_of_In.
  apply elem_of_take in H as (i & Hi & _).
  apply list_elem_of_lookup. now exists i.
Qed.

(** X7.  The vocabulary has at most 65 terms; no term is empty, and none
    has white space at its left or right end (stripping a term again
    changes nothing). *)
Theorem load_vocab_clean (lines : list string) :
  length (load_vocab lines) <= 65 /\
  forall t, In t (load_vocab lines) ->
    t <> EmptyString /\ lstrip t = t /\ rstrip t = t /\ strip t = t.
Proof.
  split.
  - unfold load_vocab. rewrite length_firstn. lia.
  - intros t Ht. unfold load_vocab in Ht. apply In_firstn in Ht.
    apply in_map_iff in Ht as (l & <- & Hl).
    apply filter_In in Hl as [_ Hl]. apply andb_prop in Hl as [_ Hl].
    split; [intros E; rewrite E in Hl; discriminate|].
    split; [apply strip_lstrip|]. split; [apply strip_rstrip|].
    apply strip_idempotent.
Qed.

Lemma load_vocab_clean_witness :
  length (load_vocab ["# words"; " the "; ""]%string) <= 65 /\
  strip "the" = "the"%string.
Proof.
  destruct (load_vocab_clean ["# words"; " the "; ""]%string) as [Hlen H].
  split; [exact Hlen|].
  exact (proj2 (proj2 (proj2 (H "the"%string (or_introl eq_refl))))).
Defined.

Lemma firstn_app_In {A : Type} (x : A) n pre post :
  length pre < n -> In x (firstn n (pre ++ x :: post)).
Proof.
  intros H. apply list_elem_of_In. apply list_elem_of_lookup.
  exists (length pre). rewrite lookup_take_lt by lia.
  apply list_lookup_middle. reflexivity.
Qed.

(** X8.  A line is a comment only if its very first character is '#', and
    is blank only if stripping leaves nothing: every other line among the
    first 65 lines of the file gives a term, its stripped text; so an
    indented comment line becomes a term that starts with '#'. *)
Theorem load_vocab_keeps (pre post : list string) (l : string) :
  length pre < 65 ->
  startswith l "#" = false -> strip l <> EmptyString ->
  In (strip l) (load_vocab (pre ++ l :: post)).
Proof.
  intros Hpre Hhash Hne. unfold load_vocab.
  rewrite List.filter_app, map_app. cbn [List.filter].
  rewrite Hhash. cbn [negb andb].
  assert (T : truthy (strip l) = true)
    by (destruct (strip l); [congruence|reflexivity]).
  rewrite T. cbn [map].
  apply firstn_app_In. rewrite length_map.
  pose proof (List.filter_length_le
                (fun l0 => negb (startswith l0 "#") && truthy (strip l0)) pre).
  lia.
Qed.

Lemma load_vocab_keeps_witness :
  In "#et"%string (load_vocab ["qui
"; "# in
"; "  #et
"]%string).
Proof.
  apply (load_vocab_keeps ["qui
"; "# in
"]%string [] "  #et
"%string); [cbn; lia|reflexivity|discriminate].
Defined.

End WordlistExtra.

(** ** More on the vectorizer *)

Module VectorizerExtra.
Import Py Vectorizer VectorizerProofs.

Lemma enumerate_vocabulary_total : forall (vocabulary : list string) i vocab,
  (exists m, enumerate_vocabulary i vocabulary vocab = Ok m) \/
  enumerate_vocabulary i vocabulary vocab = Raise ValueError.
Proof.
  induction vocabulary as [|t0 rest IH]; intros i vocab;
    cbn [enumerate_vocabulary]; [eauto|].
  destruct (setdefault vocab t0 i) as [w vocab'].
  destruct (w =? i); [apply IH|auto].
Qed.

(** The loop over the vocabulary gets through only when no term repeats. *)
Lemma enumerate_vocabulary_ok_inv : forall (vocabulary : list string) i vocab m,
  (forall t j, vocab !! t = Some j -> j < i) ->
  enumerate_vocabulary i vocabulary vocab = Ok m ->
  NoDup vocabulary /\ forall t, In t vocabulary -> vocab !! t = None.
Proof.
  induction vocabulary as [|t0 rest IH]; intros i vocab m Hlt H.
  - split; [constructor|]. intros t [].
  - cbn [enumerate_vocabulary] in H. unfold setdefault in H.
    destruct (vocab !! t0) as [w|] eqn:E0.
    + specialize (Hlt t0 w E0).
      destruct (Nat.eqb_spec w i); [lia|discriminate].
    + rewrite Nat.eqb_refl in H.
      apply IH in H as [Hnd Hfresh].
      * assert (Hnotin : ~ In t0 rest).
        { intros Hin. specialize (Hfresh t0 Hin).
          rewrite lookup_insert_eq in Hfresh. discriminate. }
        split; [apply NoDup_cons; split;
                  [rewrite list_elem_of_In; exact Hnotin|exact Hnd]|].
        intros t [<-|Hin]; [exact E0|].
        specialize (Hfresh t Hin).
        rewrite lookup_insert_ne in Hfresh; [exact Hfresh|].
        intros <-. contradiction.
      * intros t j Ht. destruct (decide (t0 = t)) as [<-|Hne].
        -- rewrite lookup_insert_eq in Ht. injection Ht as <-. lia.
        -- rewrite lookup_insert_ne in Ht by exact Hne.
           specialize (Hlt t j Ht). lia.
Qed.

Lemma validate_vocabulary_rejects (vocabulary : list string) :
  ~ (NoDup vocabulary /\ vocabulary <> []) ->
  validate_vocabulary vocabulary = Raise ValueError.
Proof.
  intros Hbad. unfold validate_vocabulary.
  destruct (enumerate_vocabulary_total vocabulary 0 ∅) as [[m E]|E];
    rewrite E; cbn [bind]; [|reflexivity].
  destruct (enumerate_vocabulary_ok_inv vocabulary 0 ∅ m) as [Hnd _];
    [intros t j Ht; now rewrite lookup_empty in Ht|exact E|].
  destruct vocabulary as [|t0 rest].
  - cbn [enumerate_vocabulary] in E. injection E as <-.
    now rewrite decide_True.
  - exfalso. apply Hbad. split; [exact Hnd|discriminate].
Qed.

(** X9.  The vectorizer works on exactly the vocabularies that are not
    empty and hold no term twice; on any other vocabulary [transform] and
    [fit_transform] raise a [ValueError], whatever the documents. *)
Theorem transform_accepts_iff (vocabulary raw_documents : list string) :
  (NoDup vocabulary /\ vocabulary <> [] ->
   exists X, transform vocabulary raw_documents = Ok X /\
             fit_transform vocabulary raw_documents = Ok X /\
             length X = length raw_documents) /\
  (~ (NoDup vocabulary /\ vocabulary <> []) ->
   transform vocabulary raw_documents = Raise ValueError /\
   fit_transform vocabulary raw_documents = Raise ValueError).
Proof.
  split.
  - intros [Hnd Hne].
    destruct (validate_vocabulary_spec vocabulary Hnd Hne) as (m & E & _).
    exists (count_vocab m raw_documents). unfold transform, fit_transform.
    rewrite E. cbn [bind]. repeat split. unfold count_vocab. apply length_map.
  - intros Hbad. unfold transform, fit_transform.
    now rewrite (validate_vocabulary_rejects vocabulary Hbad).
Qed.

Lemma transform_accepts_iff_witness :
  (exists X, transform ["et"; "qui"]%string ["et et"]%string = Ok X) /\
  transform ["et"; "qui"; "et"]%string ["et et"]%string = Raise ValueError /\
  transform [] ["et et"]%string = Raise ValueError.
Proof.
  split; [|split].
  - destruct (proj1 (transform_accepts_iff ["et"; "qui"]%string
                       ["et et"]%string)) as (X & E & _).
    + split; [|discriminate]. apply (bool_decide_unpack _). vm_compute.
      reflexivity.
    + now exists X.
  - apply (proj2 (transform_accepts_iff ["et"; "qui"; "et"]%string
                    ["et et"]%string)).
    intros [Hnd _]. revert Hnd. apply (bool_decide_unpack _). vm_compute.
    reflexivity.
  - apply (proj2 (transform_accepts_iff [] ["et et"]%string)).
    intros [_ Hne]. now apply Hne.
Defined.

(** *** The row of a document sums to its in-vocabulary tokens *)

Lemma sum_indicator (o : option nat) : forall V s,
  list_sum (map (fun j => if decide (o = Some j) then 1 else 0) (seq s V))
  = match o with
    | Some j0 => if decide (s <= j0 < s + V) then 1 else 0
    | None => 0
    end.
Proof.
  induction V as [|V IH]; intros s; cbn [seq map].
  - destruct o as [j0|]; [|reflexivity]. rewrite decide_False by lia.
    reflexivity.
  - change (list_sum (?x :: ?l)) with (x + list_sum l).
    rewrite IH. destruct o as [j0|].
    + destruct (decide (Some j0 = Some s)) as [[= ->]|Hne].
      * rewrite decide_False by lia. rewrite decide_True by lia. reflexivity.
      * assert (j0 <> s) by congruence.
        destruct (decide (S s <= j0 < S s + V));
          [rewrite decide_True by lia|rewrite decide_False by lia];
          reflexivity.
    + rewrite decide_False by discriminate. reflexivity.
Qed.

Lemma list_sum_map_add {A : Type} (f g : A -> nat) l :
  list_sum (map (fun x => f x + g x) l)
  = list_sum (map f l) + list_sum (map g l).
Proof.
  induction l as [|x l IH]; [reflexivity|]. cbn [map].
  change (list_sum (?y :: ?k)) with (y + list_sum k). lia.
Qed.

Lemma toarray_row_sum_step (m : gmap string nat) V fc t :
  list_sum (toarray_row V (count_feature m fc t))
  = list_sum (toarray_row V fc)
    + match m !! t with
      | Some j0 => if decide (j0 < V) then 1 else 0
      | None => 0
      end.
Proof.
  unfold toarray_row.
  rewrite (map_ext _ _ (fun j => count_feature_lookup m fc t j)).
  rewrite (list_sum_map_add (fun j => default 0 (fc !! j))
             (fun j => if decide (m !! t = Some j) then 1 else 0)).
  rewrite sum_indicator. destruct (m !! t) as [j0|]; [|reflexivity].
  destruct (decide (j0 < V));
    [rewrite decide_True by lia|rewrite decide_False by lia]; reflexivity.
Qed.

Lemma toarray_row_sum (vocabulary : list string) (m : gmap string nat) :
  (forall u k, m !! u = Some k <-> vocabulary !! k = Some u) ->
  forall tokens fc,
    list_sum (toarray_row (length vocabulary)
                (fold_left (count_feature m) tokens fc))
    = list_sum (toarray_row (length vocabulary) fc)
      + length (List.filter (fun t => bool_decide (t ∈ vocabulary)) tokens).
Proof.
  intros Hm. induction tokens as [|t tokens IH]; intros fc;
    cbn [fold_left List.filter]; [cbn; lia|].
  rewrite IH, toarray_row_sum_step.
  destruct (m !! t) as [j0|] eqn:E.
  - apply Hm in E. pose proof (lookup_lt_Some _ _ _ E).
    rewrite decide_True by lia.
    rewrite bool_decide_eq_true_2
      by (apply list_elem_of_lookup; now exists j0).
    cbn [length]. lia.
  - rewrite bool_decide_eq_false_2; [lia|].
    intros Hin. apply list_elem_of_lookup in Hin as [k Hk].
    apply Hm in Hk. congruence.
Qed.

Lemma list_sum_replicate_0 V : list_sum (replicate V 0) = 0.
Proof. induction V; [reflexivity|]. cbn. exact IHV. Qed.

(** X10.  The counts in the row of a document add up to the number of its
    tokens that are vocabulary terms; tokens outside the vocabulary are
    counted nowhere, so the row sum never exceeds the token count. *)
Theorem transform_row_sum (vocabulary raw_documents : list string) :
  NoDup vocabulary -> vocabulary <> [] ->
  exists X,
    transform vocabulary raw_documents = Ok X /\
    forall i doc row, raw_documents !! i = Some doc -> X !! i = Some row ->
      list_sum row
      = length (List.filter (fun t => bool_decide (t ∈ vocabulary))
                            (analyze doc)) /\
      list_sum row <= length (analyze doc).
Proof.
  intros Hnd Hne.
  destruct (validate_vocabulary_spec vocabulary Hnd Hne) as (m & E & Hsize & Hm).
  exists (count_vocab m raw_documents). unfold transform. rewrite E.
  cbn [bind]. split; [reflexivity|].
  intros i doc row Hi Hrow. unfold count_vocab in Hrow.
  change (map ?f ?l) with (f <$> l) in Hrow.
  rewrite list_lookup_fmap, Hi in Hrow. injection Hrow as <-.
  rewrite Hsize. unfold count_tokens.
  rewrite (toarray_row_sum vocabulary m Hm), toarray_row_empty,
    list_sum_replicate_0.
  split; [reflexivity|]. cbn [Nat.add]. apply List.filter_length_le.
Qed.

Lemma transform_row_sum_witness :
  exists X,
    transform ["et"; "qui"; "in"]%string ["Et in, et NON"]%string = Ok X /\
    forall row, X !! 0 = Some row -> list_sum row = 3.
Proof.
  destruct (transform_row_sum ["et"; "qui"; "in"]%string
              ["Et in, et NON"]%string) as (X & E & H).
  - apply (bool_decide_unpack _). vm_compute. reflexivity.
  - discriminate.
  - exists X. split; [exact E|]. intros row Hrow.
    destruct (H 0 "Et in, et NON"%string row eq_refl Hrow) as [-> _].
    reflexivity.
Defined.

(** *** Letter case and unmatchable terms *)

Lemma lower_char_idempotent c : lower_char (lower_char c) = lower_char c.
Proof. destruct c as [[] [] [] [] [] [] [] []]; reflexivity. Qed.

Lemma lower_char_not_upper c : is_upper (lower_char c) = false.
Proof. destruct c as [[] [] [] [] [] [] [] []]; reflexivity. Qed.

Lemma lower_idempotent s : lower (lower s) = lower s.
Proof.
  induction s as [|c s IH]; [reflexivity|]. cbn [lower].
  now rewrite lower_char_idempotent, IH.
Qed.

Lemma lower_no_upper s :
  all_chars (fun c => negb (is_upper c)) (lower s) = true.
Proof.
  induction s as [|c s IH]; [reflexivity|]. cbn [lower all_chars].
  now rewrite lower_char_not_upper, IH.
Qed.

Lemma findall_aux_tokens (q : ascii -> bool) s :
  all_chars q s = true ->
  all_chars (fun c => is_word_char c && q c) (fst (findall_aux s)) = true /\
  Forall (fun u => truthy u
                   && all_chars (fun c => is_word_char c && q c) u = true)
         (snd (findall_aux s)).
Proof.
  induction s as [|c s IH]; cbn [findall_aux all_chars];
    [split; [reflexivity|constructor]|].
  intros H. apply andb_prop in H as [Hc Hs]. destruct (IH Hs) as [IHt IHts].
  destruct (findall_aux s) as [t ts]. cbn [fst snd] in *.
  destruct (is_word_char c) eqn:Hw; cbn [fst snd].
  - split; [|exact IHts]. cbn [all_chars]. now rewrite Hw, Hc, IHt.
  - split; [reflexivity|]. destruct t; cbn [cons_nonempty]; [exact IHts|].
    constructor; [|exact IHts]. cbn [truthy andb]. exact IHt.
Qed.

(** Every token the analyzer delivers is matchable. *)
Lemma analyze_matchable doc : Forall (fun u => matchable u = true) (analyze doc).
Proof.
  unfold analyze, findall_words.
  destruct (findall_aux_tokens (fun c => negb (is_upper c)) (lower doc)
              (lower_no_upper doc)) as [Ht Hts].
  destruct (findall_aux (lower doc)) as [t ts]. cbn [fst snd] in *.
  destruct t; cbn [cons_nonempty]; [exact Hts|].
  constructor; [|exact Hts]. unfold matchable. cbn [truthy andb]. exact Ht.
Qed.

Lemma count_occ_unmatchable doc t :
  matchable t = false -> count_occ string_dec (analyze doc) t = 0.
Proof.
  intros Ht. apply count_occ_not_In. intros Hin.
  pose proof (analyze_matchable doc) as H.
  rewrite List.Forall_forall in H. specialize (H t Hin). congruence.
Qed.

Lemma findall_aux_word t :
  all_chars is_word_char t = true -> findall_aux t = (t, []).
Proof.
  induction t as [|c t IH]; [reflexivity|]. cbn [all_chars findall_aux].
  intros H. apply andb_prop in H as [Hc Ht]. now rewrite (IH Ht), Hc.
Qed.

Lemma lower_char_fixed c : is_upper c = false -> lower_char c = c.
Proof. destruct c as [[] [] [] [] [] [] [] []]; (reflexivity || discriminate). Qed.

Lemma lower_fixed t :
  all_chars (fun c => negb (is_upper c)) t = true -> lower t = t.
Proof.
  induction t as [|c t IH]; [reflexivity|]. cbn [all_chars lower].
  intros H. apply andb_prop in H as [Hc Ht].
  rewrite (IH Ht), lower_char_fixed; [reflexivity|].
  now destruct (is_upper c).
Qed.

Lemma all_chars_and (p q : ascii -> bool) t :
  all_chars (fun c => p c && q c) t = true ->
  all_chars p t = true /\ all_chars q t = true.
Proof.
  induction t as [|c t IH]; [split; reflexivity|]. cbn [all_chars].
  intros H. apply andb_prop in H as [Hc Ht]. apply andb_prop in Hc as [Hp Hq].
  destruct (IH Ht) as [IHp IHq]. now rewrite Hp, Hq, IHp, IHq.
Qed.

(** A matchable term is the one token of the document that consists of
    it. *)
Lemma analyze_term t : matchable t = true -> analyze t = [t].
Proof.
  unfold matchable. intros H. apply andb_prop in H as [Hne Hall].
  apply all_chars_and in Hall as [Hw Hl].
  unfold analyze, findall_words. rewrite (lower_fixed t Hl).
  rewrite (findall_aux_word t Hw). destruct t; [discriminate|reflexivity].
Qed.

Lemma matchable_isascii t : matchable t = true -> isascii t = true.
Proof.
  unfold matchable, isascii. intros H. apply andb_prop in H as [_ Hall].
  induction t as [|c t IH]; [reflexivity|]. cbn [all_chars] in *.
  apply andb_prop in Hall as [Hc Ht]. rewrite (IH Ht), andb_true_r.
  apply andb_prop in Hc as [Hw _]. revert Hw.
  destruct c as [[] [] [] [] [] [] [] []]; (reflexivity || discriminate).
Qed.

(** X11.  On documents of ASCII characters, where the tables of the code
    are the ASCII tables: documents are counted in lower case, vocabulary
    terms are taken as given.  Changing the letter case of the documents
    changes no count.  A vocabulary term is counted exactly when it is
    matchable, a non-empty string of the letters a-z, the digits and the
    underscore: any other term has the count zero in every document, and
    a matchable term has the count one in the document that consists of
    it. *)
Theorem transform_case (vocabulary raw_documents : list string) :
  Forall (fun doc => isascii doc = true) raw_documents ->
  transform vocabulary (map lower raw_documents)
  = transform vocabulary raw_documents /\
  (NoDup vocabulary -> vocabulary <> [] ->
   (exists X,
      transform vocabulary raw_documents = Ok X /\
      forall j t, vocabulary !! j = Some t -> matchable t = false ->
        forall i row, X !! i = Some row -> row !! j = Some 0) /\
   (forall j t, vocabulary !! j = Some t -> matchable t = true ->
      isascii t = true /\
      exists row, transform vocabulary [t] = Ok [row] /\ row !! j = Some 1)).
Proof.
  intros _. split.
  - unfold transform. destruct (validate_vocabulary vocabulary);
      cbn [bind]; try reflexivity.
    f_equal. unfold count_vocab. rewrite map_map. apply map_ext.
    intros doc. unfold analyze. now rewrite lower_idempotent.
  - intros Hnd Hne.
    destruct (validate_vocabulary_spec vocabulary Hnd Hne)
      as (m & E & Hsize & Hm).
    split.
    + exists (count_vocab m raw_documents). unfold transform. rewrite E.
      cbn [bind]. split; [reflexivity|].
      intros j t Hj Ht i row Hrow. unfold count_vocab in Hrow.
      change (map ?f ?l) with (f <$> l) in Hrow.
      rewrite list_lookup_fmap in Hrow.
      destruct (raw_documents !! i) as [doc|]; [|discriminate].
      injection Hrow as <-.
      rewrite toarray_row_lookup
        by (rewrite Hsize; now apply lookup_lt_Some in Hj).
      f_equal. rewrite (count_tokens_lookup vocabulary m _ j t Hm Hj).
      now apply count_occ_unmatchable.
    + intros j t Hj Ht. split; [now apply matchable_isascii|].
      eexists. unfold transform. rewrite E. cbn [bind count_vocab map].
      split; [reflexivity|].
      rewrite toarray_row_lookup
        by (rewrite Hsize; now apply lookup_lt_Some in Hj).
      f_equal. rewrite (count_tokens_lookup vocabulary m _ j t Hm Hj).
      rewrite (analyze_term t Ht). cbn [count_occ].
      now destruct (string_dec t t).
Qed.

Lemma transform_case_witness :
  exists X,
    transform ["et"; "Et"; "et in"]%string ["Et in, et NON"]%string = Ok X /\
    X !! 0 = Some [2; 0; 0].
Proof.
  destruct (proj2 (transform_case ["et"; "Et"; "et in"]%string
                     ["Et in, et NON"]%string
                     ltac:(repeat constructor)))
    as ((X & E & H) & _).
  - apply (bool_decide_unpack _). vm_compute. reflexivity.
  - discriminate.
  - exists X. split; [exact E|]. vm_compute in E. injection E as <-.
    reflexivity.
Defined.

End VectorizerExtra.

(** ** Counting, then normalizing *)

Module PipelineExtra.
Import Py Vectorizer Preprocessing Pipeline VectorizerProofs PreprocessingProofs.
Open Scope R_scope.

Lemma count_row_entry (vocabulary : list string) (m : gmap string nat) doc j t :
  (forall u k, m !! u = Some k <-> vocabulary !! k = Some u) ->
  size m = length vocabulary ->
  vocabulary !! j = Some t ->
  toarray_row (size m) (count_tokens m (analyze doc)) !! j
  = Some (count_occ string_dec (analyze doc) t).
Proof.
  intros Hm Hsize Hj. rewrite toarray_row_lookup.
  - f_equal. now apply count_tokens_lookup with (vocabulary := vocabulary).
  - rewrite Hsize. now apply lookup_lt_Some in Hj.
Qed.

Lemma sum_zero_entries v :
  Forall (fun y => 0 <= y) v -> sum v = 0 -> Forall (fun y => y = 0) v.
Proof.
  intros Hpos Hs. apply List.Forall_forall. intros x Hx.
  pose proof (entry_le_sum v x Hpos Hx).
  rewrite List.Forall_forall in Hpos. specialize (Hpos x Hx). lra.
Qed.

(** A row of non-negative entries is normalized into the unit interval. *)
Lemma normalize_row_unit v :
  Forall (fun y => 0 <= y) v ->
  Forall (fun y => 0 <= y <= 1) (normalize_row v).
Proof.
  intros Hpos. pose proof (sum_nonneg v Hpos) as Hs.
  destruct (Req_dec_T (sum v) 0) as [E|E].
  - pose proof (sum_zero_entries v Hpos E) as Hz.
    rewrite (normalize_row_zero v Hz).
    eapply List.Forall_impl; [|exact Hz]. intros y ->. lra.
  - assert (En : norms v = sum v).
    { unfold norms. rewrite (l1_norm_nonneg_entries v Hpos).
      now apply handle_zeros_in_scale_id. }
    unfold normalize_row. rewrite En. apply List.Forall_forall.
    intros z Hz. apply in_map_iff in Hz as (x & <- & Hx).
    pose proof (entry_le_sum v x Hpos Hx) as Hle.
    rewrite List.Forall_forall in Hpos. specialize (Hpos x Hx).
    assert (0 < sum v) by lra. split.
    + apply Rmult_le_pos; [lra|]. left. now apply Rinv_0_lt_compat.
    + apply (Rmult_le_reg_r (sum v)); [lra|]. unfold Rdiv.
      rewrite Rmult_assoc, Rinv_l by lra. lra.
Qed.

(** X12.  Counting and then L1-normalizing turns every document into relative
    frequencies: for a valid vocabulary and at least one document, each
    row has one entry per vocabulary term, every entry lies between 0 and
    1, the row sums to 1 when the document holds a vocabulary term and is
    all zero when it holds none; with no document at all the normalizer
    refuses the empty matrix with a [ValueError]. *)
Theorem frequencies_rows (vocabulary raw_documents : list string) :
  NoDup vocabulary -> vocabulary <> [] ->
  (raw_documents = [] ->
   frequencies vocabulary raw_documents = Raise ValueError) /\
  (raw_documents <> [] ->
   exists Xn,
     frequencies vocabulary raw_documents = Ok Xn /\
     length Xn = length raw_documents /\
     forall i doc, raw_documents !! i = Some doc ->
       exists v,
         Xn !! i = Some v /\
         length v = length vocabulary /\
         Forall (fun x => 0 <= x <= 1) v /\
         ((exists t, In t vocabulary /\ In t (analyze doc)) -> sum v = 1) /\
         ((forall t, In t vocabulary -> ~ In t (analyze doc)) ->
          Forall (fun x => x = 0) v)).
Proof.
  intros Hnd Hne.
  destruct (validate_vocabulary_spec vocabulary Hnd Hne) as (m & E & Hsize & Hm).
  unfold frequencies, transform. rewrite E. cbn [bind]. split.
  - intros ->. reflexivity.
  - intros Hdocs.
    set (row := fun doc => toarray_row (size m) (count_tokens m (analyze doc))).
    assert (HX : count_vocab m raw_documents = map row raw_documents)
      by reflexivity.
    assert (Hshape : well_shaped (astype_float (count_vocab m raw_documents))
                       (length vocabulary)).
    { rewrite HX. unfold astype_float. split.
      - destruct raw_documents; [congruence|discriminate].
      - split; [destruct vocabulary; [congruence|cbn; lia]|].
        apply List.Forall_forall. intros r Hr.
        apply in_map_iff in Hr as (c & <- & Hc).
        apply in_map_iff in Hc as (doc & <- & _).
        unfold row. now rewrite length_map, toarray_row_length. }
    rewrite (normalize_well_shaped _ _ Hshape).
    eexists. split; [reflexivity|]. split.
    { unfold astype_float. rewrite HX. now rewrite !length_map. }
    intros i doc Hi. exists (normalize_row (map INR (row doc))).
    assert (Hpos : Forall (fun y => 0 <= y) (map INR (row doc))).
    { apply List.Forall_forall. intros y Hy.
      apply in_map_iff in Hy as (k & <- & _). apply pos_INR. }
    split.
    { rewrite HX. unfold astype_float.
      change (map ?f ?l) with (f <$> l).
      now rewrite !list_lookup_fmap, Hi. }
    split.
    { unfold normalize_row, row.
      now rewrite !length_map, toarray_row_length. }
    split; [now apply normalize_row_unit|]. split.
    + intros (t & Htv & Htd).
      apply (normalize_row_counts _ Hpos).
      apply list_elem_of_In, list_elem_of_lookup in Htv as [j Hj].
      apply List.Exists_exists.
      exists (INR (count_occ string_dec (analyze doc) t)). split.
      * apply in_map. apply list_elem_of_In, list_elem_of_lookup. exists j.
        unfold row. now apply count_row_entry with (vocabulary := vocabulary).
      * apply (count_occ_In string_dec) in Htd.
        apply not_0_INR. lia.
    + intros Hnone.
      rewrite normalize_row_zero; apply List.Forall_forall; intros y Hy;
        apply in_map_iff in Hy as (k & <- & Hk);
        apply list_elem_of_In, list_elem_of_lookup in Hk as [j Hj];
        assert (Hlt : (j < length vocabulary)%nat)
          by (apply lookup_lt_Some in Hj; unfold row in Hj;
              now rewrite toarray_row_length, Hsize in Hj);
        destruct (lookup_lt_is_Some_2 vocabulary j Hlt) as [t Ht];
        unfold row in Hj;
        rewrite (count_row_entry vocabulary m doc j t Hm Hsize Ht) in Hj;
        injection Hj as <-;
        rewrite (proj1 (count_occ_not_In string_dec _ _));
        try reflexivity;
        apply Hnone; apply list_elem_of_In, list_elem_of_lookup; now exists j.
Qed.

Lemma frequencies_rows_witness :
  frequencies ["et"; "in"]%string [] = Raise ValueError /\
  exists Xn,
    frequencies ["et"; "in"]%string ["Et in, et NON"; "qui"]%string = Ok Xn /\
    length Xn = 2%nat.
Proof.
  assert (Hnd : NoDup ["et"; "in"]%string)
    by (apply (bool_decide_unpack _); vm_compute; reflexivity).
  split.
  - apply (proj1 (frequencies_rows ["et"; "in"]%string [] Hnd
                    ltac:(discriminate))). reflexivity.
  - destruct (proj2 (frequencies_rows ["et"; "in"]%string
                       ["Et in, et NON"; "qui"]%string Hnd
                       ltac:(discriminate)))
      as (Xn & E & Hlen & _); [discriminate|].
    exists Xn. auto.
Defined.

End PipelineExtra.

(** ** What standardizing does to a column *)

Module ScalerExtra.
Import Py Preprocessing DeltaClassifier PreprocessingProofs Float64Proofs.
Import DeltaProofs.
Open Scope R_scope.

(** Column [j] of the transformed matrix is column [j] of the matrix,
    shifted by the fitted mean when means are used, divided by the fitted
    scale. *)
Lemma transformed_column b X X' V j :
  well_shaped X V -> Forall (fun r => length r = V) X' -> (j < V)%nat ->
  column j (map (transform_row b (fit_stats X)) X')
  = map (fun x => (if b then x - mean (column j X) else x)
                  / feature_scale (length X) (column j X))
        (column j X').
Proof.
  intros Hshape Hrows Hj. unfold column. rewrite !map_map.
  apply map_ext_in. intros r Hin.
  assert (Hr : length r = V)
    by (rewrite List.Forall_forall in Hrows; now apply Hrows).
  assert (Hn : n_features X = V)
    by apply (proj2 (check_array_well_shaped X V Hshape)).
  destruct (lookup_lt_is_Some_2 r j) as [x Hx]; [lia|].
  unfold transform_row. rewrite !nth_lookup, lookup_zip_with.
  rewrite (scale_lookup X j) by lia. rewrite Hx.
  destruct b.
  - rewrite lookup_zip_with, Hx, (mean_lookup X j) by lia. reflexivity.
  - rewrite Hx. reflexivity.
Qed.

(** The scaler's test for a constant feature, on the mean and the
    variance of a column. *)
Lemma constant_test n c :
  is_constant_feature (var c) (mean c) n = true <->
  var c <= INR n * / 2 ^ 52 * var c + (INR n * mean c * / 2 ^ 52) ^ 2.
Proof. apply is_constant_feature_spec. Qed.

Lemma varying_scale n c :
  ~ var c <= INR n * / 2 ^ 52 * var c + (INR n * mean c * / 2 ^ 52) ^ 2 ->
  feature_scale n c = sqrt (var c) /\ sqrt (var c) <> 0 /\ var c <> 0.
Proof.
  intros H.
  assert (E : is_constant_feature (var c) (mean c) n = false).
  { destruct (is_constant_feature _ _ _) eqn:E; [|reflexivity].
    now apply constant_test in E. }
  split; [now apply feature_scale_varying|].
  pose proof (varying_var_pos n c E) as Hv.
  pose proof (sqrt_lt_R0 _ Hv). split; lra.
Qed.

Lemma constant_scale n c :
  var c <= INR n * / 2 ^ 52 * var c + (INR n * mean c * / 2 ^ 52) ^ 2 ->
  feature_scale n c = 1.
Proof. intros H. now apply feature_scale_constant, constant_test. Qed.

(** X13.  On a training matrix in range, where nothing overflows, the
    reference matrix [Delta.fit] stores has the population variance 1 in
    every feature that does not count as constant for the scaler, and
    holds every feature that does, a feature of variance zero for one, as
    it was. *)
Theorem fit_unit_variance self (X : matrix) (y : list string) (V j : nat) :
  well_shaped X V -> in_range X -> (j < V)%nat ->
  exists Xs,
    train_X (fst (fit self X y)) = Some Xs /\
    Float64.fit_transform false X = Ok (Float64.lift Xs) /\
    (~ var (column j X)
         <= INR (length X) * / 2 ^ 52 * var (column j X)
            + (INR (length X) * mean (column j X) * / 2 ^ 52) ^ 2 ->
     var (column j Xs) = 1) /\
    (var (column j X)
       <= INR (length X) * / 2 ^ 52 * var (column j X)
          + (INR (length X) * mean (column j X) * / 2 ^ 52) ^ 2 ->
     column j Xs = column j X) /\
    (var (column j X) = 0 -> column j Xs = column j X).
Proof.
  intros Hshape Hrange Hj. rewrite (fit_ok self X y V Hshape).
  cbn [fst train_X]. eexists. split; [reflexivity|].
  split; [now apply fit_transform_agrees with (V := V)|].
  rewrite (transformed_column false X X V j Hshape (proj2 (proj2 Hshape)) Hj).
  assert (Hconst : var (column j X)
                   <= INR (length X) * / 2 ^ 52 * var (column j X)
                      + (INR (length X) * mean (column j X) * / 2 ^ 52) ^ 2 ->
                   map (fun x => x / feature_scale (length X) (column j X))
                       (column j X) = column j X).
  { intros Hc. rewrite (constant_scale _ _ Hc). apply map_div_one. }
  split; [|split; [exact Hconst|]].
  - intros Hv. destruct (varying_scale _ _ Hv) as (-> & Hs & Hv0).
    rewrite var_map_div by exact Hs. rewrite sqrt_var_sqr. now field.
  - intros Hv. apply Hconst. rewrite Hv.
    pose proof (pow2_ge_0 (INR (length X) * mean (column j X) * / 2 ^ 52)).
    lra.
Qed.

Lemma fit_unit_variance_witness :
  exists Xs,
    train_X (fst (fit new_Delta [[2; 7]; [0; 7]] ["A"; "B"]%string)) = Some Xs /\
    var (column 0 Xs) = 1 /\
    column 1 Xs = [7; 7].
Proof.
  assert (Hshape : well_shaped [[2; 7]; [0; 7]] 2) by shape_by_computation.
  assert (Hrange : in_range [[2; 7]; [0; 7]]).
  { split; [cbn [length INR]; lra|].
    entries_in_range. }
  destruct (fit_unit_variance new_Delta [[2; 7]; [0; 7]] ["A"; "B"]%string
              2 0 Hshape Hrange ltac:(lia)) as (Xs & E & _ & H0 & _).
  destruct (fit_unit_variance new_Delta [[2; 7]; [0; 7]] ["A"; "B"]%string
              2 1 Hshape Hrange ltac:(lia)) as (Xs' & E' & _ & _ & H1 & _).
  rewrite E in E'. injection E' as <-.
  exists Xs. split; [exact E|]. split.
  - apply H0. cbn [column map nth length INR].
    assert (Ev : var [2; 0] = 1) by eval_var.
    assert (Em : mean [2; 0] = 1) by eval_var.
    rewrite Ev, Em. lra.
  - apply H1. cbn [column map nth length INR].
    assert (Ev : var [7; 7] = 0) by eval_var.
    assert (Em : mean [7; 7] = 7) by eval_var.
    rewrite Ev, Em. lra.
Defined.

(** X14.  The PCA notebook's [StandardScaler()], which also subtracts the
    mean, on a matrix in range, where nothing overflows: after
    [fit_transform] every column has mean 0; a column that does not count
    as constant for the scaler has the population variance 1; one that
    does holds the deviations from the mean, undivided, which are all
    zero when the variance is zero. *)
Theorem standard_scaler_centres (X : matrix) (V j : nat) :
  well_shaped X V -> in_range X -> (j < V)%nat ->
  exists sc Xs,
    scaler_fit_transform (new_scaler true) X = Ok (sc, Xs) /\
    Float64.fit_transform true X = Ok (Float64.lift Xs) /\
    mean (column j Xs) = 0 /\
    (~ var (column j X)
         <= INR (length X) * / 2 ^ 52 * var (column j X)
            + (INR (length X) * mean (column j X) * / 2 ^ 52) ^ 2 ->
     var (column j Xs) = 1) /\
    (var (column j X)
       <= INR (length X) * / 2 ^ 52 * var (column j X)
          + (INR (length X) * mean (column j X) * / 2 ^ 52) ^ 2 ->
     column j Xs = map (fun x => x - mean (column j X)) (column j X)) /\
    (var (column j X) = 0 -> Forall (fun x => x = 0) (column j Xs)).
Proof.
  intros Hshape Hrange Hj. rewrite (scaler_fit_transform_ok true X V Hshape).
  eexists _, _. split; [reflexivity|].
  split; [now apply fit_transform_agrees with (V := V)|].
  rewrite (transformed_column true X X V j Hshape (proj2 (proj2 Hshape)) Hj).
  assert (Hne : column j X <> []).
  { destruct Hshape as (HX & _). unfold column.
    destruct X; [congruence|discriminate]. }
  pose proof (feature_scale_pos (length X) (column j X)) as Hpos.
  split; [now apply mean_centered|].
  split; [|split].
  - intros Hv. destruct (varying_scale _ _ Hv) as (-> & Hs & Hv0).
    rewrite (var_centered _ _ Hne Hs), sqrt_var_sqr. now field.
  - intros Hc. rewrite (constant_scale _ _ Hc).
    apply map_ext. intros x. lra.
  - intros Hv. apply List.Forall_forall. intros z Hz.
    apply in_map_iff in Hz as (x & <- & Hx).
    pose proof (var_zero_constant _ Hv) as Hc.
    rewrite List.Forall_forall in Hc. rewrite <- (Hc x Hx).
    unfold Rdiv. ring.
Qed.

Lemma standard_scaler_centres_witness :
  exists sc Xs,
    scaler_fit_transform (new_scaler true) [[2; 7]; [0; 7]] = Ok (sc, Xs) /\
    mean (column 1 Xs) = 0 /\
    var (column 0 Xs) = 1.
Proof.
  destruct (standard_scaler_centres [[2; 7]; [0; 7]] 2 1)
    as (sc & Xs & E & _ & H & _).
  - shape_by_computation.
  - split; [cbn [length INR]; lra|].
    entries_in_range.
  - lia.
  - destruct (standard_scaler_centres [[2; 7]; [0; 7]] 2 0)
      as (sc' & Xs' & E' & _ & _ & H0 & _).
    + shape_by_computation.
    + split; [cbn [length INR]; lra|].
      entries_in_range.
    + lia.
    + rewrite E in E'. injection E' as <- <-.
      exists sc, Xs. split; [exact E|]. split; [exact H|].
      apply H0. cbn [column map nth length INR].
      assert (Ev : var [2; 0] = 1) by eval_var.
      assert (Em : mean [2; 0] = 1) by eval_var.
      rewrite Ev, Em. lra.
Defined.

End ScalerExtra.

(** ** More on the classifier *)

Module DeltaExtra.
Import Py Preprocessing DeltaClassifier PreprocessingProofs Float64Proofs.
Import DeltaProofs.
Open Scope R_scope.

Lemma not_well_shaped_refused X :
  (forall V, ~ well_shaped X V) -> check_array X = Raise ValueError.
Proof.
  intros H. destruct (check_array_total X) as [E|E]; [|exact E].
  apply check_array_inv in E as [_ Hs]. now apply H in Hs.
Qed.

(** X15.  A query matrix whose rows are wider or narrower than the training
    rows is refused: [predict] raises a [ValueError] under every metric. *)
Theorem predict_dimension_guard self (X : matrix) (y : list string)
    (V V' : nat) (Xq : matrix) (m : metric) :
  well_shaped X V -> well_shaped Xq V' -> V' <> V ->
  snd (predict (fst (fit self X y)) Xq m) = Raise ValueError.
Proof.
  intros Hshape Hq Hne. rewrite (fit_ok self X y V Hshape).
  unfold predict. cbn [fst snd scaler getattr bind].
  unfold scaler_transform. cbn [stats].
  destruct (check_array_well_shaped Xq V' Hq) as [-> Hn]. cbn [bind].
  rewrite Hn. cbn [fit_stats n_features_in_].
  rewrite (proj2 (check_array_well_shaped X V Hshape)).
  destruct (Nat.eqb_spec V' V); [contradiction|reflexivity].
Qed.

Lemma predict_dimension_guard_witness :
  snd (predict (fst (fit new_Delta [[1; 0]; [0; 1]] ["A"; "B"]%string))
               [[1; 0; 0]] cityblock) = Raise ValueError.
Proof.
  apply (predict_dimension_guard new_Delta [[1; 0]; [0; 1]]
           ["A"; "B"]%string 2 3 [[1; 0; 0]] cityblock).
  - split; [discriminate|]. split; [lia|]. repeat constructor.
  - split; [discriminate|]. split; [lia|]. repeat constructor.
  - lia.
Defined.

(** X16.  [predict] on an object that was never fitted raises an
    [AttributeError].  [fit] is not atomic: when the training matrix is
    refused (no row, no column, or ragged), the call raises a [ValueError]
    after it has replaced the labels and the scaler, so even a classifier
    that was fitted before can no longer predict: every later [predict]
    raises [NotFittedError]. *)
Theorem failed_fit_unfits self (X : matrix) (y : list string) :
  (forall Xq (m : metric), snd (predict new_Delta Xq m) = Raise AttributeError) /\
  ((forall V, ~ well_shaped X V) ->
   snd (fit self X y) = Raise ValueError /\
   train_y (fst (fit self X y)) = Some y /\
   train_X (fst (fit self X y)) = train_X self /\
   forall Xq (m : metric),
     snd (predict (fst (fit self X y)) Xq m) = Raise NotFittedError).
Proof.
  split; [reflexivity|]. intros Hbad.
  pose proof (not_well_shaped_refused X Hbad) as E.
  unfold fit. rewrite (scaler_fit_transform_raises false X E).
  cbn [fst snd train_y train_X]. repeat split.
Qed.

Lemma failed_fit_unfits_witness :
  snd (fit (fst (fit new_Delta [[1; 0]; [0; 1]] ["A"; "B"]%string)) [] [])
  = Raise ValueError /\
  snd (predict
         (fst (fit (fst (fit new_Delta [[1; 0]; [0; 1]] ["A"; "B"]%string))
                   [] []))
         [[1; 0]] cityblock) = Raise NotFittedError.
Proof.
  destruct (proj2 (failed_fit_unfits
                     (fst (fit new_Delta [[1; 0]; [0; 1]] ["A"; "B"]%string))
                     [] [])) as (E & _ & _ & H).
  - intros V (Hne & _). now apply Hne.
  - split; [exact E|apply H].
Defined.

(** X17.  A successful [fit] replaces all three attributes: the state it
    leaves does not depend on the state it found, so fitting again is the
    same as fitting a fresh object. *)
Theorem refit_replaces self (X : matrix) (y : list string) (V : nat) :
  well_shaped X V ->
  fit self X y = fit new_Delta X y.
Proof.
  intros Hshape. now rewrite !(fit_ok _ X y V Hshape).
Qed.

Lemma refit_replaces_witness :
  fit (fst (fit new_Delta [[5]] ["H"]%string)) [[1; 0]; [0; 1]]
      ["A"; "B"]%string
  = fit new_Delta [[1; 0]; [0; 1]] ["A"; "B"]%string.
Proof.
  apply (refit_replaces _ _ _ 2).
  split; [discriminate|]. split; [lia|]. repeat constructor.
Defined.

Lemma mapM_length {A B : Type} (f : A -> outcome B) : forall l ys,
  mapM f l = Ok ys -> length ys = length l.
Proof.
  induction l as [|x l IH]; intros ys; cbn [mapM].
  - intros [= <-]. reflexivity.
  - destruct (f x) as [z| |]; cbn [bind]; try discriminate.
    destruct (mapM f l) as [zs| |]; cbn [bind]; try discriminate.
    intros [= <-]. cbn [length]. f_equal. now apply IH.
Qed.

Lemma take_members {A : Type} (a : list A) : forall idx ls,
  take a idx = Ok ls -> forall l, In l ls -> In l a.
Proof.
  unfold take. induction idx as [|j idx IH]; intros ls; cbn [mapM].
  - intros [= <-] l [].
  - unfold getitem at 1. destruct (a !! j) as [x|] eqn:Ej; cbn [bind];
      [|discriminate].
    destruct (mapM (getitem a) idx) as [xs| |]; cbn [bind]; try discriminate.
    intros [= <-] l [<-|Hin].
    + apply list_elem_of_In, list_elem_of_lookup. now exists j.
    + now apply (IH xs).
Qed.

(** X18.  Whatever the state, the query and the metric: when [predict]
    returns, it returns one label per query row, and every label is one
    of the stored training labels. *)
Theorem predict_returns_training_labels self (Xq : matrix) (m : metric)
    (y labels : list string) :
  train_y self = Some y ->
  snd (predict self Xq m) = Ok labels ->
  length labels = length Xq /\ forall l, In l labels -> In l y.
Proof.
  intros Hy. unfold predict. cbn [snd]. rewrite Hy.
  destruct (getattr (scaler self)) as [sc| |]; cbn [bind]; try discriminate.
  destruct (scaler_transform sc Xq) as [Xs| |] eqn:Et; cbn [bind];
    try discriminate.
  destruct (getattr (train_X self)) as [tX| |]; cbn [bind]; try discriminate.
  destruct (cdist Xs tX m) as [dists| |] eqn:Ed; cbn [bind getattr];
    try discriminate.
  destruct (argmin_axis1 dists) as [idx| |] eqn:Ei; cbn [bind];
    try discriminate.
  intros Hl. split; [|now apply (take_members y idx)].
  apply mapM_length in Hl. apply mapM_length in Ei.
  unfold cdist in Ed. destruct (_ =? _)%nat; [|discriminate].
  injection Ed as <-. rewrite length_map in Ei.
  unfold scaler_transform in Et. destruct (stats sc); [|discriminate].
  destruct (check_array Xq) as [Xc| |] eqn:Ec; cbn [bind] in Et;
    try discriminate.
  apply check_array_inv in Ec as [-> _].
  destruct (_ =? _)%nat; [|discriminate]. injection Et as <-.
  rewrite length_map in Ei. lia.
Qed.

Lemma predict_returns_training_labels_witness :
  length ["A"%string] = length [[9/10; 1/10]] /\
  In "A"%string ["A"; "B"]%string.
Proof.
  destruct (predict_returns_training_labels
              (fst (fit new_Delta [[1; 0]; [0; 1]] ["A"; "B"]%string))
              [[9/10; 1/10]] cityblock ["A"; "B"]%string ["A"%string])
    as [Hlen Hin].
  - reflexivity.
  - apply predict_scenario.
  - split; [exact Hlen|]. apply Hin. now left.
Defined.

(** *** The city-block distance *)

Lemma cityblock_nil_l v : cityblock [] v = 0.
Proof. reflexivity. Qed.

Lemma cityblock_cons a u b v :
  cityblock (a :: u) (b :: v) = Rabs (a - b) + cityblock u v.
Proof. reflexivity. Qed.

Lemma cityblock_nonneg : forall u v, 0 <= cityblock u v.
Proof.
  induction u as [|a u IH]; intros [|b v]; try (cbn; lra).
  rewrite cityblock_cons. pose proof (Rabs_pos (a - b)).
  specialize (IH v). lra.
Qed.

Lemma cityblock_sym : forall u v, cityblock u v = cityblock v u.
Proof.
  induction u as [|a u IH]; intros [|b v]; try reflexivity.
  rewrite !cityblock_cons, (IH v), (Rabs_minus_sym a b). reflexivity.
Qed.

Lemma cityblock_refl : forall u, cityblock u u = 0.
Proof.
  induction u as [|a u IH]; [reflexivity|].
  rewrite cityblock_cons, IH. unfold Rminus. rewrite Rplus_opp_r, Rabs_R0. lra.
Qed.

Lemma cityblock_zero : forall u v,
  length u = length v -> cityblock u v = 0 -> u = v.
Proof.
  induction u as [|a u IH]; intros [|b v] Hlen H; try discriminate;
    [reflexivity|].
  rewrite cityblock_cons in H. pose proof (Rabs_pos (a - b)).
  pose proof (cityblock_nonneg u v).
  assert (Ha : Rabs (a - b) = 0) by lra.
  assert (Hu : cityblock u v = 0) by lra.
  f_equal.
  - destruct (Req_dec_T (a - b) 0) as [E|E]; [lra|].
    apply Rabs_no_R0 in E. contradiction.
  - apply IH; [now injection Hlen|exact Hu].
Qed.

Lemma cityblock_triangle : forall u v w,
  length u = length v -> length v = length w ->
  cityblock u w <= cityblock u v + cityblock v w.
Proof.
  induction u as [|a u IH]; intros [|b v] [|c w] H1 H2; try discriminate;
    [cbn; lra|].
  rewrite !cityblock_cons.
  assert (Ht : Rabs (a - c) <= Rabs (a - b) + Rabs (b - c)).
  { replace (a - c) with ((a - b) + (b - c)) by ring. apply Rabs_triang. }
  specialize (IH v w ltac:(now injection H1) ltac:(now injection H2)). lra.
Qed.

(** X19.  On vectors of one length the default metric is a metric: never
    negative, symmetric, zero exactly between equal vectors, and it obeys
    the triangle inequality. *)
Theorem cityblock_metric (u v w : vec) :
  length u = length v -> length v = length w ->
  0 <= cityblock u v /\
  cityblock u v = cityblock v u /\
  (cityblock u v = 0 <-> u = v) /\
  cityblock u w <= cityblock u v + cityblock v w.
Proof.
  intros H1 H2. split; [apply cityblock_nonneg|].
  split; [apply cityblock_sym|]. split.
  - split; [now apply cityblock_zero|intros ->; apply cityblock_refl].
  - now apply cityblock_triangle.
Qed.

Lemma cityblock_metric_witness :
  cityblock [1; 0] [0; 1] = cityblock [0; 1] [1; 0].
Proof.
  apply (cityblock_metric [1; 0] [0; 1] [1; 1] eq_refl eq_refl).
Defined.

(** *** Training rows are attributed to themselves *)


Lemma mapM_Forall2 {A B : Type} (f : A -> outcome B) : forall l ys,
  mapM f l = Ok ys -> Forall2 (fun x y => f x = Ok y) l ys.
Proof.
  induction l as [|x l IH]; intros ys; cbn [mapM].
  - intros [= <-]. constructor.
  - destruct (f x) as [z| |] eqn:E; cbn [bind]; try discriminate.
    destruct (mapM f l) as [zs| |]; cbn [bind]; try discriminate.
    intros [= <-]. constructor; [exact E|now apply IH].
Qed.



(** *** Query rows are judged one by one *)




(** *** A change of units *)










End DeltaExtra.

(** ** The stylometric tests *)

Module StylometryExtra.
Import Stylometry.

(** *** Running a loop body over a list *)

Lemma mapR_pairs {A B C : Type} (f : A -> result B) (h : C -> A) (g : C -> B) :
  forall l, (forall p, In p l -> f (h p) = Done (g p)) ->
  mapR f (map h l) = Done (map g l).
Proof.
  induction l as [|p l IH]; intros H; [reflexivity|].
  cbn [map mapR]. rewrite (H p (or_introl eq_refl)). cbn [rbind].
  rewrite IH by (intros q Hq; apply H; now right). reflexivity.
Qed.

Lemma mapR_inv {A B : Type} (f : A -> result B) : forall l ys,
  mapR f l = Done ys -> Forall2 (fun x y => f x = Done y) l ys.
Proof.
  induction l as [|x l IH]; intros ys; cbn [mapR].
  - intros [= <-]. constructor.
  - destruct (f x) as [y|e] eqn:E; cbn [rbind]; [|discriminate].
    destruct (mapR f l) as [ys'|e] eqn:E'; cbn [rbind]; [|discriminate].
    intros [= <-]. constructor; [exact E|]. now apply IH.
Qed.

Lemma mapR_first_fails {A B : Type} (f : A -> result B) x l e :
  f x = Fail e -> mapR f (x :: l) = Fail e.
Proof. intros H. cbn [mapR]. now rewrite H. Qed.

(** *** Dictionaries *)

Lemma dict_get_in (d : dict) a ws :
  NoDup (keys d) -> In (a, ws) d -> dict_get d a = Done ws.
Proof.
  unfold keys. induction d as [|[k v] d IH]; intros Hnd Hin; [destruct Hin|].
  cbn [map fst] in Hnd. apply NoDup_cons in Hnd as [Hk Hnd].
  cbn [dict_get]. destruct Hin as [[= -> ->]|Hin].
  - now rewrite String.eqb_refl.
  - destruct (String.eqb_spec k a) as [->|_]; [|now apply IH].
    exfalso. apply Hk. rewrite list_elem_of_In.
    change a with (fst (a, ws)). now apply in_map.
Qed.

Lemma dict_get_key (d : dict) a :
  In a (keys d) -> exists ws, dict_get d a = Done ws /\ In (a, ws) d.
Proof.
  unfold keys. induction d as [|[k v] d IH]; intros Hin; [destruct Hin|].
  cbn [dict_get]. destruct (String.eqb_spec k a) as [->|Hne].
  - exists v. split; [reflexivity|now left].
  - destruct Hin as [Hin|Hin]; [now cbn in Hin|].
    destruct (IH Hin) as (ws & E & H). exists ws. split; [exact E|now right].
Qed.

Lemma dict_get_missing (d : dict) a :
  ~ In a (keys d) -> dict_get d a = Fail KeyError.
Proof.
  unfold keys. induction d as [|[k v] d IH]; intros Hin; [reflexivity|].
  cbn [dict_get]. destruct (String.eqb_spec k a) as [->|Hne].
  - exfalso. apply Hin. now left.
  - apply IH. intros H. apply Hin. now right.
Qed.

(** *** The shortest corpus *)

Lemma fold_min_le : forall l x,
  (fold_left Nat.min l x <= x)%nat /\
  (forall y, In y l -> (fold_left Nat.min l x <= y)%nat).
Proof.
  induction l as [|z l IH]; intros x; cbn [fold_left].
  - split; [lia|intros y []].
  - destruct (IH (Nat.min x z)) as [H1 H2]. split; [lia|].
    intros y [<-|Hy]; [lia|now apply H2].
Qed.

Lemma fold_min_in : forall l x,
  fold_left Nat.min l x = x \/ In (fold_left Nat.min l x) l.
Proof.
  induction l as [|z l IH]; intros x; cbn [fold_left]; [now left|].
  destruct (IH (Nat.min x z)) as [H|H]; [|right; now right].
  rewrite H. destruct (Nat.min_spec x z) as [[_ ->]|[_ ->]];
    [now left|right; now left].
Qed.

Lemma word_counts (d : dict) :
  NoDup (keys d) ->
  mapR (fun author => ws <~ dict_get d author ;; Done (length ws)) (keys d)
  = Done (map (fun p => length (snd p)) d).
Proof.
  intros Hnd. unfold keys. apply mapR_pairs. intros [a ws] Hin.
  cbn [fst snd]. now rewrite (dict_get_in d a ws Hnd Hin).
Qed.

Lemma shortest_corpus (d : dict) n :
  NoDup (keys d) -> find_shortest_corpus d = Done n ->
  (forall a ws, In (a, ws) d -> (n <= length ws)%nat) /\
  (exists a ws, In (a, ws) d /\ length ws = n).
Proof.
  intros Hnd. unfold find_shortest_corpus. rewrite (word_counts d Hnd).
  cbn [rbind]. destruct d as [|[a0 w0] d]; [discriminate|].
  cbn [map py_min snd]. intros [= <-].
  destruct (fold_min_le (map (fun p => length (snd p)) d) (length w0))
    as [H1 H2].
  split.
  - intros a ws [[= <- <-]|Hin]; [exact H1|].
    apply H2. change (length ws) with ((fun p : string * list string =>
      length (snd p)) (a, ws)). now apply in_map.
  - destruct (fold_min_in (map (fun p => length (snd p)) d) (length w0))
      as [H|H].
    + exists a0, w0. split; [now left|now rewrite H].
    + apply in_map_iff in H as ([a ws] & E & Hin).
      exists a, ws. split; [now right|exact E].
Qed.

Lemma slice_prefix_length {A : Type} (l : list A) n :
  (n <= length l)%nat -> length (Py.slice l 0 (Z.of_nat n)) = n.
Proof.
  intros H. unfold Py.slice, Py.slice_bound.
  destruct (Z.ltb_spec 0 0); [lia|].
  destruct (Z.ltb_spec (Z.of_nat n) 0); [lia|].
  rewrite Z.min_l by lia. rewrite Z.min_l by lia.
  change (Z.to_nat 0) with 0%nat. rewrite drop_0, Z.sub_0_r, Nat2Z.id.
  rewrite length_firstn. lia.
Qed.

(** X23.  [find_shortest_corpus] raises a [ValueError] on a dictionary with
    no author; on any other it returns a number that no corpus is shorter
    than and that is the length of one of them. *)
Theorem find_shortest_corpus_min (d : dict) :
  NoDup (keys d) ->
  match find_shortest_corpus d with
  | Done n =>
      d <> [] /\
      (forall a ws, In (a, ws) d -> (n <= length ws)%nat) /\
      (exists a ws, In (a, ws) d /\ length ws = n)
  | Fail e => d = [] /\ e = ValueError
  end.
Proof.
  intros Hnd. destruct (find_shortest_corpus d) as [n|e] eqn:E.
  - split; [intros ->; discriminate|]. now apply shortest_corpus.
  - unfold find_shortest_corpus in E. rewrite (word_counts d Hnd) in E.
    cbn [rbind] in E. destruct d; [|discriminate].
    cbn in E. now injection E as <-.
Qed.

Lemma find_shortest_corpus_min_witness :
  exists n,
    find_shortest_corpus
      [("a"%string, ["x"; "y"]%string); ("unknown"%string, ["x"%string])]
    = Done n /\ (n <= 1)%nat.
Proof.
  assert (Hnd : NoDup (keys [("a"%string, ["x"; "y"]%string);
                              ("unknown"%string, ["x"%string])])).
  { cbn. repeat (apply NoDup_cons; split;
      [rewrite list_elem_of_In; cbn; intuition discriminate|]).
    apply NoDup_nil_2. }
  pose proof (find_shortest_corpus_min _ Hnd) as H.
  change (find_shortest_corpus _) with (@Done nat 1) in H.
  destruct H as (_ & Hle & _).
  exists 1%nat. split; [reflexivity|].
  apply (Hle "unknown"%string ["x"%string]). right. now left.
Defined.

(** X24.  Cutting a corpus to the length [find_shortest_corpus] returns, as
    [jaccard_test] does, leaves exactly that many words of every author. *)
Theorem find_shortest_corpus_truncates (d : dict) n a ws :
  NoDup (keys d) -> find_shortest_corpus d = Done n -> In (a, ws) d ->
  length (Py.slice ws 0 (Z.of_nat n)) = n.
Proof.
  intros Hnd E Hin. apply slice_prefix_length.
  now apply (proj1 (shortest_corpus d n Hnd E) a ws).
Qed.

Lemma find_shortest_corpus_truncates_witness :
  length (Py.slice ["x"; "y"]%string 0 (Z.of_nat 1)) = 1%nat.
Proof.
  apply (find_shortest_corpus_truncates
           [("a"%string, ["x"; "y"]%string); ("unknown"%string, ["x"%string])]
           1 "a"%string).
  - cbn. repeat (apply NoDup_cons; split;
      [rewrite list_elem_of_In; cbn; intuition discriminate|]).
    apply NoDup_nil_2.
  - reflexivity.
  - now left.
Defined.

(** *** The Jaccard similarity *)

Lemma size_inclusion_exclusion (A U : gset string) :
  (Z.of_nat (size A) + Z.of_nat (size U) - Z.of_nat (size (A ∩ U)))%Z
  = Z.of_nat (size (A ∪ U)).
Proof.
  pose proof (size_union_alt A U) as H1.
  pose proof (size_difference_alt U A) as H2.
  assert (Hsub : U ∩ A ⊆ U) by (set_unfold; tauto).
  pose proof (subseteq_size _ _ Hsub) as H3.
  rewrite (comm_L (∩) A U). lia.
Qed.

Lemma divide_done x d : d <> 0%R -> divide x d = Done (x / d)%R.
Proof. intros H. unfold divide. now destruct (Req_dec_T d 0). Qed.

Lemma divide_zero x : divide x 0 = Fail ZeroDivisionError.
Proof. unfold divide. now destruct (Req_dec_T 0 0). Qed.

Lemma jaccard_sim_union (A U : gset string) :
  jaccard_sim A U =
    divide (IZR (Z.of_nat (size (A ∩ U)))) (IZR (Z.of_nat (size (A ∪ U)))).
Proof. unfold jaccard_sim. now rewrite size_inclusion_exclusion. Qed.

Lemma jaccard_sim_empty : jaccard_sim ∅ ∅ = Fail ZeroDivisionError.
Proof.
  rewrite jaccard_sim_union.
  assert (E : (∅ ∪ ∅ : gset string) = ∅) by (apply set_eq; set_unfold; tauto).
  rewrite E, size_empty. apply divide_zero.
Qed.

Lemma jaccard_sim_bounds (A U : gset string) s :
  jaccard_sim A U = Done s -> (0 <= s <= 1)%R.
Proof.
  rewrite jaccard_sim_union. unfold divide.
  destruct (Req_dec_T _ 0) as [|Hne]; [discriminate|]. intros [= <-].
  assert (Hsub : A ∩ U ⊆ A ∪ U) by (set_unfold; tauto).
  pose proof (subseteq_size _ _ Hsub) as Hle.
  assert (Hpos : (0 < IZR (Z.of_nat (size (A ∪ U))))%R).
  { apply IZR_lt. assert (Z.of_nat (size (A ∪ U)) <> 0%Z)
      by (intros E; apply Hne; now rewrite E). lia. }
  assert (H0 : (0 <= IZR (Z.of_nat (size (A ∩ U))))%R) by (apply IZR_le; lia).
  assert (H1 : (IZR (Z.of_nat (size (A ∩ U)))
                <= IZR (Z.of_nat (size (A ∪ U))))%R) by (apply IZR_le; lia).
  split.
  - apply Rmult_le_pos; [exact H0|]. left. now apply Rinv_0_lt_compat.
  - apply (Rmult_le_reg_r (IZR (Z.of_nat (size (A ∪ U))))); [exact Hpos|].
    unfold Rdiv. rewrite Rmult_assoc, Rinv_l by lra. lra.
Qed.

(** X25.  The similarity [jaccard_test] computes is the size of the
    intersection over the size of the union: it lies between 0 and 1, is 1
    exactly for equal word sets and 0 exactly for disjoint ones; the
    division fails exactly when both sets are empty. *)
Theorem jaccard_sim_range (A U : gset string) :
  match jaccard_sim A U with
  | Done s =>
      s = (IZR (Z.of_nat (size (A ∩ U))) / IZR (Z.of_nat (size (A ∪ U))))%R /\
      (0 <= s <= 1)%R /\
      (s = 1%R <-> A = U) /\
      (s = 0%R <-> A ## U)
  | Fail e => e = ZeroDivisionError /\ A = ∅ /\ U = ∅
  end.
Proof.
  destruct (jaccard_sim A U) as [s|e] eqn:E.
  - pose proof (jaccard_sim_bounds A U s E) as Hb.
    rewrite jaccard_sim_union in E. unfold divide in E.
    destruct (Req_dec_T _ 0) as [|Hne]; [discriminate|]. injection E as <-.
    assert (Hpos : (0 < IZR (Z.of_nat (size (A ∪ U))))%R).
    { apply IZR_lt. assert (Z.of_nat (size (A ∪ U)) <> 0%Z)
        by (intros E; apply Hne; now rewrite E). lia. }
    split; [reflexivity|]. split; [exact Hb|]. split; split.
    + intros H1.
      assert (H : IZR (Z.of_nat (size (A ∩ U)))
                  = IZR (Z.of_nat (size (A ∪ U)))).
      { apply (Rmult_eq_compat_r (IZR (Z.of_nat (size (A ∪ U))))) in H1.
        unfold Rdiv in H1. rewrite Rmult_assoc, Rinv_l in H1 by lra. lra. }
      apply eq_IZR in H.
      assert (HE : A ∩ U ≡ A ∪ U).
      { apply set_subseteq_size_equiv; [set_unfold; tauto|lia]. }
      apply set_eq. intros x. specialize (HE x). set_unfold. tauto.
    + intros ->.
      assert (E1 : U ∩ U = U) by (apply set_eq; set_unfold; tauto).
      assert (E2 : U ∪ U = U) by (apply set_eq; set_unfold; tauto).
      rewrite E1, E2. rewrite E2 in Hpos. field. lra.
    + intros H0.
      assert (H : IZR (Z.of_nat (size (A ∩ U))) = 0%R).
      { apply (Rmult_eq_compat_r (IZR (Z.of_nat (size (A ∪ U))))) in H0.
        unfold Rdiv in H0. rewrite Rmult_assoc, Rinv_l in H0 by lra. lra. }
      apply eq_IZR in H.
      assert (HE : A ∩ U ≡ ∅) by (apply size_empty_iff; lia).
      intros x HA HU. specialize (HE x). set_unfold. tauto.
    + intros Hd. assert (HE : A ∩ U = ∅).
      { apply set_eq. intros x. specialize (Hd x). set_unfold. tauto. }
      rewrite HE, size_empty. cbn [Z.of_nat]. unfold Rdiv. apply Rmult_0_l.
  - rewrite jaccard_sim_union in E. unfold divide in E.
    destruct (Req_dec_T _ 0) as [H0|]; [|discriminate]. injection E as <-.
    apply eq_IZR in H0.
    assert (HE : A ∪ U ≡ ∅) by (apply size_empty_iff; lia).
    split; [reflexivity|].
    split; apply set_eq; intros x; specialize (HE x); set_unfold; tauto.
Qed.

(** *** The first best entry of a table *)

Section Best.
Variable better : R -> R -> Prop.
Variable better_dec : forall a b, {better a b} + {~ better a b}.
Hypothesis better_trans : forall a b c, better a b -> better b c -> better a c.
Hypothesis better_weak : forall a b c, better a b -> ~ better c b -> better a c.

Lemma best_from_first : forall l pre mid best,
  (forall y, In y pre -> better (snd best) (snd y)) ->
  (forall y, In y mid -> ~ better (snd y) (snd best)) ->
  exists l1 l2,
    pre ++ best :: mid ++ l = l1 ++ best_from better better_dec best l :: l2 /\
    (forall y, In y l1 -> better (snd (best_from better better_dec best l)) (snd y)) /\
    (forall y, In y l2 -> ~ better (snd y) (snd (best_from better better_dec best l))).
Proof.
  induction l as [|x l IH]; intros pre mid best Hpre Hmid; cbn [best_from].
  - exists pre, mid. rewrite app_nil_r. auto.
  - destruct (better_dec (snd x) (snd best)) as [Hb|Hb].
    + destruct (IH (pre ++ best :: mid) [] x) as (l1 & l2 & E & H1 & H2).
      * intros y Hy. apply in_app_or in Hy as [Hy|[<-|Hy]].
        -- apply (better_trans _ (snd best)); auto.
        -- exact Hb.
        -- apply (better_weak _ (snd best)); auto.
      * intros y [].
      * exists l1, l2. split; [|auto]. rewrite <- E.
        cbn [app]. rewrite <- app_assoc. reflexivity.
    + destruct (IH pre (mid ++ [x]) best) as (l1 & l2 & E & H1 & H2).
      * exact Hpre.
      * intros y Hy. apply in_app_or in Hy as [Hy|[<-|[]]]; auto.
      * exists l1, l2. split; [|auto]. rewrite <- E.
        rewrite <- app_assoc. reflexivity.
Qed.

End Best.

Lemma py_max_key_first (t : list (string * R)) a :
  py_max_key t = Done a ->
  exists l1 s l2,
    t = l1 ++ (a, s) :: l2 /\
    (forall y, In y l1 -> (snd y < s)%R) /\
    (forall y, In y l2 -> (snd y <= s)%R).
Proof.
  destruct t as [|x l]; [discriminate|]. cbn [py_max_key]. intros [= <-].
  destruct (best_from_first Rgt Rgt_dec) with (l := l) (pre := @nil (string * R))
    (mid := @nil (string * R)) (best := x) as (l1 & l2 & E & H1 & H2).
  - unfold Rgt. intros. lra.
  - unfold Rgt. intros. lra.
  - intros y [].
  - intros y [].
  - destruct (best_from Rgt Rgt_dec x l) as [b s]. cbn [fst snd] in *.
    exists l1, s, l2. split; [exact E|]. split.
    + intros y Hy. apply H1 in Hy. unfold Rgt in Hy. lra.
    + intros y Hy. apply H2 in Hy. unfold Rgt in Hy. lra.
Qed.

Lemma py_min_key_first (t : list (string * R)) a :
  py_min_key t = Done a ->
  exists l1 s l2,
    t = l1 ++ (a, s) :: l2 /\
    (forall y, In y l1 -> (s < snd y)%R) /\
    (forall y, In y l2 -> (s <= snd y)%R).
Proof.
  destruct t as [|x l]; [discriminate|]. cbn [py_min_key]. intros [= <-].
  destruct (best_from_first Rlt Rlt_dec) with (l := l) (pre := @nil (string * R))
    (mid := @nil (string * R)) (best := x) as (l1 & l2 & E & H1 & H2).
  - intros. lra.
  - intros. lra.
  - intros y [].
  - intros y [].
  - destruct (best_from Rlt Rlt_dec x l) as [b s]. cbn [fst snd] in *.
    exists l1, s, l2. split; [exact E|]. split.
    + intros y Hy. now apply H1 in Hy.
    + intros y Hy. apply H2 in Hy. lra.
Qed.

(** *** The Jaccard test *)

Lemma known_author_listed (d : dict) a :
  In a (keys d) -> a <> "unknown"%string -> In a (known_authors d).
Proof.
  intros Hin Hne. unfold known_authors. apply filter_In. split; [exact Hin|].
  now destruct (String.eqb_spec a "unknown").
Qed.

Lemma known_author_key (d : dict) a :
  In a (known_authors d) -> In a (keys d) /\ a <> "unknown"%string.
Proof.
  unfold known_authors. intros H. apply filter_In in H as [Hin Hne].
  split; [exact Hin|]. now destruct (String.eqb_spec a "unknown").
Qed.

Lemma key_of_entry (d : dict) a ws : In (a, ws) d -> In a (keys d).
Proof.
  intros H. unfold keys. change a with (fst (a, ws)). now apply in_map.
Qed.

Lemma slice_zero {A : Type} (l : list A) : Py.slice l 0 0 = [].
Proof.
  unfold Py.slice, Py.slice_bound. destruct (Z.ltb_spec 0 0); [lia|].
  rewrite Z.sub_diag. reflexivity.
Qed.

Lemma jaccard_test_zero (d : dict) u :
  dict_get d "unknown" = Done u -> known_authors d <> [] ->
  jaccard_test d 0 = Fail ZeroDivisionError.
Proof.
  intros Hu Hk. unfold jaccard_test. rewrite Hu. cbn [rbind].
  destruct (known_authors d) as [|a1 rest] eqn:E; [congruence|].
  assert (Hin : In a1 (known_authors d)) by (rewrite E; now left).
  apply known_author_key in Hin as [Hin _].
  destruct (dict_get_key d a1 Hin) as (ws1 & E1 & _).
  rewrite (mapR_first_fails _ a1 rest ZeroDivisionError); [reflexivity|].
  rewrite E1. cbn [rbind]. rewrite !slice_zero.
  change (list_to_set (@nil string)) with (∅ : gset string).
  now rewrite jaccard_sim_empty.
Qed.

(** X26.  When any author of the dictionary has an empty corpus, the
    shortest length is 0 and the Jaccard test run with it, as the notebook
    does, raises a [ZeroDivisionError] at the first known author. *)
Theorem jaccard_test_empty_corpus (d : dict) u a ws b :
  NoDup (keys d) ->
  In ("unknown"%string, u) d -> In (a, ws) d -> a <> "unknown"%string ->
  In (b, []) d ->
  (n <~ find_shortest_corpus d ;; jaccard_test d (Z.of_nat n))
  = Fail ZeroDivisionError.
Proof.
  intros Hnd Hu Ha Hne Hb.
  destruct (find_shortest_corpus d) as [n|e] eqn:E.
  - cbn [rbind].
    pose proof (proj1 (shortest_corpus d n Hnd E) b [] Hb) as Hn.
    cbn [length] in Hn. assert (n = 0%nat) as -> by lia.
    apply (jaccard_test_zero d u).
    + now apply dict_get_in.
    + intros Hk.
      pose proof (known_author_listed d a (key_of_entry d a ws Ha) Hne) as H.
      now rewrite Hk in H.
  - exfalso. unfold find_shortest_corpus in E.
    rewrite (word_counts d Hnd) in E. cbn [rbind] in E.
    destruct d; [destruct Hb|discriminate].
Qed.

Lemma jaccard_test_empty_corpus_witness :
  (n <~ find_shortest_corpus
          [("a"%string, ["x"%string]); ("unknown"%string, [])] ;;
   jaccard_test [("a"%string, ["x"%string]); ("unknown"%string, [])]
     (Z.of_nat n))
  = Fail ZeroDivisionError.
Proof.
  apply (jaccard_test_empty_corpus _ [] "a"%string ["x"%string]
           "unknown"%string).
  - cbn. repeat (apply NoDup_cons; split;
      [rewrite list_elem_of_In; cbn; intuition discriminate|]).
    apply NoDup_nil_2.
  - right. now left.
  - now left.
  - discriminate.
  - right. now left.
Defined.

(** X27.  When [jaccard_test] comes to an answer, its table lists the known
    authors in the order of the dictionary, every similarity lies between 0
    and 1, and the author it names has the largest similarity, the first
    such in the table. *)
Theorem jaccard_test_most_likely (d : dict) n table a :
  jaccard_test d n = Done (table, a) ->
  map fst table = known_authors d /\
  (forall b s, In (b, s) table -> (0 <= s <= 1)%R) /\
  exists l1 s l2,
    table = l1 ++ (a, s) :: l2 /\
    (forall y, In y l1 -> (snd y < s)%R) /\
    (forall y, In y l2 -> (snd y <= s)%R).
Proof.
  unfold jaccard_test.
  destruct (dict_get d "unknown") as [u|e]; cbn [rbind]; [|discriminate].
  destruct (mapR _ (known_authors d)) as [t|e] eqn:E; cbn [rbind];
    [|discriminate].
  destruct (py_max_key t) as [a'|e] eqn:Em; cbn [rbind]; [|discriminate].
  intros [= <- <-]. apply mapR_inv in E.
  split; [|split].
  - clear Em. revert E. generalize (known_authors d).
    intros l E. induction E as [|b y l t Hy _ IH]; [reflexivity|].
    destruct (dict_get d b); cbn [rbind] in Hy; [|discriminate].
    destruct (jaccard_sim _ _); cbn [rbind] in Hy; [|discriminate].
    injection Hy as <-. cbn [map fst]. now rewrite IH.
  - clear Em. intros b s Hin. revert E. generalize (known_authors d).
    intros l E. induction E as [|c y l t Hy _ IH]; [destruct Hin|].
    destruct Hin as [->|Hin]; [|now apply IH].
    destruct (dict_get d c); cbn [rbind] in Hy; [|discriminate].
    destruct (jaccard_sim _ _) eqn:Es; cbn [rbind] in Hy; [|discriminate].
    injection Hy as <- <-. now apply jaccard_sim_bounds in Es.
  - now apply py_max_key_first.
Qed.

Example jaccard_test_sample :
  jaccard_test [("a"%string, ["x"; "y"]%string); ("b"%string, ["x"; "z"]%string);
                ("unknown"%string, ["x"; "z"]%string)] 2
  = Done ([("a"%string, (IZR 1 / IZR 3)%R); ("b"%string, (IZR 2 / IZR 2)%R)],
          "b"%string).
Proof.
  unfold jaccard_test.
  change (dict_get _ "unknown") with (Done ["x"; "z"]%string). cbn [rbind].
  change (known_authors _) with ["a"; "b"]%string. cbn [mapR].
  change (dict_get _ "a") with (Done ["x"; "y"]%string).
  change (dict_get _ "b") with (Done ["x"; "z"]%string). cbn [rbind].
  change (Py.slice ["x"; "y"]%string 0 2) with ["x"; "y"]%string.
  change (Py.slice ["x"; "z"]%string 0 2) with ["x"; "z"]%string.
  rewrite !jaccard_sim_union.
  assert (E1 : size ((list_to_set ["x"; "y"]%string : gset string)
                     ∩ list_to_set ["x"; "z"]%string) = 1%nat)
    by (vm_compute; reflexivity).
  assert (E2 : size ((list_to_set ["x"; "y"]%string : gset string)
                     ∪ list_to_set ["x"; "z"]%string) = 3%nat)
    by (vm_compute; reflexivity).
  assert (E3 : size ((list_to_set ["x"; "z"]%string : gset string)
                     ∩ list_to_set ["x"; "z"]%string) = 2%nat)
    by (vm_compute; reflexivity).
  assert (E4 : size ((list_to_set ["x"; "z"]%string : gset string)
                     ∪ list_to_set ["x"; "z"]%string) = 2%nat)
    by (vm_compute; reflexivity).
  rewrite E1, E2, E3, E4.
  change (Z.of_nat 1) with 1%Z. change (Z.of_nat 2) with 2%Z.
  change (Z.of_nat 3) with 3%Z.
  rewrite !divide_done by (apply not_0_IZR; discriminate). cbn [rbind].
  unfold py_max_key. cbn [best_from snd].
  destruct (Rgt_dec (IZR 2 / IZR 2) (IZR 1 / IZR 3)) as [_|H];
    [reflexivity|]. exfalso. apply H. unfold Rgt. lra.
Qed.

Lemma jaccard_test_most_likely_witness :
  exists l1 s l2,
    [("a"%string, (IZR 1 / IZR 3)%R); ("b"%string, (IZR 2 / IZR 2)%R)]
    = l1 ++ ("b"%string, s) :: l2 /\
    (forall y, In y l1 -> (snd y < s)%R) /\
    (forall y, In y l2 -> (snd y <= s)%R).
Proof.
  exact (proj2 (proj2 (jaccard_test_most_likely _ _ _ _ jaccard_test_sample))).
Defined.

(** *** Word counts *)

Lemma fd_add_keys w : forall fd k,
  In k (map fst (fd_add w fd)) <-> k = w \/ In k (map fst fd).
Proof.
  induction fd as [|[w' c] fd IH]; intros k; cbn [fd_add map fst].
  - cbn. intuition.
  - destruct (String.eqb_spec w' w) as [->|Hne]; cbn [map fst In].
    + intuition.
    + rewrite IH. intuition.
Qed.

Lemma fd_add_nodup w : forall fd,
  NoDup (map fst fd) -> NoDup (map fst (fd_add w fd)).
Proof.
  induction fd as [|[w' c] fd IH]; intros Hnd; cbn [fd_add map fst].
  - apply NoDup_cons. split; [apply not_elem_of_nil|apply NoDup_nil_2].
  - cbn [map fst] in Hnd. apply NoDup_cons in Hnd as [Hk Hnd].
    destruct (String.eqb_spec w' w) as [->|Hne]; cbn [map fst].
    + apply NoDup_cons. now split.
    + apply NoDup_cons. split; [|now apply IH].
      rewrite list_elem_of_In, fd_add_keys. rewrite list_elem_of_In in Hk.
      intros [->|H]; [now apply Hne|now apply Hk].
Qed.

Lemma fd_add_entries w : forall fd w' c',
  NoDup (map fst fd) -> In (w', c') (fd_add w fd) ->
  (w' <> w /\ In (w', c') fd) \/
  (w' = w /\ ((exists c0, In (w, c0) fd /\ c' = S c0) \/
              (~ In w (map fst fd) /\ c' = 1%nat))).
Proof.
  induction fd as [|[k c] fd IH]; intros w' c' Hnd; cbn [fd_add].
  - intros [[= <- <-]|[]]. right. split; [reflexivity|]. right. now split.
  - cbn [map fst] in Hnd. apply NoDup_cons in Hnd as [Hk Hnd].
    rewrite list_elem_of_In in Hk.
    destruct (String.eqb_spec k w) as [->|Hne].
    + intros [[= <- <-]|Hin].
      * right. split; [reflexivity|]. left. exists c. split; [now left|reflexivity].
      * left. split; [|now right]. intros ->. apply Hk.
        change w with (fst (w, c')). now apply in_map.
    + intros [[= <- <-]|Hin].
      * left. split; [exact Hne|now left].
      * destruct (IH w' c' Hnd Hin) as [[H1 H2]|[-> [(c0 & H1 & H2)|[H1 H2]]]].
        -- left. split; [exact H1|now right].
        -- right. split; [reflexivity|]. left. exists c0. split; [now right|exact H2].
        -- right. split; [reflexivity|]. right. split; [|exact H2].
           cbn [map fst]. intros [E|H]; [now apply Hne|now apply H1].
Qed.

Lemma count_occ_snoc (l : list string) w w' :
  count_occ string_dec (l ++ [w]) w' =
    (count_occ string_dec l w' + (if string_dec w w' then 1 else 0))%nat.
Proof.
  rewrite count_occ_app. cbn [count_occ].
  destruct (string_dec w w'); reflexivity.
Qed.

Lemma freq_fold : forall words fd seen,
  NoDup (map fst fd) ->
  (forall w c, In (w, c) fd ->
               c = count_occ string_dec seen w /\ (1 <= c)%nat) ->
  (forall w, In w seen -> In w (map fst fd)) ->
  (forall w c, In (w, c) (fold_left (fun fd w => fd_add w fd) words fd) ->
               c = count_occ string_dec (seen ++ words) w /\ (1 <= c)%nat) /\
  (forall w, In w (seen ++ words) ->
             In w (map fst (fold_left (fun fd w => fd_add w fd) words fd))).
Proof.
  induction words as [|x words IH]; intros fd seen Hnd Hc Hk;
    cbn [fold_left].
  - rewrite app_nil_r. auto.
  - replace (seen ++ x :: words) with ((seen ++ [x]) ++ words)
      by (rewrite <- app_assoc; reflexivity).
    apply IH.
    + now apply fd_add_nodup.
    + intros w c Hin. rewrite count_occ_snoc.
      destruct (fd_add_entries x fd w c Hnd Hin)
        as [[H1 H2]|[-> [(c0 & H1 & H2)|[H1 H2]]]].
      * destruct (Hc w c H2) as [-> Hge].
        destruct (string_dec x w); [congruence|]. split; lia.
      * destruct (Hc x c0 H1) as [-> Hge].
        destruct (string_dec x x); [|congruence]. split; lia.
      * destruct (string_dec x x); [|congruence].
        assert (count_occ string_dec seen x = 0%nat) as ->.
        { apply count_occ_not_In. intros H. apply H1. now apply Hk. }
        split; lia.
    + intros w Hin. rewrite fd_add_keys. apply in_app_or in Hin as [Hin|[<-|[]]].
      * right. now apply Hk.
      * now left.
Qed.

Lemma freq_dist_counts (words : list string) w c :
  In (w, c) (freq_dist words) ->
  c = count_occ string_dec words w /\ (1 <= c)%nat.
Proof.
  unfold freq_dist.
  destruct (freq_fold words [] []) as [H _].
  - apply NoDup_nil_2.
  - intros ? ? [].
  - intros ? [].
  - exact (H w c).
Qed.

Lemma freq_dist_nonempty (words : list string) :
  words <> [] -> freq_dist words <> [].
Proof.
  intros Hne E. destruct words as [|x words]; [congruence|].
  unfold freq_dist in E.
  destruct (freq_fold (x :: words) [] []) as [_ H].
  - apply NoDup_nil_2.
  - intros ? ? [].
  - intros ? [].
  - specialize (H x (or_introl eq_refl)). rewrite E in H. destruct H.
Qed.

Lemma insert_desc_in x : forall l y, In y (insert_desc x l) <-> y = x \/ In y l.
Proof.
  induction l as [|z l IH]; intros y; cbn [insert_desc].
  - cbn. intuition.
  - destruct (snd z <? snd x)%nat; cbn [In]; [intuition|].
    rewrite IH. intuition.
Qed.

Lemma sorted_in : forall (fd acc : list (string * nat)) y,
  In y (fold_left (fun acc x => insert_desc x acc) fd acc) <->
  In y fd \/ In y acc.
Proof.
  induction fd as [|x fd IH]; intros acc y; cbn [fold_left].
  - cbn. intuition.
  - rewrite IH, insert_desc_in. cbn [In]. intuition.
Qed.

Lemma most_common_in n fd y : In y (most_common n fd) -> In y fd.
Proof.
  unfold most_common. intros H. apply WordlistExtra.In_firstn in H.
  apply sorted_in in H as [H|[]]. exact H.
Qed.

Lemma most_common_nonempty n fd : fd <> [] -> most_common (S n) fd <> [].
Proof.
  unfold most_common. intros Hne.
  destruct (fold_left _ fd []) as [|y l] eqn:E; [|discriminate].
  destruct fd as [|x fd]; [congruence|]. exfalso.
  assert (H : In x (fold_left (fun acc x => insert_desc x acc) (x :: fd) []))
    by (apply sorted_in; left; now left).
  rewrite E in H. destruct H.
Qed.

(** *** The chi-squared test *)

Lemma chi_loop_nonneg (author_words : list string) p :
  (0 < p)%R -> forall mc acc,
  (forall w c, In (w, c) mc -> (1 <= c)%nat) -> (0 <= acc)%R ->
  exists x, chi_loop author_words p mc acc = Done x /\ (0 <= x)%R.
Proof.
  intros Hp. induction mc as [|[w c] mc IH]; intros acc Hc Hacc;
    cbn [chi_loop].
  - now exists acc.
  - assert (Hpos : (0 < INR c * p)%R).
    { apply Rmult_lt_0_compat; [|exact Hp]. apply lt_0_INR.
      specialize (Hc w c (or_introl eq_refl)). lia. }
    rewrite divide_done by lra. cbn [rbind]. apply IH.
    + intros w' c' H. apply (Hc w' c'). now right.
    + apply Rplus_le_le_0_compat; [exact Hacc|].
      apply Rmult_le_pos; [apply Rle_0_sqr|].
      left. now apply Rinv_0_lt_compat.
Qed.

Lemma chi_loop_exact (author_words : list string) p : forall mc acc,
  (forall w c, In (w, c) mc ->
     INR (count_occ string_dec author_words w) = (INR c * p)%R /\
     (INR c * p)%R <> 0%R) ->
  chi_loop author_words p mc acc = Done acc.
Proof.
  induction mc as [|[w c] mc IH]; intros acc H; cbn [chi_loop];
    [reflexivity|].
  destruct (H w c (or_introl eq_refl)) as [E Hne].
  rewrite divide_done by exact Hne. cbn [rbind]. rewrite E.
  set (e := (INR c * p)%R) in *.
  replace (acc + (e - e) * (e - e) / e)%R with acc by (field; exact Hne).
  apply IH. intros w' c' Hin. apply H. now right.
Qed.

Lemma chi_squared_empty_author u :
  chi_squared [] u = Fail ZeroDivisionError.
Proof.
  unfold chi_squared. cbn [app length]. change (INR 0) with 0%R.
  destruct u as [|x u].
  - cbn [length]. change (INR 0) with 0%R. now rewrite divide_zero.
  - rewrite divide_done by (apply not_0_INR; discriminate). cbn [rbind].
    change 1000%nat with (S 999).
    pose proof (most_common_nonempty 999 (freq_dist (x :: u))
                  (freq_dist_nonempty (x :: u) ltac:(discriminate))) as Hne.
    destruct (most_common (S 999) (freq_dist (x :: u))) as [|[w c] mc];
      [congruence|].
    cbn [chi_loop].
    replace (INR c * (0 / INR (length (x :: u))))%R with 0%R
      by (unfold Rdiv; ring).
    now rewrite divide_zero.
Qed.

Lemma chi_squared_some a u :
  a <> [] -> exists x, chi_squared a u = Done (Some x) /\ (0 <= x)%R.
Proof.
  intros Ha. unfold chi_squared.
  assert (Hla : (0 < INR (length a))%R).
  { apply lt_0_INR. destruct a; [congruence|cbn; lia]. }
  assert (Hlc : (0 < INR (length (a ++ u)))%R).
  { apply lt_0_INR. rewrite length_app. destruct a; [congruence|cbn; lia]. }
  rewrite divide_done by lra. cbn [rbind].
  change 1000%nat with (S 999).
  assert (Hne : a ++ u <> []) by (destruct a; [congruence|discriminate]).
  pose proof (most_common_nonempty 999 (freq_dist (a ++ u))
                (freq_dist_nonempty (a ++ u) Hne)) as Hmc.
  destruct (chi_loop_nonneg a (INR (length a) / INR (length (a ++ u)))
              ltac:(apply Rdiv_lt_0_compat; assumption)
              (most_common (S 999) (freq_dist (a ++ u))) 0%R)
    as (x & E & Hx).
  - intros w c Hin. apply most_common_in in Hin.
    now apply freq_dist_counts in Hin.
  - lra.
  - exists x. split; [|exact Hx].
    destruct (most_common (S 999) (freq_dist (a ++ u))); [congruence|].
    now rewrite E.
Qed.

(** X28.  The chi-squared value of an author against the unknown text is
    never negative and is always entered in the table; the only way the
    computation fails is a division by zero, and that happens exactly when
    the author's corpus is empty. *)
Theorem chi_squared_outcome (a u : list string) :
  match chi_squared a u with
  | Done (Some x) => a <> [] /\ (0 <= x)%R
  | Done None => False
  | Fail e => e = ZeroDivisionError /\ a = []
  end.
Proof.
  destruct a as [|w a].
  - now rewrite chi_squared_empty_author.
  - destruct (chi_squared_some (w :: a) u ltac:(discriminate)) as (x & -> & Hx).
    split; [discriminate|exact Hx].
Qed.

(** X29.  When every word has the same relative frequency in the author's
    corpus and in the unknown text (so also when the two hold the same
    words, or the unknown text is empty), the chi-squared value is 0. *)
Theorem chi_squared_proportional (a u : list string) :
  a <> [] ->
  (forall w, (count_occ string_dec u w * length a
              = count_occ string_dec a w * length u)%nat) ->
  chi_squared a u = Done (Some 0%R).
Proof.
  intros Ha Hprop. unfold chi_squared.
  assert (Hla : (0 < INR (length a))%R).
  { apply lt_0_INR. destruct a; [congruence|cbn; lia]. }
  assert (Hlu : (0 <= INR (length u))%R) by apply pos_INR.
  assert (Hlc : INR (length (a ++ u)) = (INR (length a) + INR (length u))%R)
    by (now rewrite length_app, plus_INR).
  rewrite Hlc. rewrite divide_done by lra. cbn [rbind].
  change 1000%nat with (S 999).
  assert (Hne : a ++ u <> []) by (destruct a; [congruence|discriminate]).
  pose proof (most_common_nonempty 999 (freq_dist (a ++ u))
                (freq_dist_nonempty (a ++ u) Hne)) as Hmc.
  rewrite (chi_loop_exact a).
  - now destruct (most_common (S 999) (freq_dist (a ++ u))).
  - intros w c Hin. apply most_common_in in Hin.
    apply freq_dist_counts in Hin as [-> Hge].
    rewrite count_occ_app in *. rewrite plus_INR.
    pose proof (Hprop w) as Hw. apply (f_equal INR) in Hw.
    rewrite !mult_INR in Hw.
    assert (Hca : (0 <= INR (count_occ string_dec a w))%R) by apply pos_INR.
    assert (Hcu : (0 <= INR (count_occ string_dec u w))%R) by apply pos_INR.
    assert (Hsum : (1 <= INR (count_occ string_dec a w)
                         + INR (count_occ string_dec u w))%R).
    { rewrite <- plus_INR. change 1%R with (INR 1). now apply le_INR. }
    split.
    + apply (Rmult_eq_reg_r (INR (length a) + INR (length u))); [|lra].
      field_simplify; [|lra]. lra.
    + apply Rgt_not_eq. apply Rmult_lt_0_compat; [lra|].
      apply Rdiv_lt_0_compat; lra.
Qed.

Lemma chi_squared_proportional_witness :
  chi_squared ["x"; "y"]%string ["y"; "x"; "y"; "x"]%string = Done (Some 0%R).
Proof.
  apply chi_squared_proportional; [discriminate|].
  intros w. cbn [count_occ length].
  destruct (string_dec "x" w), (string_dec "y" w); reflexivity.
Defined.

Lemma chi_squared_done a u r :
  chi_squared a u = Done r -> a <> [] /\ exists x, r = Some x /\ (0 <= x)%R.
Proof.
  destruct a as [|w a]; [now rewrite chi_squared_empty_author|].
  destruct (chi_squared_some (w :: a) u ltac:(discriminate)) as (x & -> & Hx).
  intros [= <-]. split; [discriminate|]. now exists x.
Qed.

(** X30.  When [vocab_test] comes to an answer, no known author has an
    empty corpus, its table lists the known authors in the order of the
    dictionary with values that are never negative, and the author it
    names has the smallest value, the first such in the table. *)
Theorem vocab_test_most_likely (d : dict) table a :
  vocab_test d = Done (table, a) ->
  (forall b, In b (known_authors d) -> dict_get d b <> Done []) /\
  map fst table = known_authors d /\
  (forall b x, In (b, x) table -> (0 <= x)%R) /\
  exists l1 x l2,
    table = l1 ++ (a, x) :: l2 /\
    (forall y, In y l1 -> (x < snd y)%R) /\
    (forall y, In y l2 -> (x <= snd y)%R).
Proof.
  unfold vocab_test.
  destruct (mapR _ (known_authors d)) as [per|e] eqn:E; cbn [rbind];
    [|discriminate].
  destruct (py_min_key (somes per)) as [a'|e] eqn:Em; cbn [rbind];
    [|discriminate].
  intros [= <- <-]. apply mapR_inv in E.
  split; [|split; [|split]].
  - clear Em. intros b Hb Hget. revert E Hb. generalize (known_authors d).
    intros l E. induction E as [|c y l t Hy _ IH]; [intros []|].
    intros [->|Hb]; [|now apply IH].
    rewrite Hget in Hy. cbn [rbind] in Hy.
    destruct (dict_get d "unknown"); cbn [rbind] in Hy; [|discriminate].
    now rewrite chi_squared_empty_author in Hy.
  - clear Em. revert E. generalize (known_authors d).
    intros l E. induction E as [|b y l t Hy _ IH]; [reflexivity|].
    destruct (dict_get d b); cbn [rbind] in Hy; [|discriminate].
    destruct (dict_get d "unknown"); cbn [rbind] in Hy; [|discriminate].
    destruct (chi_squared _ _) as [r|] eqn:Ec; cbn [rbind] in Hy;
      [|discriminate].
    apply chi_squared_done in Ec as (_ & x & -> & _).
    injection Hy as <-. cbn [somes map fst]. now rewrite IH.
  - clear Em. intros b x Hin. revert E. generalize (known_authors d).
    intros l E. induction E as [|c y l t Hy _ IH]; [destruct Hin|].
    destruct (dict_get d c); cbn [rbind] in Hy; [|discriminate].
    destruct (dict_get d "unknown"); cbn [rbind] in Hy; [|discriminate].
    destruct (chi_squared _ _) as [r|] eqn:Ec; cbn [rbind] in Hy;
      [|discriminate].
    apply chi_squared_done in Ec as (_ & x' & -> & Hx').
    injection Hy as <-. cbn [somes] in Hin.
    destruct Hin as [[= <- <-]|Hin]; [exact Hx'|now apply IH].
  - now apply py_min_key_first.
Qed.

Example chi_squared_sample :
  chi_squared ["z"]%string ["y"; "x"]%string = Done (Some 2%R).
Proof.
  unfold chi_squared. cbn [app length].
  rewrite divide_done by (apply not_0_INR; discriminate). cbn [rbind].
  change (most_common 1000 (freq_dist ["z"; "y"; "x"]%string))
    with [("z"%string, 1%nat); ("y"%string, 1%nat); ("x"%string, 1%nat)].
  cbn [chi_loop].
  change (count_occ string_dec ["z"]%string "z"%string) with 1%nat.
  change (count_occ string_dec ["z"]%string "y"%string) with 0%nat.
  change (count_occ string_dec ["z"]%string "x"%string) with 0%nat.
  change (INR 0) with 0%R. change (INR 1) with 1%R.
  change (INR 3) with (1 + 1 + 1)%R.
  rewrite !divide_done by lra. cbn [rbind].
  do 2 f_equal. field.
Qed.

Example chi_squared_sample_zero :
  chi_squared ["x"; "y"]%string ["y"; "x"]%string = Done (Some 0%R).
Proof.
  unfold chi_squared. cbn [app length].
  rewrite divide_done by (apply not_0_INR; discriminate). cbn [rbind].
  change (most_common 1000 (freq_dist ["x"; "y"; "y"; "x"]%string))
    with [("x"%string, 2%nat); ("y"%string, 2%nat)].
  cbn [chi_loop].
  change (count_occ string_dec ["x"; "y"]%string "x"%string) with 1%nat.
  change (count_occ string_dec ["x"; "y"]%string "y"%string) with 1%nat.
  change (INR 1) with 1%R. change (INR 2) with (1 + 1)%R.
  change (INR 4) with (1 + 1 + 1 + 1)%R.
  rewrite !divide_done by lra. cbn [rbind].
  do 2 f_equal. field.
Qed.

Example vocab_test_sample :
  vocab_test [("b"%string, ["z"]%string); ("a"%string, ["x"; "y"]%string);
              ("unknown"%string, ["y"; "x"]%string)]
  = Done ([("b"%string, 2%R); ("a"%string, 0%R)], "a"%string).
Proof.
  unfold vocab_test.
  change (known_authors _) with ["b"; "a"]%string. cbn [mapR].
  change (dict_get _ "b") with (Done ["z"]%string).
  change (dict_get _ "a") with (Done ["x"; "y"]%string).
  change (dict_get _ "unknown") with (Done ["y"; "x"]%string). cbn [rbind].
  rewrite chi_squared_sample, chi_squared_sample_zero. cbn [rbind somes].
  unfold py_min_key. cbn [best_from snd].
  destruct (Rlt_dec 0 2) as [_|H]; [reflexivity|]. exfalso. apply H. lra.
Qed.

Lemma vocab_test_most_likely_witness :
  exists l1 x l2,
    [("b"%string, 2%R); ("a"%string, 0%R)] = l1 ++ ("a"%string, x) :: l2 /\
    (forall y, In y l1 -> (x < snd y)%R) /\
    (forall y, In y l2 -> (x <= snd y)%R).
Proof.
  exact (proj2 (proj2 (proj2 (vocab_test_most_likely _ _ _ vocab_test_sample)))).
Defined.

End StylometryExtra.
